(** * Sub-by-Alung: the waveform editor, the burn-in export and the SRT writer

    A shallow embedding of [components/WaveformEditor.tsx], of the export
    handlers of [App.tsx] and of [utils/srt.ts].

    Conventions.
    - A JavaScript [number] is modelled by an exact rational ([Q]): the
      arithmetic of the handlers is the real arithmetic their comments and
      the specification speak about, and binary64 rounding, NaN and the
      infinities are outside the model.  Division by zero is therefore not
      modelled either; statements that divide by the zoom assume it positive
      (the application keeps [zoomLevel] within [10, 500]).
    - [Math.max], [Math.min], [Math.abs], [Math.floor] and [Math.ceil] are
      [Qmax], [Qmin], [Qabs], [Qfloor] and [Qceiling].
    - React refs ([stateRef.current], [videoRef.current], ...) and the props
      a handler closes over are fields of an explicit state record that each
      handler takes and returns. *)

From Stdlib Require Import ZArith QArith Qminmax Qabs Qround Qfield.
From Stdlib Require Import List String Ascii DecimalString Bool Lia Lqa.
From Stdlib Require Import Sorted Permutation.
Import ListNotations.

Open Scope Q_scope.

(** ** Numbers *)

(** [a < b] on numbers, as a boolean. *)
Definition Qltb (a b : Q) : bool := negb (Qle_bool b a).

(** JavaScript truthiness of a string: every string but the empty one. *)
Definition truthy (s : string) : bool := negb (String.eqb s EmptyString).

(** ** Data model ([types.ts]) *)

Record Subtitle : Type := mkSubtitle {
  id : string;
  start : Q;   (* in seconds *)
  end_ : Q;    (* in seconds; the field [end] of the source *)
  text : string
}.

Inductive DragMode : Type :=
| ModeNone | Scrub | MoveSub | ResizeLeft | ResizeRight.

(** [stateRef.current] of the waveform editor. *)
Record StateRef : Type := mkStateRef {
  subtitles : list Subtitle;
  zoomLevel : Q;
  isDragging : bool;
  dragMode : DragMode;
  dragTargetId : option string;
  dragStartX : Q;
  dragStartTime : Q;
  dragOriginalStart : Q;
  dragOriginalEnd : Q;
  isPlaying : bool
}.

(** What the handlers read and write of the [HTMLVideoElement]. *)
Record Video : Type := mkVideo {
  currentTime : Q;
  paused : bool;
  ended : bool;
  duration : Q;
  volume : Q;
  videoWidth : Q;
  videoHeight : Q
}.

(** What the pointer handlers read of the timeline canvas: its [width] and
    the [left] of its bounding client rectangle. *)
Record Canvas : Type := mkCanvas {
  width : Q;
  rectLeft : Q
}.

(** One mounted [WaveformEditor]: its refs, the [selectedSubId] prop (set by
    [onSelectSub]) and the collections handed to [onSubtitleChange], most
    recent first. *)
Record Editor : Type := mkEditor {
  stateRef : StateRef;
  videoRef : option Video;
  canvasRef : option Canvas;
  selectedSubId : option string;
  emitted : list (list Subtitle)
}.

(** ** Time/pixel mapper *)

(** Convert an X pixel to a time, and a time to an X pixel. *)
Definition xToTime (x centerTime width zoom : Q) : Q :=
  let centerX := width / 2 in
  let diffX := x - centerX in
  centerTime + diffX / zoom.

Definition timeToX (time centerTime width zoom : Q) : Q :=
  let centerX := width / 2 in
  let diffTime := time - centerTime in
  centerX + diffTime * zoom.

(** ** Pointer interaction *)

Inductive HitType : Type := HitNone | HitBody | HitLeft | HitRight.

(** [sub.id === selectedSubId], the prop being a string or [null]. *)
Definition isSelected (sub : Subtitle) (selected : option string) : bool :=
  match selected with
  | Some s => String.eqb (id sub) s
  | None => false
  end.

(** The handle test made on the selected caption inside the hit loop. *)
Definition handleHit (timeAtCursor handleTimeWidth : Q) (sub : Subtitle)
  : HitType :=
  if Qltb (Qabs (timeAtCursor - start sub)) handleTimeWidth then HitLeft
  else if Qltb (Qabs (timeAtCursor - end_ sub)) handleTimeWidth then HitRight
  else HitNone.

(** [timeAtCursor >= sub.start && timeAtCursor <= sub.end]: the body test. *)
Definition inBody (timeAtCursor : Q) (sub : Subtitle) : bool :=
  Qle_bool (start sub) timeAtCursor && Qle_bool timeAtCursor (end_ sub).

(** The outer test of the hit loop: the caption's interval widened by
    [handleTimeWidth] on both sides. *)
Definition inExpanded (timeAtCursor handleTimeWidth : Q) (sub : Subtitle)
  : bool :=
  Qle_bool (start sub - handleTimeWidth) timeAtCursor
  && Qle_bool timeAtCursor (end_ sub + handleTimeWidth).

(** One iteration of the hit loop: [Some] is a [break] with [hitSubId] and
    [hitType] set, [None] falls through to the next caption. *)
Definition hitOne (selected : option string) (timeAtCursor handleTimeWidth : Q)
  (sub : Subtitle) : option (string * HitType) :=
  if inExpanded timeAtCursor handleTimeWidth sub then
    match (if isSelected sub selected
           then handleHit timeAtCursor handleTimeWidth sub
           else HitNone) with
    | HitLeft => Some (id sub, HitLeft)
    | HitRight => Some (id sub, HitRight)
    | _ =>
        if inBody timeAtCursor sub then Some (id sub, HitBody) else None
    end
  else None.

(** The loop [for (i = subs.length - 1; i >= 0; i--)] over the captions
    still to visit, in visiting order. *)
Fixpoint hitLoop (selected : option string) (timeAtCursor handleTimeWidth : Q)
  (visit : list Subtitle) : option (string * HitType) :=
  match visit with
  | [] => None
  | sub :: rest =>
      match hitOne selected timeAtCursor handleTimeWidth sub with
      | Some h => Some h
      | None => hitLoop selected timeAtCursor handleTimeWidth rest
      end
  end.

(** The hit loop of [handlePointerDown]: the captions are visited from the
    last to the first. *)
Definition hitTest (selected : option string) (timeAtCursor handleTimeWidth : Q)
  (subs : list Subtitle) : option (string * HitType) :=
  hitLoop selected timeAtCursor handleTimeWidth (rev subs).

(** The width of a handle's hit zone, in pixels. *)
Definition handleHitWidth : Q := 10.

(** [hitType === 'none']. *)
Definition isHitNone (h : HitType) : bool :=
  match h with HitNone => true | _ => false end.

(** The drag mode a hit starts: the three [if (hitType === ...)] of the
    handler; no other hit type reaches them. *)
Definition modeOfHit (hitType : HitType) (previous : DragMode) : DragMode :=
  match hitType with
  | HitBody => MoveSub
  | HitLeft => ResizeLeft
  | HitRight => ResizeRight
  | HitNone => previous
  end.

(** [video.pause()], [video.play()] and [video.currentTime = t]. *)
Definition pauseVideo (v : Video) : Video :=
  mkVideo (currentTime v) true (ended v) (duration v) (volume v)
          (videoWidth v) (videoHeight v).

Definition playVideo (v : Video) : Video :=
  mkVideo (currentTime v) false (ended v) (duration v) (volume v)
          (videoWidth v) (videoHeight v).

Definition seekVideo (t : Q) (v : Video) : Video :=
  mkVideo t (paused v) (ended v) (duration v) (volume v)
          (videoWidth v) (videoHeight v).

(** [handlePointerDown] for a pointer at [e.clientX = clientX]: hit test,
    then the drag session of the hit caption, or a scrub. *)
Definition handlePointerDown (clientX : Q) (ed : Editor) : Editor :=
  match canvasRef ed, videoRef ed with
  | Some canvas, Some video =>
      let st := stateRef ed in
      let x := clientX - rectLeft canvas in
      let zoom := zoomLevel st in
      let timeAtCursor := xToTime x (currentTime video) (width canvas) zoom in
      let subs := subtitles st in
      let handleTimeWidth := handleHitWidth / zoom in
      let hit := hitTest (selectedSubId ed) timeAtCursor handleTimeWidth subs in
      let dragging (mode : DragMode) (target : option string) (os oe : Q)
                   (playing : bool) :=
        mkStateRef subs zoom true mode target x (currentTime video) os oe
                   playing in
      let scrub :=
        mkEditor (dragging Scrub (dragTargetId st) (dragOriginalStart st)
                           (dragOriginalEnd st) (negb (paused video)))
                 (Some (pauseVideo video)) (Some canvas)
                 (* [if (selectedSubId) onSelectSub(null)] *)
                 (match selectedSubId ed with
                  | Some s => if truthy s then None else Some s
                  | None => None
                  end)
                 (emitted ed) in
      match hit with
      | Some (hitSubId, hitType) =>
          if truthy hitSubId && negb (isHitNone hitType) then
            (* [subs.find(s => s.id === hitSubId)!]: the hit id is the id of
               a caption of [subs], so the search cannot come back empty
               (lemma [hitTest_find]). *)
            match find (fun s => String.eqb (id s) hitSubId) subs with
            | Some sub =>
                mkEditor (dragging (modeOfHit hitType (dragMode st))
                                   (Some hitSubId) (start sub) (end_ sub)
                                   (isPlaying st))
                         (Some (pauseVideo video)) (Some canvas)
                         (Some hitSubId) (emitted ed)
            | None => ed
            end
          else scrub
      | None => scrub
      end
  | _, _ => ed
  end.

(** The caption a move or resize drag writes for [sub]: the body of the
    [map] callback of [handlePointerMove]. *)
Definition dragUpdate (mode : DragMode) (target : string) (os oe dt : Q)
  (sub : Subtitle) : Subtitle :=
  if negb (String.eqb (id sub) target) then sub
  else
    let newStart := start sub in
    let newEnd := end_ sub in
    match mode with
    | MoveSub =>
        let newStart := Qmax 0 (os + dt) in
        let newEnd := Qmax (newStart + 0.1) (oe + dt) in
        mkSubtitle (id sub) newStart newEnd (text sub)
    | ResizeLeft =>
        let newStart := Qmin (Qmax 0 (os + dt)) (oe - 0.2) in
        mkSubtitle (id sub) newStart newEnd (text sub)
    | ResizeRight =>
        let newEnd := Qmax (os + 0.2) (oe + dt) in
        mkSubtitle (id sub) newStart newEnd (text sub)
    | _ => mkSubtitle (id sub) newStart newEnd (text sub)
    end.

(** [handlePointerMove]: a scrub seeks the video; a caption drag maps
    [dragUpdate] over the captions, stores the result and hands it to
    [onSubtitleChange]. *)
Definition handlePointerMove (clientX : Q) (ed : Editor) : Editor :=
  let st := stateRef ed in
  match isDragging st, videoRef ed, canvasRef ed with
  | true, Some video, Some canvas =>
      let x := clientX - rectLeft canvas in
      let zoom := zoomLevel st in
      let dx := x - dragStartX st in
      let dt := dx / zoom in
      match dragMode st with
      | Scrub =>
          mkEditor st
                   (Some (seekVideo (Qmax 0 (dragStartTime st - dt)) video))
                   (Some canvas) (selectedSubId ed) (emitted ed)
      | mode =>
          match dragTargetId st with
          | Some target =>
              if truthy target then
                let updatedSubs :=
                  map (dragUpdate mode target (dragOriginalStart st)
                                  (dragOriginalEnd st) dt)
                      (subtitles st) in
                mkEditor (mkStateRef updatedSubs zoom (isDragging st) mode
                                     (dragTargetId st) (dragStartX st)
                                     (dragStartTime st) (dragOriginalStart st)
                                     (dragOriginalEnd st) (isPlaying st))
                         (Some video) (Some canvas) (selectedSubId ed)
                         (updatedSubs :: emitted ed)
              else ed
          | None => ed
          end
      end
  | _, _, _ => ed
  end.

(** [handlePointerUp], also bound to [onPointerCancel]. *)
Definition handlePointerUp (ed : Editor) : Editor :=
  let st := stateRef ed in
  let video' :=
    match dragMode st, isPlaying st, videoRef ed with
    | Scrub, true, Some video => Some (playVideo video)
    | _, _, v => v
    end in
  mkEditor (mkStateRef (subtitles st) (zoomLevel st) false ModeNone None
                       (dragStartX st) (dragStartTime st)
                       (dragOriginalStart st) (dragOriginalEnd st)
                       (isPlaying st))
           video' (canvasRef ed) (selectedSubId ed) (emitted ed).

(** Pointer events, and a run of them from left to right. *)
Inductive PointerEvent : Type :=
| PointerDown (clientX : Q)
| PointerMove (clientX : Q)
| PointerUp.

Definition handle (ev : PointerEvent) (ed : Editor) : Editor :=
  match ev with
  | PointerDown x => handlePointerDown x ed
  | PointerMove x => handlePointerMove x ed
  | PointerUp => handlePointerUp ed
  end.

Definition run (evs : list PointerEvent) (ed : Editor) : Editor :=
  fold_left (fun e ev => handle ev e) evs ed.

(** "No resize handle of the selected caption is hit": no caption the loop
    visits is selected, within the expanded interval and within the margin
    of one of its edges. *)
Definition noHandleHit (selected : option string) (t h : Q)
  (subs : list Subtitle) : Prop :=
  forall sub, In sub subs ->
    isSelected sub selected = true -> inExpanded t h sub = true ->
    handleHit t h sub = HitNone.

(** The pointer-moves of one drag, in order. *)
Definition moves (xs : list Q) (ed : Editor) : Editor :=
  fold_left (fun e x => handlePointerMove x e) xs ed.

(** What a drag session fixes at pointer-down, and the refs a pointer-move
    needs. *)
Record Session : Type := mkSession {
  sessionZoom : Q;
  sessionDragging : bool;
  sessionMode : DragMode;
  sessionTarget : option string;
  sessionStartX : Q;
  sessionOriginalStart : Q;
  sessionOriginalEnd : Q;
  sessionCanvas : option Canvas;
  sessionHasVideo : bool
}.

Definition session (ed : Editor) : Session :=
  let st := stateRef ed in
  mkSession (zoomLevel st) (isDragging st) (dragMode st) (dragTargetId st)
            (dragStartX st) (dragOriginalStart st) (dragOriginalEnd st)
            (canvasRef ed)
            (match videoRef ed with Some _ => true | None => false end).

(** The part of a caption that a drag in [mode] never writes: the id and
    the text, and the edge opposite to the handle of a resize. *)
Definition fixedPart (mode : DragMode) (sub : Subtitle)
  : string * string * option Q :=
  (id sub, text sub,
   match mode with
   | ResizeLeft => Some (end_ sub)
   | ResizeRight => Some (start sub)
   | _ => None
   end).

(** ** The scenarios of the specification *)

(** One caption [{start:10, end:12, text:"hi"}] at zoom 50 px/s on a canvas
    1000 px wide whose left edge is at client x = 0, the video paused at
    t = 11: the pixel of time t is [500 + (t - 11) * 50]. *)
Definition scenarioEditor (selected : option string) : Editor :=
  mkEditor
    (mkStateRef [mkSubtitle "a" 10 12 "hi"] 50 false ModeNone None 0 0 0 0
                false)
    (Some (mkVideo 11 true false 60 1 1920 1080))
    (Some (mkCanvas 1000 0)) selected [].

(** The captions of an editor with their times in lowest terms. *)
Definition normalized (subs : list Subtitle) : list Subtitle :=
  map (fun s => mkSubtitle (id s) (Qred (start s)) (Qred (end_ s)) (text s))
      subs.

(** One caption [{start:5, end:7}] at zoom 50 px/s, the video paused at
    t = 5: the pixel of time t is [500 + (t - 5) * 50]. *)
Definition clampEditor : Editor :=
  mkEditor
    (mkStateRef [mkSubtitle "a" 5 7 "hi"] 50 false ModeNone None 0 0 0 0
                false)
    (Some (mkVideo 5 true false 60 1 1920 1080))
    (Some (mkCanvas 1000 0)) None [].

(** Two captions, the first one under the pointer at client x = 500. *)
Definition twoCaptionEditor : Editor :=
  mkEditor
    (mkStateRef [mkSubtitle "a" 10 12 "hi"; mkSubtitle "b" 20 21 "yo"]
                50 false ModeNone None 0 0 0 0 false)
    (Some (mkVideo 11 true false 60 1 1920 1080))
    (Some (mkCanvas 1000 0)) None [].

(** ** Waveform rasterizer (step 2 of [draw]) *)

(** The decoded audio: its sample rate and channel 0. *)
Record AudioBuffer : Type := mkAudioBuffer {
  sampleRate : Q;
  channelData : list Q
}.

(** [channelData[j]]: [undefined] outside the buffer. *)
Definition sampleAt (data : list Q) (j : Z) : option Q :=
  if (j <? 0)%Z then None else nth_error data (Z.to_nat j).

(** The running [min], [max] and [hasData] of the peak-sampling loop. *)
Definition Peaks : Type := (Q * Q * bool)%type.

(** One pass of the body of [for (j = safeStart; j < safeEnd; j += stride)];
    a comparison with [undefined] is false. *)
Definition peakStep (data : list Q) (j : Z) (acc : Peaks) : Peaks :=
  let '(min, max, _) := acc in
  match sampleAt data j with
  | Some val =>
      (if Qltb val min then val else min,
       if Qltb max val then val else max,
       true)
  | None => (min, max, true)
  end.

Fixpoint peakLoop (fuel : nat) (data : list Q) (safeEnd stride j : Z)
  (acc : Peaks) : Peaks :=
  match fuel with
  | O => acc
  | S fuel' =>
      if (j <? safeEnd)%Z
      then peakLoop fuel' data safeEnd stride (j + stride)%Z
                    (peakStep data j acc)
      else acc
  end.

(** Peak sampling of one bucket: the adaptive stride and the loop, from
    [min = 1.0], [max = -1.0], [hasData = false].  The stride is at least 1,
    so [safeEnd - safeStart] passes exhaust the loop. *)
Definition peakSample (data : list Q) (safeStart safeEnd : Z) : Peaks :=
  let stride := Z.max 1 ((safeEnd - safeStart) / 40) in
  peakLoop (Z.to_nat (safeEnd - safeStart)) data safeEnd stride safeStart
           (1, -(1), false).

(** A [ctx.fillRect(x, y, w, h)] of the waveform, tagged with the bucket
    index and the peaks it was drawn for. *)
Record Bar : Type := mkBar {
  bucket : Z;
  barMin : Q;
  barMax : Q;
  rectX : Z;
  rectY : Z;
  rectW : Z;
  rectH : Z
}.

(** What one pass of the bucket loop does. *)
Inductive BucketStep : Type :=
| Continue            (* [continue], or a bucket with nothing to draw *)
| Break               (* [break] *)
| Fill (bar : Bar).   (* one [fillRect] *)

Definition bucketStep (audio : AudioBuffer) (width height zoom currentTime : Q)
  (step i : Z) : BucketStep :=
  let data := channelData audio in
  let len := Z.of_nat (List.length data) in
  let ampHeight := height / 2 in
  let startSample := (i * step)%Z in
  let endSample := (startSample + step)%Z in
  if ((endSample <? 0) || (len <=? startSample))%Z then Continue
  else
    let safeStart := Z.max 0 startSample in
    let safeEnd := Z.min len endSample in
    let timeStart := inject_Z startSample / sampleRate audio in
    let timeEnd := inject_Z endSample / sampleRate audio in
    let xStart := timeToX timeStart currentTime width zoom in
    let xEnd := timeToX timeEnd currentTime width zoom in
    let drawX := Qfloor xStart in
    let drawW := Z.max 1 (Qceiling xEnd - drawX) in
    if Qltb width (inject_Z drawX) then Break
    else if (drawX + drawW <? 0)%Z then Continue
    else
      let '(min, max, hasData) := peakSample data safeStart safeEnd in
      if hasData && Qle_bool min max then
        if Qltb (max - min) 0.005 then
          let y := Qfloor ampHeight in
          Fill (mkBar i min max drawX y drawW 1)
        else
          let yMin := Qfloor (ampHeight + min * ampHeight * 0.9) in
          let yMax := Qceiling (ampHeight + max * ampHeight * 0.9) in
          let h := Z.max 1 (yMax - yMin) in
          Fill (mkBar i min max drawX yMin drawW h)
      else Continue.

(** The loop [for (i = first; i <= last; i++)] over the buckets, collecting
    the bars in drawing order. *)
Fixpoint bucketLoop (fuel : nat) (body : Z -> BucketStep) (i last : Z)
  : list Bar :=
  match fuel with
  | O => []
  | S fuel' =>
      if (i <=? last)%Z then
        match body i with
        | Break => []
        | Continue => bucketLoop fuel' body (i + 1)%Z last
        | Fill bar => bar :: bucketLoop fuel' body (i + 1)%Z last
        end
      else []
  end.

(** The bucket width in samples: [Math.ceil(audioBuffer.sampleRate / zoom)]. *)
Definition bucketSamples (audio : AudioBuffer) (zoom : Q) : Z :=
  let samplesPerPixel := sampleRate audio / zoom in
  Qceiling samplesPerPixel.

(** The waveform part of [draw] for a canvas [width] by [height], at [zoom]
    and centred on [currentTime]: the bars it fills. *)
Definition drawWaveform (audio : AudioBuffer)
  (width height zoom currentTime : Q) : list Bar :=
  let step := bucketSamples audio zoom in
  let startTimeAtLeft := xToTime 0 currentTime width zoom in
  let endTimeAtRight := xToTime width currentTime width zoom in
  let startBucketIndex :=
    Qfloor ((startTimeAtLeft * sampleRate audio) / inject_Z step) in
  let endBucketIndex :=
    Qceiling ((endTimeAtRight * sampleRate audio) / inject_Z step) in
  let first := (startBucketIndex - 1)%Z in
  let last := (endBucketIndex + 1)%Z in
  bucketLoop (Z.to_nat (last - first + 1))
             (bucketStep audio width height zoom currentTime step)
             first last.

(** A short buffer for the examples: 8 samples at 4 Hz. *)
Definition sampleAudio : AudioBuffer :=
  mkAudioBuffer 4 [0.5; -(0.25); 0.75; 0; -(1); 0.125; 0.25; -(0.5)].

(** The peaks of bucket [i] of the absolute sample grid at [zoom]: the
    samples [i * step, i * step + step) clamped to the buffer. *)
Definition bucketPeaks (audio : AudioBuffer) (zoom : Q) (i : Z) : Peaks :=
  let step := bucketSamples audio zoom in
  let len := Z.of_nat (List.length (channelData audio)) in
  peakSample (channelData audio) (Z.max 0 (i * step))
             (Z.min len (i * step + step)).

(** ** Burn-in export ([App.tsx]) *)

(** [SubtitleStyle] of [types.ts]. *)
Record SubtitleStyle : Type := mkSubtitleStyle {
  fontFamily : string;
  fontSize : Q;       (* percentage of the video height *)
  strokeWidth : Q;    (* percentage of the font size *)
  fontWeight : string;
  color : string
}.

Inductive RenderStatus : Type := Idle | Rendering | Completed.

(** What a frame puts on the render canvas.  A text command carries the
    font size in pixels and the line width or fill colour it is drawn
    with. *)
Inductive DrawCmd : Type :=
| DrawImage (w h : Q)
| StrokeText (txt : string) (x y : Q) (fontPx : Z) (lineWidth : Q)
| FillText (txt : string) (x y : Q) (fontPx : Z) (fillStyle : string).

(** The hidden render canvas and its 2D context: its size, the context's
    [lineWidth] (1 on a fresh context) and the commands drawn so far, most
    recent last. *)
Record RenderCanvas : Type := mkRenderCanvas {
  canvasWidth : Q;
  canvasHeight : Q;
  ctxLineWidth : Q;
  drawn : list DrawCmd
}.

(** The [MediaRecorder] of an export session. *)
Record Recorder : Type := mkRecorder {
  mimeType : string;
  fileExtension : string;
  recording : bool
}.

(** The state of [App] that the export handlers read and write. *)
Record Export : Type := mkExport {
  renderStatus : RenderStatus;
  exportVideo : option Video;           (* [videoRef.current] *)
  renderCanvas : option RenderCanvas;   (* [renderCanvasRef.current] *)
  videoSrc : option string;
  mutePreview : bool;
  previousVolume : Q;                   (* [previousVolumeRef.current] *)
  subtitlesRef : list Subtitle;
  styleRef : SubtitleStyle;
  mediaRecorder : option Recorder;      (* [mediaRecorderRef.current] *)
  alerts : list string;                 (* [alert] messages, latest first *)
  exportProgress : Q
}.

(** What the browser decides: which MIME types [MediaRecorder] supports,
    whether the canvas yields a 2D context, whether [video.play()]
    resolves. *)
Record Browser : Type := mkBrowser {
  isTypeSupported : string -> bool;
  hasContext2d : bool;
  playResolves : bool
}.

(** The preference list of [startRendering], most preferred first. *)
Definition mimeTypes : list string :=
  [ "video/mp4;codecs=avc1.4d002a";
    "video/mp4;codecs=avc1.42E01E";
    "video/mp4";
    "video/webm;codecs=h264";
    "video/webm;codecs=vp9";
    "video/webm" ]%string.

(** [let selectedMimeType = ''; for (const type of types)
    if (supported(type)) { selectedMimeType = type; break; }] *)
Fixpoint selectMimeType (types : list string) (supported : string -> bool)
  : string :=
  match types with
  | [] => EmptyString
  | type :: rest =>
      if supported type then type else selectMimeType rest supported
  end.

Definition unsupportedMessage : string :=
  ("Your browser does not support video recording formats "
   ++ "required for this feature.")%string.

(** [s.includes(needle)]. *)
Fixpoint includes (needle s : string) : bool :=
  if String.prefix needle s then true
  else match s with
       | EmptyString => false
       | String _ rest => includes needle rest
       end.

Definition setRenderStatus (status : RenderStatus) (app : Export) : Export :=
  mkExport status (exportVideo app) (renderCanvas app) (videoSrc app)
           (mutePreview app) (previousVolume app) (subtitlesRef app)
           (styleRef app) (mediaRecorder app) (alerts app)
           (exportProgress app).

(** [startRendering], over the preference list it probes. *)
Definition startRenderingWith (types : list string) (browser : Browser)
  (app : Export) : Export :=
  match exportVideo app, renderCanvas app, videoSrc app with
  | Some video, Some canvas, Some src =>
      if negb (truthy src) then app
      else
        (* [video.currentTime = 0] and the preview volume *)
        let video1 :=
          mkVideo 0 (paused video) (ended video) (duration video)
                  (if mutePreview app then 0 else previousVolume app)
                  (videoWidth video) (videoHeight video) in
        (* setting the size of a canvas clears it and resets its context *)
        let canvas1 :=
          mkRenderCanvas (videoWidth video) (videoHeight video) 1 [] in
        let app1 :=
          mkExport Rendering (Some video1) (Some canvas1) (videoSrc app)
                   (mutePreview app) (previousVolume app) (subtitlesRef app)
                   (styleRef app) (mediaRecorder app) (alerts app)
                   (exportProgress app) in
        if negb (hasContext2d browser) then app1
        else
          let selectedMimeType :=
            selectMimeType types (isTypeSupported browser) in
          if negb (truthy selectedMimeType) then
            mkExport Idle (Some video1) (Some canvas1) (videoSrc app)
                     (mutePreview app) (previousVolume app)
                     (subtitlesRef app) (styleRef app) (mediaRecorder app)
                     (unsupportedMessage :: alerts app) (exportProgress app)
          else
            let fileExtension :=
              if includes "mp4" selectedMimeType then "mp4"%string
              else "webm"%string in
            let recorder := mkRecorder selectedMimeType fileExtension true in
            (* [video.play()]: on rejection the status goes back to idle *)
            let video2 := if playResolves browser then playVideo video1
                          else video1 in
            mkExport (if playResolves browser then Rendering else Idle)
                     (Some video2) (Some canvas1) (videoSrc app)
                     (mutePreview app) (previousVolume app)
                     (subtitlesRef app) (styleRef app) (Some recorder)
                     (alerts app) (exportProgress app)
  | _, _, _ => app
  end.

Definition startRendering : Browser -> Export -> Export :=
  startRenderingWith mimeTypes.

(** The predicate of [subtitlesRef.current.find] in [renderFrame]. *)
Definition activeAt (t : Q) (s : Subtitle) : bool :=
  Qle_bool (start s) t && Qle_bool t (end_ s).

(** The [lineWidth] setter of a 2D context ignores values that are not
    positive. *)
Definition setLineWidth (v old : Q) : Q := if Qltb 0 v then v else old.

(** The compositing part of [renderFrame]: the video frame, then the text
    of the active caption, if any.  Returns the commands of this frame and
    the context's line width after it. *)
Definition compositeFrame (video : Video) (canvas : RenderCanvas)
  (subs : list Subtitle) (currentStyle : SubtitleStyle)
  : list DrawCmd * Q :=
  let image := DrawImage (canvasWidth canvas) (canvasHeight canvas) in
  let activeSub := find (activeAt (currentTime video)) subs in
  match activeSub with
  | Some activeSub =>
      let fontSize :=
        Qfloor (canvasHeight canvas * (fontSize currentStyle / 100)) in
      let strokeRatio := strokeWidth currentStyle / 100 in
      let lineWidth :=
        setLineWidth (inject_Z fontSize * strokeRatio) (ctxLineWidth canvas) in
      let x := canvasWidth canvas / 2 in
      let y := canvasHeight canvas - inject_Z fontSize * 1.5 in
      let stroke :=
        if Qltb 0 lineWidth
        then [StrokeText (text activeSub) x y fontSize lineWidth]
        else [] in
      (image :: stroke
         ++ [FillText (text activeSub) x y fontSize (color currentStyle)],
       lineWidth)
  | None => ([image], ctxLineWidth canvas)
  end.

(** One call of [renderFrame].  At the end of the video the recorder is
    stopped (its [onstop] pauses the video, restores the volume and sets the
    status to completed) and nothing is drawn; otherwise the frame is
    composited and the progress updated. *)
Definition renderFrame (app : Export) : Export :=
  match exportVideo app, renderCanvas app, mediaRecorder app with
  | Some video, Some canvas, Some recorder =>
      if ended video then
        let video' :=
          mkVideo (currentTime video) true (ended video) (duration video)
                  (previousVolume app) (videoWidth video)
                  (videoHeight video) in
        mkExport Completed (Some video') (Some canvas) (videoSrc app)
                 (mutePreview app) (previousVolume app) (subtitlesRef app)
                 (styleRef app)
                 (Some (mkRecorder (mimeType recorder)
                                   (fileExtension recorder) false))
                 (alerts app) (exportProgress app)
      else
        let '(cmds, lineWidth) :=
          compositeFrame video canvas (subtitlesRef app) (styleRef app) in
        let canvas' :=
          mkRenderCanvas (canvasWidth canvas) (canvasHeight canvas) lineWidth
                         (drawn canvas ++ cmds) in
        mkExport (renderStatus app) (Some video) (Some canvas')
                 (videoSrc app) (mutePreview app) (previousVolume app)
                 (subtitlesRef app) (styleRef app) (mediaRecorder app)
                 (alerts app)
                 (currentTime video / duration video * 100)
  | _, _, _ => app
  end.

(** The texts a list of commands fills, in order. *)
Definition filledTexts (cmds : list DrawCmd) : list string :=
  flat_map (fun c => match c with
                     | FillText txt _ _ _ _ => [txt]
                     | _ => []
                     end) cmds.

(** An export session ready to render frames: a 1920x1080 canvas, the
    video playing at time [t], the given captions. *)
Definition exportAt (t : Q) (subs : list Subtitle) : Export :=
  mkExport Rendering
           (Some (mkVideo t false false 10 0 1920 1080))
           (Some (mkRenderCanvas 1920 1080 1 []))
           (Some "blob:video"%string) true 1 subs
           (mkSubtitleStyle "Arial" 5 15 "bold" "#FFFFFF")
           (Some (mkRecorder "video/webm" "webm" true)) [] 0.

(** Two captions that overlap on [3, 4]. *)
Definition overlappingCaptions : list Subtitle :=
  [mkSubtitle "a" 2 4 "Hello"; mkSubtitle "b" 3 5 "Bye"].

(** An export dialog about to start: idle, the video paused. *)
Definition exportIdle : Export :=
  mkExport Idle
           (Some (mkVideo 3 true false 10 1 1920 1080))
           (Some (mkRenderCanvas 300 150 1 []))
           (Some "blob:video"%string) true 1 []
           (mkSubtitleStyle "Arial" 5 15 "bold" "#FFFFFF")
           None [] 0.

(** A browser that records WebM only, and one that records nothing. *)
Definition webmBrowser : Browser :=
  mkBrowser (includes "webm") true true.

Definition noCodecBrowser : Browser :=
  mkBrowser (fun _ => false) true true.

(** ** SRT writer ([utils/srt.ts]) *)

(** The line feed of the template literal. *)
Definition nl : string := String "010"%char EmptyString.

(** The decimal digit of the units of [n], and fixed-width decimal fields. *)
Definition digit (n : Z) : ascii :=
  ascii_of_nat (48 + Z.to_nat (n mod 10)).

Definition digits2 (n : Z) : string :=
  String (digit (n / 10)) (String (digit n) EmptyString).

Definition digits3 (n : Z) : string := String (digit (n / 100)) (digits2 n).

Definition digits4 (n : Z) : string := String (digit (n / 1000)) (digits3 n).

Definition digits6 (n : Z) : string :=
  String (digit (n / 100000)) (String (digit (n / 10000)) (digits4 n)).

(** *** The [Date] object, as far as [formatTime] uses it

    A time value is a number of milliseconds since the epoch.  The local
    time zone is taken to keep one UTC offset, so that setting the
    milliseconds of [new Date(0)] to [ms] gives the time value [ms]
    truncated. *)

Definition msPerDay : Z := 86400000.

(** The largest time value of a valid date. *)
Definition maxTimeValue : Z := 8640000000000000.

(** [ToIntegerOrInfinity]: truncation towards zero. *)
Definition toInteger (x : Q) : Z :=
  if Qle_bool 0 x then Qfloor x else Qceiling x.

(** [date = new Date(0); date.setMilliseconds(ms)]: the time value of
    [date], or [None] when it is out of range (an invalid date). *)
Definition setMilliseconds (ms : Q) : option Z :=
  let milli := toInteger ms in
  if (Z.abs milli <=? maxTimeValue)%Z then Some milli else None.

(** Year, month and day of the proleptic Gregorian calendar for a day
    number counted from 1970-01-01. *)
Definition civilFromDays (day : Z) : Z * Z * Z :=
  (let z := day + 719468 in
   let era := z / 146097 in
   let doe := z - era * 146097 in
   let yoe := (doe - doe / 1460 + doe / 36524 - doe / 146096) / 365 in
   let y := yoe + era * 400 in
   let doy := doe - (365 * yoe + yoe / 4 - yoe / 100) in
   let mp := (5 * doy + 2) / 153 in
   let d := doy - (153 * mp + 2) / 5 + 1 in
   let m := if mp <? 10 then mp + 3 else mp - 9 in
   (if m <=? 2 then y + 1 else y, m, d))%Z.

(** The year of an ISO string: four digits from 0000 to 9999, a sign and
    six digits otherwise. *)
Definition isoYear (y : Z) : string :=
  if ((0 <=? y) && (y <=? 9999))%Z then digits4 y
  else ((if (0 <=? y)%Z then "+" else "-") ++ digits6 (Z.abs y))%string.

(** [HH:mm:ss] of a number of milliseconds within a day. *)
Definition isoClock (timeInDay : Z) : string :=
  (digits2 (timeInDay / 3600000) ++ ":"
   ++ digits2 (timeInDay / 60000 mod 60) ++ ":"
   ++ digits2 (timeInDay / 1000 mod 60))%string.

(** [date.toISOString()] of a valid date: [YYYY-MM-DDTHH:mm:ss.sssZ]. *)
Definition toISOString (timeValue : Z) : string :=
  let day := (timeValue / msPerDay)%Z in
  let timeInDay := (timeValue mod msPerDay)%Z in
  let '(y, m, d) := civilFromDays day in
  (isoYear y ++ "-" ++ digits2 m ++ "-" ++ digits2 d ++ "T"
   ++ isoClock timeInDay ++ "." ++ digits3 (timeInDay mod 1000) ++ "Z")%string.

(** [s.replace(a, b)] for one-character strings: the first [a] becomes
    [b]. *)
Fixpoint replaceChar (a b : ascii) (s : string) : string :=
  match s with
  | EmptyString => EmptyString
  | String c rest =>
      if Ascii.eqb c a then String b rest
      else String c (replaceChar a b rest)
  end.

(** [formatTime]; [None] when [toISOString] throws a [RangeError]. *)
Definition formatTime (seconds : Q) : option string :=
  match setMilliseconds (seconds * 1000) with
  | Some timeValue =>
      (* [substring(11, 23)]: 12 characters from index 11 *)
      Some (replaceChar "." "," (substring 11 12 (toISOString timeValue)))
  | None => None
  end.

(** The comparator of the sort: [(a, b) => a.start - b.start]. *)
Definition byStart (a b : Subtitle) : Q := start a - start b.

(** [Array.prototype.sort] is stable: a caption is placed before the first
    one it does not compare greater than. *)
Fixpoint insertSorted (a : Subtitle) (sorted : list Subtitle)
  : list Subtitle :=
  match sorted with
  | [] => [a]
  | b :: rest =>
      if Qle_bool (byStart a b) 0 then a :: b :: rest
      else b :: insertSorted a rest
  end.

Fixpoint sortByStart (subs : list Subtitle) : list Subtitle :=
  match subs with
  | [] => []
  | a :: rest => insertSorted a (sortByStart rest)
  end.

(** An integer index in decimal, as a template literal prints it. *)
Definition decimal (n : nat) : string :=
  NilZero.string_of_uint (Nat.to_uint n).

(** The callback of [map]: one entry of the file. *)
Definition srtEntry (sub : Subtitle) (index : nat) : option string :=
  match formatTime (start sub), formatTime (end_ sub) with
  | Some from, Some to =>
      Some (decimal (index + 1) ++ nl ++ from ++ " --> " ++ to ++ nl
            ++ text sub ++ nl)%string
  | _, _ => None
  end.

(** [subs.map(callback)] from [index] on. *)
Fixpoint mapEntries (index : nat) (subs : list Subtitle)
  : option (list string) :=
  match subs with
  | [] => Some []
  | sub :: rest =>
      match srtEntry sub index, mapEntries (S index) rest with
      | Some entry, Some entries => Some (entry :: entries)
      | _, _ => None
      end
  end.

Definition generateSRT (subtitles : list Subtitle) : option string :=
  option_map (String.concat nl) (mapEntries 0 (sortByStart subtitles)).

(** *** The format the specification describes *)

(** [HH:MM:SS,mmm], zero-padded, of a number of milliseconds. *)
Definition srtTimestamp (ms : Z) : string :=
  let t := (ms mod msPerDay)%Z in
  (digits2 (t / 3600000) ++ ":" ++ digits2 (t / 60000 mod 60) ++ ":"
   ++ digits2 (t / 1000 mod 60) ++ "," ++ digits3 (t mod 1000))%string.

(** Entry number [number]: the index line, the [start --> end] line and the
    text, each ended by a line feed. *)
Definition srtBlock (number : nat) (sub : Subtitle) : string :=
  (decimal number ++ nl
   ++ srtTimestamp (toInteger (start sub * 1000)) ++ " --> "
   ++ srtTimestamp (toInteger (end_ sub * 1000)) ++ nl
   ++ text sub ++ nl)%string.

(** The blocks numbered from [number] on. *)
Fixpoint srtBlocks (number : nat) (subs : list Subtitle) : list string :=
  match subs with
  | [] => []
  | sub :: rest => srtBlock number sub :: srtBlocks (S number) rest
  end.

(** The times whose ISO year has four digits: from 0000-01-01T00:00:00Z
    up to, and not including, 10000-01-01T00:00:00Z. *)
Definition fourDigitYear (seconds : Q) : Prop :=
  -62167219200 <= seconds /\ seconds < 253402300800.

(** The captions [generateSRT] prints with timestamps of that form. *)
Definition printable (sub : Subtitle) : Prop :=
  fourDigitYear (start sub) /\ fourDigitYear (end_ sub).

(** Ascending order of start. *)
Definition startsBefore (a b : Subtitle) : Prop := start a <= start b.

(** ** Further parts of the program *)

(** [hitType === 'body']. *)
Definition isHitBody (h : HitType) : bool :=
  match h with HitBody => true | _ => false end.

(** The iteration scheme of the peak-sampling loop,
    [for (j = safeStart; j < safeEnd; j += stride)], over any loop body. *)
Fixpoint strideLoop {A : Type} (fuel : nat) (body : Z -> A -> A)
  (safeEnd stride j : Z) (acc : A) : A :=
  match fuel with
  | O => acc
  | S fuel' =>
      if (j <? safeEnd)%Z
      then strideLoop fuel' body safeEnd stride (j + stride)%Z (body j acc)
      else acc
  end.

(** How many samples the peak sampling of one bucket reads. *)
Definition samplesRead (safeStart safeEnd : Z) : nat :=
  let stride := Z.max 1 ((safeEnd - safeStart) / 40) in
  strideLoop (Z.to_nat (safeEnd - safeStart)) (fun _ n => S n)
             safeEnd stride safeStart O.

(** ** The live preview overlay ([App.tsx]) *)

(** The subtitle overlay [div]: its text, and whether it is displayed
    ([display: block]) or hidden ([display: none]). *)
Record Overlay : Type := mkOverlay {
  innerText : string;
  displayed : bool
}.

(** One pass of [updateOverlay]: the overlay after it.  The caption is
    looked up with the predicate [renderFrame] uses,
    [time >= s.start && time <= s.end]. *)
Definition updateOverlay (video : option Video) (overlay : option Overlay)
  (subs : list Subtitle) : option Overlay :=
  match video, overlay with
  | Some video, Some overlay =>
      let time := currentTime video in
      match find (activeAt time) subs with
      | Some currentSub => Some (mkOverlay (text currentSub) true)
      | None => Some (mkOverlay (innerText overlay) false)
      end
  | _, _ => overlay
  end.

(** ** The export dialog ([App.tsx]) *)

(** The export state together with [isExportingVideo] and the downloads
    triggered so far (their file extensions, latest first). *)
Record ExportDialog : Type := mkExportDialog {
  isExportingVideo : bool;
  exportState : Export;
  downloads : list string
}.

(** [handleExportVideo]: open the dialog. *)
Definition handleExportVideo (ui : ExportDialog) : ExportDialog :=
  let app := exportState ui in
  match videoSrc app with
  | Some src =>
      if negb (truthy src) then ui
      else
        let paused_ :=
          match exportVideo app with
          | Some video => (Some (pauseVideo video), volume video)
          | None => (None, previousVolume app)
          end in
        mkExportDialog true
          (mkExport Idle (fst paused_) (renderCanvas app) (videoSrc app)
                    (mutePreview app) (snd paused_) (subtitlesRef app)
                    (styleRef app) (mediaRecorder app) (alerts app) 0)
          (downloads ui)
  | None => ui
  end.

(** [startRendering] and [renderFrame] inside the dialog. *)
Definition dialogStart (browser : Browser) (ui : ExportDialog)
  : ExportDialog :=
  mkExportDialog (isExportingVideo ui) (startRendering browser (exportState ui))
                 (downloads ui).

Definition dialogFrame (ui : ExportDialog) : ExportDialog :=
  mkExportDialog (isExportingVideo ui) (renderFrame (exportState ui))
                 (downloads ui).

(** [video.pause(); video.volume = previousVolumeRef.current]. *)
Definition restoreVideo (app : Export) (video : Video) : Video :=
  mkVideo (currentTime video) true (ended video) (duration video)
          (previousVolume app) (videoWidth video) (videoHeight video).

(** [closeExport]: stop a recorder that is not inactive, pause the video,
    restore its volume, cancel the frame loop, close the dialog. *)
Definition closeExport (ui : ExportDialog) : ExportDialog :=
  let app := exportState ui in
  let recorder' :=
    match mediaRecorder app with
    | Some recorder =>
        Some (mkRecorder (mimeType recorder) (fileExtension recorder) false)
    | None => None
    end in
  mkExportDialog false
    (mkExport Idle (option_map (restoreVideo app) (exportVideo app))
              (renderCanvas app) (videoSrc app) (mutePreview app)
              (previousVolume app) (subtitlesRef app) (styleRef app)
              recorder' (alerts app) (exportProgress app))
    (downloads ui).

(** [recorder.onstop], the handler of the recorder's stop event: download
    the recording, pause the video, restore its volume, set the status to
    completed. *)
Definition recorderOnStop (ui : ExportDialog) : ExportDialog :=
  let app := exportState ui in
  match mediaRecorder app with
  | Some recorder =>
      mkExportDialog (isExportingVideo ui)
        (mkExport Completed (option_map (restoreVideo app) (exportVideo app))
                  (renderCanvas app) (videoSrc app) (mutePreview app)
                  (previousVolume app) (subtitlesRef app) (styleRef app)
                  (mediaRecorder app) (alerts app) (exportProgress app))
        (fileExtension recorder :: downloads ui)
  | None => ui
  end.

(** [n] frames of the render loop. *)
Fixpoint frames (n : nat) (ui : ExportDialog) : ExportDialog :=
  match n with
  | O => ui
  | S n' => frames n' (dialogFrame ui)
  end.

(** [closeExport] together with the stop event of the recorder: the
    browser fires it, after the handler has returned, when [stop()] was
    called on a recorder that was not inactive. *)
Definition closeExportAndStop (ui : ExportDialog) : ExportDialog :=
  match mediaRecorder (exportState ui) with
  | Some recorder =>
      if recording recorder then recorderOnStop (closeExport ui)
      else closeExport ui
  | None => closeExport ui
  end.

(** The video plays to its end: [video.ended] becomes true. *)
Definition videoEnds (app : Export) : Export :=
  mkExport (renderStatus app)
           (option_map
              (fun video =>
                 mkVideo (currentTime video) (paused video) true
                         (duration video) (volume video) (videoWidth video)
                         (videoHeight video))
              (exportVideo app))
           (renderCanvas app) (videoSrc app) (mutePreview app)
           (previousVolume app) (subtitlesRef app) (styleRef app)
           (mediaRecorder app) (alerts app) (exportProgress app).

(** ** More of the SRT writer *)


(** [s.start === start], as a test on captions. *)
Definition startsAt (q : Q) (sub : Subtitle) : bool := Qeq_bool (start sub) q.

(** ** The caption list of [App] ([App.tsx]) *)

(** The state the caption handlers of [App] read and set: [subtitles],
    [selectedSubId] and [textEditText]. *)
Record Captions : Type := mkCaptions {
  appSubtitles : list Subtitle;
  appSelectedSubId : option string;
  textEditText : string
}.

(** [addSubtitle]; [uuid] is the value of [crypto.randomUUID()]. *)
Definition addSubtitle (uuid : string) (video : option Video)
  (app : Captions) : Captions :=
  match video with
  | None => app
  | Some video =>
      let start := currentTime video in
      let newSub := mkSubtitle uuid start (start + 2.0) "New Subtitle" in
      mkCaptions (appSubtitles app ++ [newSub]) (Some (id newSub))
                 "New Subtitle"
  end.

(** [deleteSubtitle]. *)
Definition deleteSubtitle (id_ : string) (app : Captions) : Captions :=
  mkCaptions
    (filter (fun s => negb (String.eqb (id s) id_)) (appSubtitles app))
    (match appSelectedSubId app with
     | Some selected =>
         if String.eqb selected id_ then None else Some selected
     | None => None
     end)
    (textEditText app).

(** [handleTextChange]. *)
Definition handleTextChange (txt : string) (app : Captions) : Captions :=
  mkCaptions
    (map (fun s =>
            if isSelected s (appSelectedSubId app)
            then mkSubtitle (id s) (start s) (end_ s) txt
            else s)
         (appSubtitles app))
    (appSelectedSubId app)
    txt.

(** [subtitles.find(s => s.id === selectedSubId)]. *)
Definition selectedSub (app : Captions) : option Subtitle :=
  find (fun s => isSelected s (appSelectedSubId app)) (appSubtitles app).

(** The effect on [selectedSubId] and [subtitles]: the text box takes the
    text of the selected caption, when there is one. *)
Definition syncTextEdit (app : Captions) : Captions :=
  match selectedSub app with
  | Some sub =>
      mkCaptions (appSubtitles app) (appSelectedSubId app) (text sub)
  | None => app
  end.

(** [setSelectedSubId], as [onSelectSub] and the list call it. *)
Definition setSelectedSubId (selected : option string) (app : Captions)
  : Captions :=
  mkCaptions (appSubtitles app) selected (textEditText app).

(** The text box shows the text of the selected caption. *)
Definition textInSync (app : Captions) : Prop :=
  match selectedSub app with
  | Some sub => textEditText app = text sub
  | None => True
  end.

(** The zoom buttons: [z => Math.min(z * 1.5, 500)] and
    [z => Math.max(z / 1.5, 10)]. *)
Definition zoomIn (z : Q) : Q := Qmin (z * 1.5) 500.

Definition zoomOut (z : Q) : Q := Qmax (z / 1.5) 10.

Inductive ZoomClick : Type := ClickZoomIn | ClickZoomOut.

Definition zoomClick (click : ZoomClick) (z : Q) : Q :=
  match click with
  | ClickZoomIn => zoomIn z
  | ClickZoomOut => zoomOut z
  end.

(** The zoom level after a series of clicks, the first click first. *)
Definition zoomClicks (clicks : list ZoomClick) (z : Q) : Q :=
  fold_left (fun z click => zoomClick click z) clicks z.

(** ** The caption blocks of [draw] *)

(** The width of the handles [draw] paints, in pixels. *)
Definition handleWidth : Z := 4.

(** What [draw] paints for one caption: the rectangle filled and stroked
    at [blockX], [blockW] wide, the text clipped to it, the colours of a
    selected caption or not, and the left edges of the handle rectangles,
    each [handleWidth] wide. *)
Record Block : Type := mkBlock {
  blockId : string;
  blockX : Z;
  blockW : Z;
  blockText : string;
  blockSelected : bool;
  handles : list Z
}.

(** The callback of [subs.forEach]: [None] is the early [return] of a
    caption out of view. *)
Definition drawBlock (selected : option string) (width zoom currentTime : Q)
  (sub : Subtitle) : option Block :=
  let xStart := Qfloor (timeToX (start sub) currentTime width zoom) in
  let xEnd := Qfloor (timeToX (end_ sub) currentTime width zoom) in
  let subWidth := Z.max 2 (xEnd - xStart) in
  let isSelected_ := isSelected sub selected in
  if (xEnd <? 0)%Z || Qltb width (inject_Z xStart) then None
  else
    Some (mkBlock (id sub) xStart subWidth (text sub) isSelected_
                  (if isSelected_
                   then [xStart; (xEnd - handleWidth)%Z]
                   else [])).

(** The caption part of [draw]: the blocks painted, in painting order. *)
Definition drawSubtitles (selected : option string)
  (width zoom currentTime : Q) (subs : list Subtitle) : list Block :=
  flat_map (fun sub =>
              match drawBlock selected width zoom currentTime sub with
              | Some block => [block]
              | None => []
              end) subs.

(** [Math.floor(width / 2)], the pixel of the playhead. *)
Definition playheadX (width : Q) : Z := Qfloor (width / 2).

(** * Properties *)

(** ** Comparisons *)

Lemma Qltb_lt (a b : Q) : Qltb a b = true <-> a < b.
Proof.
  unfold Qltb. rewrite negb_true_iff, <- not_true_iff_false, Qle_bool_iff.
  split; [apply Qnot_le_lt | apply Qlt_not_le].
Qed.

Lemma Qltb_ge (a b : Q) : Qltb a b = false <-> b <= a.
Proof.
  unfold Qltb. rewrite negb_false_iff. apply Qle_bool_iff.
Qed.

Lemma Qle_bool_gt (a b : Q) : Qle_bool a b = false <-> b < a.
Proof.
  rewrite <- not_true_iff_false, Qle_bool_iff.
  split; [apply Qnot_le_lt | apply Qlt_not_le].
Qed.

(** ** The time/pixel mapper *)

(** C5. At a positive zoom the two mappers are inverse to each other:
    xToTime(timeToX(t, vp), vp) = t for every time t, centre time and width
    (and timeToX(xToTime(x, vp), vp) = x for every pixel x). *)
Theorem C5_mapper_roundtrip (t x centerTime width zoom : Q) :
  0 < zoom ->
  xToTime (timeToX t centerTime width zoom) centerTime width zoom == t
  /\ timeToX (xToTime x centerTime width zoom) centerTime width zoom == x.
Proof.
  intros Hzoom. unfold xToTime, timeToX.
  assert (Hnz : ~ zoom == 0) by (intros E; rewrite E in Hzoom; lra).
  split; field; exact Hnz.
Qed.

Lemma C5_mapper_roundtrip_witness :
  0 < 50
  /\ xToTime (timeToX 11.9 11 1000 50) 11 1000 50 == 11.9
  /\ timeToX (xToTime 545 11 1000 50) 11 1000 50 == 545.
Proof.
  split; [reflexivity |].
  apply (C5_mapper_roundtrip 11.9 545 11 1000 50). reflexivity.
Defined.

(** ** Hit testing on pointer-down *)

Lemma inBody_iff t sub :
  inBody t sub = true <-> start sub <= t /\ t <= end_ sub.
Proof.
  unfold inBody. now rewrite andb_true_iff, !Qle_bool_iff.
Qed.

Lemma inExpanded_iff t h sub :
  inExpanded t h sub = true <-> start sub - h <= t /\ t <= end_ sub + h.
Proof.
  unfold inExpanded. now rewrite andb_true_iff, !Qle_bool_iff.
Qed.

(** With a non-negative margin the expanded interval contains the body. *)
Lemma inBody_inExpanded t h sub :
  0 <= h -> inBody t sub = true -> inExpanded t h sub = true.
Proof.
  rewrite inBody_iff, inExpanded_iff. intros Hh [H1 H2]. split; lra.
Qed.

Lemma hitOne_no_handle selected t h sub :
  0 <= h ->
  (isSelected sub selected = true -> inExpanded t h sub = true ->
   handleHit t h sub = HitNone) ->
  hitOne selected t h sub
  = if inBody t sub then Some (id sub, HitBody) else None.
Proof.
  intros Hh Hno. unfold hitOne.
  destruct (inExpanded t h sub) eqn:Hexp.
  - destruct (isSelected sub selected); [rewrite Hno by reflexivity |];
      reflexivity.
  - destruct (inBody t sub) eqn:Hbody; [| reflexivity].
    apply (inBody_inExpanded t h sub Hh) in Hbody. congruence.
Qed.

Lemma hitLoop_no_handle selected t h visit :
  0 <= h -> noHandleHit selected t h visit ->
  hitLoop selected t h visit
  = option_map (fun sub => (id sub, HitBody)) (find (inBody t) visit).
Proof.
  intros Hh. induction visit as [| sub rest IH]; intros Hno; [reflexivity |].
  cbn [hitLoop find].
  rewrite hitOne_no_handle; [| exact Hh | apply Hno; now left].
  destruct (inBody t sub); [reflexivity |].
  apply IH. intros s Hin. apply Hno. now right.
Qed.

(** A hit names a caption of the collection, so [find] by that id
    succeeds. *)
Lemma hitLoop_In selected t h visit hid ty :
  hitLoop selected t h visit = Some (hid, ty) ->
  ty <> HitNone /\ exists sub, In sub visit /\ id sub = hid.
Proof.
  induction visit as [| sub rest IH]; [discriminate |].
  cbn [hitLoop]. destruct (hitOne selected t h sub) as [[hid' ty'] |] eqn:Hone.
  - intros [= -> ->]. unfold hitOne in Hone.
    destruct (inExpanded t h sub); [| discriminate].
    destruct (if isSelected sub selected then handleHit t h sub else HitNone);
      try destruct (inBody t sub); try discriminate;
      injection Hone as <- <-; (split; [discriminate |]);
      exists sub; split; auto; now left.
  - intros H. destruct (IH H) as [Hty (s & Hin & Hid)].
    split; [exact Hty |]. exists s. split; [now right | exact Hid].
Qed.

Lemma find_id_In hid (subs : list Subtitle) :
  (exists sub, In sub subs /\ id sub = hid) ->
  exists sub, find (fun s => String.eqb (id s) hid) subs = Some sub
              /\ id sub = hid.
Proof.
  intros (sub & Hin & Hid).
  destruct (find (fun s => String.eqb (id s) hid) subs) as [s |] eqn:Hfind.
  - exists s. split; [reflexivity |].
    apply find_some in Hfind. now apply String.eqb_eq.
  - apply (find_none _ _ Hfind) in Hin. cbv beta in Hin.
    rewrite Hid, String.eqb_refl in Hin. discriminate.
Qed.

Lemma hitTest_find selected t h subs hid ty :
  hitTest selected t h subs = Some (hid, ty) ->
  ty <> HitNone
  /\ exists sub, find (fun s => String.eqb (id s) hid) subs = Some sub
                 /\ id sub = hid.
Proof.
  unfold hitTest. intros H. apply hitLoop_In in H as [Hty (s & Hin & Hid)].
  split; [exact Hty |]. apply find_id_In. exists s.
  split; [now apply in_rev | exact Hid].
Qed.

Lemma noHandleHit_rev selected t h subs :
  noHandleHit selected t h subs -> noHandleHit selected t h (rev subs).
Proof.
  intros Hno sub Hin. apply Hno. now apply in_rev.
Qed.

Lemma handleTimeWidth_nonneg zoom : 0 < zoom -> 0 <= handleHitWidth / zoom.
Proof.
  intros Hzoom. apply Qle_shift_div_l; [exact Hzoom |].
  unfold handleHitWidth. lra.
Qed.

(** C6 (amended). On pointer-down at a positive zoom, when no resize handle
    of the selected caption is hit, a pointer whose time lies within some
    caption's own [start, end] (the margin is not applied to the body)
    enters move mode on the last such caption in list order and selects it;
    a pointer whose time lies within no caption's [start, end] enters scrub
    mode and clears the selection. *)
Theorem C6_pointer_down_body_or_scrub
  (ed : Editor) (canvas : Canvas) (video : Video) (clientX : Q) :
  let st := stateRef ed in
  let t := xToTime (clientX - rectLeft canvas) (currentTime video)
                   (width canvas) (zoomLevel st) in
  let h := handleHitWidth / zoomLevel st in
  let ed' := handlePointerDown clientX ed in
  canvasRef ed = Some canvas ->
  videoRef ed = Some video ->
  0 < zoomLevel st ->
  (forall sub, In sub (subtitles st) -> truthy (id sub) = true) ->
  (forall s, selectedSubId ed = Some s -> truthy s = true) ->
  noHandleHit (selectedSubId ed) t h (subtitles st) ->
  isDragging (stateRef ed') = true
  /\ match find (inBody t) (rev (subtitles st)) with
     | Some sub =>
         dragMode (stateRef ed') = MoveSub
         /\ dragTargetId (stateRef ed') = Some (id sub)
         /\ selectedSubId ed' = Some (id sub)
     | None =>
         dragMode (stateRef ed') = Scrub /\ selectedSubId ed' = None
     end.
Proof.
  intros st t h ed' Hc Hv Hzoom Hids Hsel Hno.
  subst ed'. unfold handlePointerDown. rewrite Hc, Hv. cbv zeta.
  fold st. fold t. fold h. unfold hitTest.
  rewrite hitLoop_no_handle;
    [| now apply handleTimeWidth_nonneg | now apply noHandleHit_rev].
  destruct (find (inBody t) (rev (subtitles st))) as [sub |] eqn:Hfind;
    cbn [option_map].
  - apply find_some in Hfind as [Hin _]. apply in_rev in Hin.
    rewrite (Hids sub Hin). cbn [isHitNone negb andb].
    destruct (find_id_In (id sub) (subtitles st)) as (s0 & -> & _).
    { now exists sub. }
    cbn. auto.
  - cbn. split; [reflexivity |]. split; [reflexivity |].
    destruct (selectedSubId ed) as [s |] eqn:Es; [| reflexivity].
    now rewrite (Hsel s eq_refl).
Qed.

Lemma C6_pointer_down_body_or_scrub_witness :
  let ed' := handlePointerDown 500 (scenarioEditor None) in
  xToTime (500 - 0) 11 1000 50 == 11
  /\ isDragging (stateRef ed') = true
  /\ dragMode (stateRef ed') = MoveSub
  /\ dragTargetId (stateRef ed') = Some "a"%string
  /\ selectedSubId ed' = Some "a"%string.
Proof.
  cbv zeta. split; [reflexivity |].
  apply (C6_pointer_down_body_or_scrub (scenarioEditor None)
           (mkCanvas 1000 0) (mkVideo 11 true false 60 1 1920 1080) 500
           eq_refl eq_refl eq_refl).
  - intros sub [<- | []]. reflexivity.
  - discriminate.
  - intros sub _ Hsel. discriminate Hsel.
Defined.

(** C6 as stated fails: at zoom 50 the margin is 10/50 = 0.2 s, and a
    pointer at t = 12.1 lies within [10 - 0.2, 12 + 0.2] of the unselected
    caption {start:10, end:12}; no handle is hit, yet the editor enters
    scrub mode with nothing selected instead of moving that caption. *)
Lemma C6_margin_counterexample :
  let ed := scenarioEditor None in
  let t := xToTime (555 - 0) 11 1000 50 in
  let h := handleHitWidth / 50 in
  t == 12.1
  /\ inExpanded t h (mkSubtitle "a" 10 12 "hi") = true
  /\ noHandleHit (selectedSubId ed) t h (subtitles (stateRef ed))
  /\ dragMode (stateRef (handlePointerDown 555 ed)) = Scrub
  /\ dragTargetId (stateRef (handlePointerDown 555 ed)) = None
  /\ selectedSubId (handlePointerDown 555 ed) = None.
Proof.
  cbv zeta. repeat split. intros sub _ Hsel. discriminate Hsel.
Qed.

(** ** The pointer-move handler *)

Lemma dragUpdate_other mode target os oe dt sub :
  id sub <> target -> dragUpdate mode target os oe dt sub = sub.
Proof.
  intros Hne. unfold dragUpdate.
  apply String.eqb_neq in Hne. now rewrite Hne.
Qed.

Lemma dragUpdate_id mode target os oe dt sub :
  id (dragUpdate mode target os oe dt sub) = id sub.
Proof.
  unfold dragUpdate.
  destruct (String.eqb (id sub) target); [destruct mode |]; reflexivity.
Qed.

Lemma dragUpdate_text mode target os oe dt sub :
  text (dragUpdate mode target os oe dt sub) = text sub.
Proof.
  unfold dragUpdate.
  destruct (String.eqb (id sub) target); [destruct mode |]; reflexivity.
Qed.

Lemma dragUpdate_move target os oe dt sub :
  id sub = target ->
  let newStart := Qmax 0 (os + dt) in
  dragUpdate MoveSub target os oe dt sub
  = mkSubtitle (id sub) newStart (Qmax (newStart + 0.1) (oe + dt)) (text sub).
Proof.
  intros <-. unfold dragUpdate. now rewrite String.eqb_refl.
Qed.

Lemma dragUpdate_resize_left target os oe dt sub :
  id sub = target ->
  dragUpdate ResizeLeft target os oe dt sub
  = mkSubtitle (id sub) (Qmin (Qmax 0 (os + dt)) (oe - 0.2)) (end_ sub)
               (text sub).
Proof.
  intros <-. unfold dragUpdate. now rewrite String.eqb_refl.
Qed.

Lemma dragUpdate_resize_right target os oe dt sub :
  id sub = target ->
  dragUpdate ResizeRight target os oe dt sub
  = mkSubtitle (id sub) (start sub) (Qmax (os + 0.2) (oe + dt)) (text sub).
Proof.
  intros <-. unfold dragUpdate. now rewrite String.eqb_refl.
Qed.

Lemma dragUpdate_resize_left_end target os oe dt sub :
  end_ (dragUpdate ResizeLeft target os oe dt sub) = end_ sub.
Proof.
  unfold dragUpdate. now destruct (String.eqb (id sub) target).
Qed.

Lemma dragUpdate_resize_right_start target os oe dt sub :
  start (dragUpdate ResizeRight target os oe dt sub) = start sub.
Proof.
  unfold dragUpdate. now destruct (String.eqb (id sub) target).
Qed.

Lemma dragUpdate_fixedPart mode target os oe dt sub :
  fixedPart mode (dragUpdate mode target os oe dt sub) = fixedPart mode sub.
Proof.
  unfold fixedPart.
  rewrite dragUpdate_id, dragUpdate_text.
  destruct mode; try reflexivity.
  - now rewrite dragUpdate_resize_left_end.
  - now rewrite dragUpdate_resize_right_start.
Qed.

(** Whatever the state, a pointer-move either leaves the captions alone or
    maps [dragUpdate] over them, for the drag target and from the
    snapshot. *)
Lemma handlePointerMove_subtitles clientX ed :
  let st := stateRef ed in
  subtitles (stateRef (handlePointerMove clientX ed)) = subtitles st
  \/ exists target dt,
       dragTargetId st = Some target
       /\ subtitles (stateRef (handlePointerMove clientX ed))
          = map (dragUpdate (dragMode st) target (dragOriginalStart st)
                            (dragOriginalEnd st) dt) (subtitles st).
Proof.
  unfold handlePointerMove. cbv zeta.
  destruct (isDragging (stateRef ed)); [| now left].
  destruct (videoRef ed) as [video |]; [| now left].
  destruct (canvasRef ed) as [canvas |]; [| now left].
  destruct (dragMode (stateRef ed)) eqn:Hmode; try now left.
  all: destruct (dragTargetId (stateRef ed)) as [target |]; [| now left].
  all: destruct (truthy target); [| now left].
  all: right; exists target;
    exists ((clientX - rectLeft canvas - dragStartX (stateRef ed))
            / zoomLevel (stateRef ed));
    split; reflexivity.
Qed.

(** A pointer-move leaves the drag session as it found it. *)
Lemma handlePointerMove_session clientX ed :
  session (handlePointerMove clientX ed) = session ed.
Proof.
  destruct ed as [[subs zoom dragging mode target sx stime os oe playing]
                    [video |] [canvas |] selected log];
    unfold handlePointerMove, session; cbn;
    destruct dragging; try reflexivity;
    destruct mode; try reflexivity;
    destruct target as [target |]; try reflexivity;
    destruct (truthy target); reflexivity.
Qed.

Lemma handlePointerMove_fixedPart clientX ed :
  map (fixedPart (dragMode (stateRef ed)))
      (subtitles (stateRef (handlePointerMove clientX ed)))
  = map (fixedPart (dragMode (stateRef ed))) (subtitles (stateRef ed)).
Proof.
  destruct (handlePointerMove_subtitles clientX ed)
    as [-> | (target & dt & _ & ->)]; [reflexivity |].
  rewrite map_map. apply map_ext. intros sub. apply dragUpdate_fixedPart.
Qed.

Section PointerMove.

Variables (ed : Editor) (video : Video) (canvas : Canvas) (target : string).
Variable clientX : Q.

Let st := stateRef ed.
Let os := dragOriginalStart st.
Let oe := dragOriginalEnd st.
Let dt := (clientX - rectLeft canvas - dragStartX st) / zoomLevel st.
Let subs' := subtitles (stateRef (handlePointerMove clientX ed)).

Hypothesis Hdragging : isDragging st = true.
Hypothesis Hvideo : videoRef ed = Some video.
Hypothesis Hcanvas : canvasRef ed = Some canvas.
Hypothesis Htarget : dragTargetId st = Some target.
Hypothesis Htruthy : truthy target = true.

(** Outside scrub mode, a pointer-move of a live drag session maps
    [dragUpdate] over the captions and emits the result. *)
Lemma handlePointerMove_updates :
  dragMode st <> Scrub ->
  let updatedSubs := map (dragUpdate (dragMode st) target os oe dt)
                         (subtitles st) in
  subs' = updatedSubs
  /\ emitted (handlePointerMove clientX ed) = updatedSubs :: emitted ed.
Proof.
  intros Hmode. subst subs'. unfold handlePointerMove. fold st.
  rewrite Hdragging, Hvideo, Hcanvas, Htarget, Htruthy.
  subst dt os oe. destruct (dragMode st); try contradiction; split; reflexivity.
Qed.

Lemma move_nth i sub :
  dragMode st = MoveSub ->
  nth_error (subtitles st) i = Some sub -> id sub = target ->
  nth_error subs' i
  = Some (mkSubtitle (id sub) (Qmax 0 (os + dt))
                     (Qmax (Qmax 0 (os + dt) + 0.1) (oe + dt)) (text sub)).
Proof.
  intros Hmode Hnth Hid.
  destruct handlePointerMove_updates as [-> _];
    [rewrite Hmode; discriminate |].
  rewrite Hmode, nth_error_map, Hnth. cbn [option_map].
  now rewrite dragUpdate_move.
Qed.

Lemma resize_left_nth i sub :
  dragMode st = ResizeLeft ->
  nth_error (subtitles st) i = Some sub -> id sub = target ->
  nth_error subs' i
  = Some (mkSubtitle (id sub) (Qmin (Qmax 0 (os + dt)) (oe - 0.2)) (end_ sub)
                     (text sub)).
Proof.
  intros Hmode Hnth Hid.
  destruct handlePointerMove_updates as [-> _];
    [rewrite Hmode; discriminate |].
  rewrite Hmode, nth_error_map, Hnth. cbn [option_map].
  now rewrite dragUpdate_resize_left.
Qed.

Lemma resize_right_nth i sub :
  dragMode st = ResizeRight ->
  nth_error (subtitles st) i = Some sub -> id sub = target ->
  nth_error subs' i
  = Some (mkSubtitle (id sub) (start sub) (Qmax (os + 0.2) (oe + dt))
                     (text sub)).
Proof.
  intros Hmode Hnth Hid.
  destruct handlePointerMove_updates as [-> _];
    [rewrite Hmode; discriminate |].
  rewrite Hmode, nth_error_map, Hnth. cbn [option_map].
  now rewrite dragUpdate_resize_right.
Qed.

End PointerMove.

(** ** A whole drag: pointer-down, then pointer-moves *)

Lemma run_drag x0 xs ed :
  run (PointerDown x0 :: map PointerMove xs) ed
  = moves xs (handlePointerDown x0 ed).
Proof.
  unfold run, moves. cbn [fold_left handle].
  generalize (handlePointerDown x0 ed). clear ed.
  induction xs as [| x xs IH]; intros ed; [reflexivity |].
  cbn [map fold_left handle]. apply IH.
Qed.

Lemma moves_snoc xs x ed :
  moves (xs ++ [x]) ed = handlePointerMove x (moves xs ed).
Proof. unfold moves. rewrite fold_left_app. reflexivity. Qed.

Lemma moves_session xs : forall ed, session (moves xs ed) = session ed.
Proof.
  induction xs as [| x xs IH]; intros ed; [reflexivity |].
  cbn [moves fold_left]. fold (moves xs (handlePointerMove x ed)).
  now rewrite IH, handlePointerMove_session.
Qed.

Lemma moves_fixedPart xs : forall ed,
  map (fixedPart (dragMode (stateRef ed))) (subtitles (stateRef (moves xs ed)))
  = map (fixedPart (dragMode (stateRef ed))) (subtitles (stateRef ed)).
Proof.
  induction xs as [| x xs IH]; intros ed; [reflexivity |].
  cbn [moves fold_left]. fold (moves xs (handlePointerMove x ed)).
  pose proof (handlePointerMove_session x ed) as Hs.
  apply (f_equal sessionMode) in Hs. cbn in Hs.
  rewrite <- Hs at 1. rewrite IH, Hs. apply handlePointerMove_fixedPart.
Qed.

Lemma moves_nth xs ed i sub :
  nth_error (subtitles (stateRef ed)) i = Some sub ->
  exists sub2,
    nth_error (subtitles (stateRef (moves xs ed))) i = Some sub2
    /\ fixedPart (dragMode (stateRef ed)) sub2
       = fixedPart (dragMode (stateRef ed)) sub.
Proof.
  intros Hnth.
  pose proof (f_equal (fun l => nth_error l i) (moves_fixedPart xs ed)) as H.
  cbv beta in H. rewrite !nth_error_map, Hnth in H.
  destruct (nth_error (subtitles (stateRef (moves xs ed))) i) as [sub2 |];
    [| discriminate].
  exists sub2. split; [reflexivity |].
  cbn [option_map] in H. congruence.
Qed.

(** A pointer-down that hits a caption opens a drag session on it: the
    snapshot is the start and end of the caption of that id, the start
    abscissa is the pointer's, the caption is selected and playback is
    paused. *)
Lemma handlePointerDown_hit ed canvas video clientX hitSubId hitType :
  let st := stateRef ed in
  let x := clientX - rectLeft canvas in
  let t := xToTime x (currentTime video) (width canvas) (zoomLevel st) in
  canvasRef ed = Some canvas ->
  videoRef ed = Some video ->
  hitTest (selectedSubId ed) t (handleHitWidth / zoomLevel st) (subtitles st)
  = Some (hitSubId, hitType) ->
  truthy hitSubId = true ->
  exists sub,
    find (fun s => String.eqb (id s) hitSubId) (subtitles st) = Some sub
    /\ id sub = hitSubId
    /\ handlePointerDown clientX ed
       = mkEditor
           (mkStateRef (subtitles st) (zoomLevel st) true
                       (modeOfHit hitType (dragMode st)) (Some hitSubId) x
                       (currentTime video) (start sub) (end_ sub)
                       (isPlaying st))
           (Some (pauseVideo video)) (Some canvas) (Some hitSubId)
           (emitted ed).
Proof.
  intros st x t Hc Hv Hhit Htruthy.
  destruct (hitTest_find _ _ _ _ _ _ Hhit) as [Hty (sub & Hfind & Hid)].
  exists sub. split; [exact Hfind |]. split; [exact Hid |].
  unfold handlePointerDown. rewrite Hc, Hv. cbv zeta.
  fold st. fold x. fold t. rewrite Hhit, Htruthy.
  destruct hitType; [now contradiction Hty | | |];
    cbn [isHitNone negb andb]; rewrite Hfind; reflexivity.
Qed.

Section Drag.

Variables (ed : Editor) (canvas : Canvas) (target : string).
Variables (xs : list Q) (clientX : Q).

Let st := stateRef ed.
Let os := dragOriginalStart st.
Let oe := dragOriginalEnd st.
Let dt := (clientX - rectLeft canvas - dragStartX st) / zoomLevel st.
Let ed' := moves (xs ++ [clientX]) ed.

Hypothesis Hdragging : isDragging st = true.
Hypothesis Hvideo : videoRef ed <> None.
Hypothesis Hcanvas : canvasRef ed = Some canvas.
Hypothesis Htarget : dragTargetId st = Some target.
Hypothesis Htruthy : truthy target = true.

Variables (i : nat) (sub : Subtitle).
Hypothesis Hnth : nth_error (subtitles st) i = Some sub.
Hypothesis Hid : id sub = target.

(** Before its last pointer-move the drag is in the session it started in,
    and the caption at [i] has kept what the mode does not write. *)
Lemma drag_last_move :
  exists (ed2 : Editor) (video2 : Video) (sub2 : Subtitle),
    ed' = handlePointerMove clientX ed2
    /\ session ed2 = session ed
    /\ videoRef ed2 = Some video2
    /\ nth_error (subtitles (stateRef ed2)) i = Some sub2
    /\ fixedPart (dragMode st) sub2 = fixedPart (dragMode st) sub.
Proof.
  subst ed'. rewrite moves_snoc.
  destruct (moves_nth xs ed i sub Hnth) as (sub2 & Hnth2 & Hfixed).
  pose proof (moves_session xs ed) as Hs.
  destruct (videoRef (moves xs ed)) as [video2 |] eqn:Hv2.
  - exists (moves xs ed), video2, sub2. repeat split; assumption.
  - apply (f_equal sessionHasVideo) in Hs. cbn in Hs. rewrite Hv2 in Hs.
    destruct (videoRef ed); [discriminate | now contradiction Hvideo].
Qed.

(** The caption a drag leaves depends on the snapshot and on the last
    pointer position only. *)
Lemma drag_move :
  dragMode st = MoveSub ->
  nth_error (subtitles (stateRef ed')) i
  = Some (mkSubtitle (id sub) (Qmax 0 (os + dt))
                     (Qmax (Qmax 0 (os + dt) + 0.1) (oe + dt)) (text sub)).
Proof.
  intros Hmode.
  destruct drag_last_move as (ed2 & video2 & sub2 & -> & Hs & Hv2 & Hn2 & Hf).
  injection Hs as Hzoom Hdrag Hmode2 Htarget2 Hx Hos Hoe Hcanvas2 _.
  injection Hf as Hid2 Htext2 _.
  unfold os, oe, dt, st in *.
  rewrite (move_nth ed2 video2 canvas target clientX) with (sub := sub2);
    congruence.
Qed.

Lemma drag_resize_left :
  dragMode st = ResizeLeft ->
  nth_error (subtitles (stateRef ed')) i
  = Some (mkSubtitle (id sub) (Qmin (Qmax 0 (os + dt)) (oe - 0.2)) (end_ sub)
                     (text sub)).
Proof.
  intros Hmode.
  destruct drag_last_move as (ed2 & video2 & sub2 & -> & Hs & Hv2 & Hn2 & Hf).
  injection Hs as Hzoom Hdrag Hmode2 Htarget2 Hx Hos Hoe Hcanvas2 _.
  unfold os, oe, dt, st in *.
  rewrite Hmode in Hf. injection Hf as Hid2 Htext2 Hend2.
  rewrite (resize_left_nth ed2 video2 canvas target clientX)
    with (sub := sub2); congruence.
Qed.

Lemma drag_resize_right :
  dragMode st = ResizeRight ->
  nth_error (subtitles (stateRef ed')) i
  = Some (mkSubtitle (id sub) (start sub) (Qmax (os + 0.2) (oe + dt))
                     (text sub)).
Proof.
  intros Hmode.
  destruct drag_last_move as (ed2 & video2 & sub2 & -> & Hs & Hv2 & Hn2 & Hf).
  injection Hs as Hzoom Hdrag Hmode2 Htarget2 Hx Hos Hoe Hcanvas2 _.
  unfold os, oe, dt, st in *.
  rewrite Hmode in Hf. injection Hf as Hid2 Htext2 Hstart2.
  rewrite (resize_right_nth ed2 video2 canvas target clientX)
    with (sub := sub2); congruence.
Qed.

End Drag.

(** C1. For every move drag, with the snapshot (originalStart, originalEnd)
    taken at pointer-down and the pointer d pixels from where it went down
    at zoom z (dt = d/z), the pointer-move handler gives the target caption
    start = max(0, originalStart + dt) and
    end = max(start + 0.1, originalEnd + dt), whatever pointer-moves came
    before; the snapshot is the start and end of the caption whose body the
    pointer-down hit; and the caption {start:10, end:12} grabbed at t = 11
    and dragged by +100 px at zoom 50 px/s becomes {start:12, end:14}. *)
Theorem C1_move_drag :
  (forall (ed : Editor) (canvas : Canvas) (target : string)
          (xs : list Q) (clientX : Q),
      let st := stateRef ed in
      isDragging st = true ->
      videoRef ed <> None ->
      canvasRef ed = Some canvas ->
      dragMode st = MoveSub ->
      dragTargetId st = Some target ->
      truthy target = true ->
      0 < zoomLevel st ->
      let d := clientX - rectLeft canvas - dragStartX st in
      let dt := d / zoomLevel st in
      let newStart := Qmax 0 (dragOriginalStart st + dt) in
      let newEnd := Qmax (newStart + 0.1) (dragOriginalEnd st + dt) in
      forall (i : nat) (sub : Subtitle),
        nth_error (subtitles st) i = Some sub ->
        id sub = target ->
        exists sub',
          nth_error (subtitles (stateRef (moves (xs ++ [clientX]) ed))) i
          = Some sub'
          /\ start sub' = newStart /\ end_ sub' = newEnd)
  /\ (forall (ed : Editor) (canvas : Canvas) (video : Video) (target : string)
             (x0 : Q) (xs : list Q) (clientX : Q),
         let st := stateRef ed in
         let t := xToTime (x0 - rectLeft canvas) (currentTime video)
                          (width canvas) (zoomLevel st) in
         canvasRef ed = Some canvas ->
         videoRef ed = Some video ->
         0 < zoomLevel st ->
         hitTest (selectedSubId ed) t (handleHitWidth / zoomLevel st)
                 (subtitles st)
         = Some (target, HitBody) ->
         truthy target = true ->
         exists snapshot,
           find (fun s => String.eqb (id s) target) (subtitles st)
           = Some snapshot
           /\ let d := clientX - rectLeft canvas - (x0 - rectLeft canvas) in
              let dt := d / zoomLevel st in
              let newStart := Qmax 0 (start snapshot + dt) in
              let newEnd := Qmax (newStart + 0.1) (end_ snapshot + dt) in
              forall (i : nat) (sub : Subtitle),
                nth_error (subtitles st) i = Some sub ->
                id sub = target ->
                exists sub',
                  nth_error
                    (subtitles
                       (stateRef
                          (run (PointerDown x0
                                  :: map PointerMove (xs ++ [clientX])) ed)))
                    i
                  = Some sub'
                  /\ start sub' = newStart /\ end_ sub' = newEnd)
  /\ normalized
       (subtitles
          (stateRef (run [PointerDown 500; PointerMove 600; PointerUp]
                         (scenarioEditor None))))
     = [mkSubtitle "a" 12 14 "hi"].
Proof.
  split; [| split; [| reflexivity]].
  - intros ed canvas target xs clientX st Hd Hv Hc Hm Ht Hy _ d dt newStart
           newEnd i sub Hnth Hid.
    eexists. split.
    + apply (drag_move ed canvas target xs clientX Hd Hv Hc Ht Hy i sub Hnth
               Hid Hm).
    + split; reflexivity.
  - intros ed canvas video target x0 xs clientX st t Hc Hv _ Hhit Hy.
    destruct (handlePointerDown_hit ed canvas video x0 target HitBody
                Hc Hv Hhit Hy) as (snapshot & Hfind & _ & Hdown).
    exists snapshot. split; [exact Hfind |].
    intros d dt newStart newEnd i sub Hnth Hid.
    rewrite run_drag, Hdown.
    match goal with
    | |- context [moves _ ?e] => set (ed1 := e)
    end.
    assert (Hv1 : videoRef ed1 <> None) by discriminate.
    eexists. split.
    + apply (drag_move ed1 canvas target xs clientX eq_refl Hv1 eq_refl
               eq_refl Hy i sub Hnth Hid eq_refl).
    + split; reflexivity.
Qed.

Lemma C1_move_drag_witness :
  let ed := scenarioEditor None in
  hitTest (selectedSubId ed) (xToTime (500 - 0) 11 1000 50)
          (handleHitWidth / 50) (subtitles (stateRef ed))
  = Some ("a"%string, HitBody)
  /\ exists sub',
       nth_error
         (subtitles
            (stateRef (run (PointerDown 500 :: map PointerMove ([550] ++ [600]))
                           ed))) 0
       = Some sub'
       /\ start sub' == 12 /\ end_ sub' == 14.
Proof.
  cbv zeta. split; [reflexivity |].
  destruct (proj1 (proj2 C1_move_drag) (scenarioEditor None)
              (mkCanvas 1000 0) (mkVideo 11 true false 60 1 1920 1080)
              "a"%string 500 [550] 600 eq_refl eq_refl eq_refl eq_refl
              eq_refl)
    as (snapshot & Hfind & Hdrag).
  injection Hfind as <-.
  destruct (Hdrag 0%nat (mkSubtitle "a" 10 12 "hi") eq_refl eq_refl)
    as (sub' & Hnth & Hstart & Hend).
  exists sub'. split; [exact Hnth |].
  rewrite Hend, Hstart. split; reflexivity.
Defined.

(** C2. During a resize drag the moved edge is computed from the drag-start
    snapshot and kept 0.2 s away from the fixed opposite edge, whatever
    pointer-moves came before: resize-left gives
    start = min(max(0, originalStart + dt), originalEnd - 0.2) and leaves
    the end alone, resize-right gives
    end = max(originalStart + 0.2, originalEnd + dt) and leaves the start
    alone; the snapshot is the start and end of the caption whose handle the
    pointer-down hit; and dragging the right handle of {start:10, end:12}
    from t = 12.0 to t = 11.9 yields end = 11.9. *)
Theorem C2_resize_drag :
  (forall (ed : Editor) (canvas : Canvas) (target : string)
          (xs : list Q) (clientX : Q),
      let st := stateRef ed in
      isDragging st = true ->
      videoRef ed <> None ->
      canvasRef ed = Some canvas ->
      dragTargetId st = Some target ->
      truthy target = true ->
      0 < zoomLevel st ->
      let d := clientX - rectLeft canvas - dragStartX st in
      let dt := d / zoomLevel st in
      let os := dragOriginalStart st in
      let oe := dragOriginalEnd st in
      forall (i : nat) (sub : Subtitle),
        nth_error (subtitles st) i = Some sub ->
        id sub = target ->
        exists sub',
          nth_error (subtitles (stateRef (moves (xs ++ [clientX]) ed))) i
          = Some sub'
          /\ (dragMode st = ResizeLeft ->
              start sub' = Qmin (Qmax 0 (os + dt)) (oe - 0.2)
              /\ end_ sub' = end_ sub
              /\ start sub' <= oe - 0.2)
          /\ (dragMode st = ResizeRight ->
              end_ sub' = Qmax (os + 0.2) (oe + dt)
              /\ start sub' = start sub
              /\ os + 0.2 <= end_ sub'))
  /\ (forall (ed : Editor) (canvas : Canvas) (video : Video) (target : string)
             (hitType : HitType) (x0 : Q) (xs : list Q) (clientX : Q),
         let st := stateRef ed in
         let t := xToTime (x0 - rectLeft canvas) (currentTime video)
                          (width canvas) (zoomLevel st) in
         canvasRef ed = Some canvas ->
         videoRef ed = Some video ->
         0 < zoomLevel st ->
         hitTest (selectedSubId ed) t (handleHitWidth / zoomLevel st)
                 (subtitles st)
         = Some (target, hitType) ->
         truthy target = true ->
         exists snapshot,
           find (fun s => String.eqb (id s) target) (subtitles st)
           = Some snapshot
           /\ let d := clientX - rectLeft canvas - (x0 - rectLeft canvas) in
              let dt := d / zoomLevel st in
              forall (i : nat) (sub : Subtitle),
                nth_error (subtitles st) i = Some sub ->
                id sub = target ->
                exists sub',
                  nth_error
                    (subtitles
                       (stateRef
                          (run (PointerDown x0
                                  :: map PointerMove (xs ++ [clientX])) ed)))
                    i
                  = Some sub'
                  /\ (hitType = HitLeft ->
                      start sub'
                      = Qmin (Qmax 0 (start snapshot + dt))
                             (end_ snapshot - 0.2)
                      /\ end_ sub' = end_ sub)
                  /\ (hitType = HitRight ->
                      end_ sub'
                      = Qmax (start snapshot + 0.2) (end_ snapshot + dt)
                      /\ start sub' = start sub))
  /\ normalized
       (subtitles
          (stateRef (run [PointerDown 550; PointerMove 545; PointerUp]
                         (scenarioEditor (Some "a"%string)))))
     = [mkSubtitle "a" 10 11.9 "hi"].
Proof.
  split; [| split; [| reflexivity]].
  - intros ed canvas target xs clientX st Hd Hv Hc Ht Hy _ d dt os oe i sub
           Hnth Hid.
    destruct (drag_last_move ed xs clientX Hv i sub Hnth)
      as (ed2 & video2 & sub2 & Hlast & _ & _ & Hnth2 & _).
    destruct (nth_error (subtitles (stateRef (moves (xs ++ [clientX]) ed))) i)
      as [sub' |] eqn:Hnth'.
    + exists sub'. split; [reflexivity |]. split; intros Hm.
      * rewrite (drag_resize_left ed canvas target xs clientX Hd Hv Hc Ht Hy
                   i sub Hnth Hid Hm) in Hnth'.
        injection Hnth' as <-. cbn [start end_].
        repeat split. apply Q.le_min_r.
      * rewrite (drag_resize_right ed canvas target xs clientX Hd Hv Hc Ht Hy
                   i sub Hnth Hid Hm) in Hnth'.
        injection Hnth' as <-. cbn [start end_].
        repeat split. apply Q.le_max_l.
    + exfalso. rewrite Hlast in Hnth'.
      pose proof (f_equal (fun l => nth_error l i)
                    (handlePointerMove_fixedPart clientX ed2)) as H.
      cbv beta in H. rewrite !nth_error_map, Hnth2, Hnth' in H.
      discriminate.
  - intros ed canvas video target hitType x0 xs clientX st t Hc Hv _ Hhit Hy.
    destruct (handlePointerDown_hit ed canvas video x0 target hitType
                Hc Hv Hhit Hy) as (snapshot & Hfind & _ & Hdown).
    exists snapshot. split; [exact Hfind |].
    intros d dt i sub Hnth Hid.
    rewrite run_drag, Hdown.
    match goal with
    | |- context [moves _ ?e] => set (ed1 := e)
    end.
    assert (Hv1 : videoRef ed1 <> None) by discriminate.
    destruct hitType.
    + exists sub.
      destruct (hitTest_find _ _ _ _ _ _ Hhit) as [Hty _].
      now contradiction Hty.
    + destruct (moves_nth (xs ++ [clientX]) ed1 i sub Hnth)
        as (sub' & Hnth' & _).
      exists sub'. split; [exact Hnth' |]. split; discriminate.
    + eexists. split.
      * apply (drag_resize_left ed1 canvas target xs clientX eq_refl Hv1
                 eq_refl eq_refl Hy i sub Hnth Hid eq_refl).
      * split; [| discriminate]. intros _. split; reflexivity.
    + eexists. split.
      * apply (drag_resize_right ed1 canvas target xs clientX eq_refl Hv1
                 eq_refl eq_refl Hy i sub Hnth Hid eq_refl).
      * split; [discriminate |]. intros _. split; reflexivity.
Qed.

Lemma C2_resize_drag_witness :
  let ed := scenarioEditor (Some "a"%string) in
  hitTest (selectedSubId ed) (xToTime (550 - 0) 11 1000 50)
          (handleHitWidth / 50) (subtitles (stateRef ed))
  = Some ("a"%string, HitRight)
  /\ exists sub',
       nth_error
         (subtitles
            (stateRef (run (PointerDown 550 :: map PointerMove ([] ++ [545]))
                           ed))) 0
       = Some sub'
       /\ end_ sub' == 11.9 /\ start sub' == 10.
Proof.
  cbv zeta. split; [reflexivity |].
  destruct (proj1 (proj2 C2_resize_drag) (scenarioEditor (Some "a"%string))
              (mkCanvas 1000 0) (mkVideo 11 true false 60 1 1920 1080)
              "a"%string HitRight 550 [] 545 eq_refl eq_refl eq_refl eq_refl
              eq_refl)
    as (snapshot & Hfind & Hdrag).
  injection Hfind as <-.
  destruct (Hdrag 0%nat (mkSubtitle "a" 10 12 "hi") eq_refl eq_refl)
    as (sub' & Hnth & _ & Hright).
  exists sub'. split; [exact Hnth |].
  destruct (Hright eq_refl) as [-> ->]. split; reflexivity.
Defined.

(** C10. A pointer-move changes nothing of the captions but the start and
    end of the drag target: the collection keeps its length, every caption
    keeps its position, id and text, and a caption whose id is not the drag
    target's is returned as it was. *)
Theorem C10_move_frame (ed : Editor) (clientX : Q) :
  let subs := subtitles (stateRef ed) in
  let subs' := subtitles (stateRef (handlePointerMove clientX ed)) in
  List.length subs' = List.length subs
  /\ forall (i : nat) (sub : Subtitle),
       nth_error subs i = Some sub ->
       exists sub',
         nth_error subs' i = Some sub'
         /\ id sub' = id sub
         /\ text sub' = text sub
         /\ (dragTargetId (stateRef ed) <> Some (id sub) -> sub' = sub).
Proof.
  cbv zeta.
  destruct (handlePointerMove_subtitles clientX ed)
    as [-> | (target & dt & Htarget & ->)].
  - split; [reflexivity |]. intros i sub Hnth. exists sub. auto.
  - split; [apply List.length_map |]. intros i sub Hnth.
    eexists.
    rewrite nth_error_map, Hnth, dragUpdate_id, dragUpdate_text.
    repeat split. intros Hne. apply dragUpdate_other.
    intros <-. now apply Hne.
Qed.

Lemma C10_move_frame_witness :
  let ed := handlePointerDown 500 twoCaptionEditor in
  dragTargetId (stateRef ed) = Some "a"%string
  /\ exists sub',
       nth_error (subtitles (stateRef (handlePointerMove 600 ed))) 1
       = Some sub'
       /\ id sub' = "b"%string
       /\ text sub' = "yo"%string
       /\ (dragTargetId (stateRef ed) <> Some "b"%string ->
           sub' = mkSubtitle "b" 20 21 "yo").
Proof.
  cbv zeta. split; [reflexivity |].
  apply (proj2 (C10_move_frame (handlePointerDown 500 twoCaptionEditor) 600)
           1%nat (mkSubtitle "b" 20 21 "yo") eq_refl).
Defined.

(** ** What the clamps keep, and what resize-left does not *)

(** A move update leaves the target at a non-negative start and at least
    0.1 s long. *)
Lemma move_keeps_invariant target os oe dt sub :
  id sub = target ->
  let sub' := dragUpdate MoveSub target os oe dt sub in
  0 <= start sub' /\ 0.1 <= end_ sub' - start sub'.
Proof.
  intros Hid. cbv zeta. rewrite dragUpdate_move by exact Hid.
  cbn [start end_]. split.
  - apply Q.le_max_l.
  - pose proof (Q.le_max_l (Qmax 0 (os + dt) + 0.1) (oe + dt)). lra.
Qed.

(** A resize-right update leaves the start alone and the target at least
    0.2 s long when the snapshot start is the caption's. *)
Lemma resize_right_keeps_invariant target oe dt sub :
  id sub = target ->
  let sub' := dragUpdate ResizeRight target (start sub) oe dt sub in
  start sub' = start sub /\ 0.2 <= end_ sub' - start sub'.
Proof.
  intros Hid. cbv zeta. rewrite dragUpdate_resize_right by exact Hid.
  cbn [start end_]. split; [reflexivity |].
  pose proof (Q.le_max_l (start sub + 0.2) (oe + dt)). lra.
Qed.

(** A resize-left update leaves the target at least 0.2 s long when the
    snapshot end is the caption's; its start is non-negative exactly when
    that end is at least 0.2. *)
Lemma resize_left_duration target os dt sub :
  id sub = target ->
  let sub' := dragUpdate ResizeLeft target os (end_ sub) dt sub in
  0.2 <= end_ sub' - start sub'
  /\ (0 <= start sub' <-> 0.2 <= end_ sub).
Proof.
  intros Hid. cbv zeta. rewrite dragUpdate_resize_left by exact Hid.
  cbn [start end_].
  pose proof (Q.le_min_r (Qmax 0 (os + dt)) (end_ sub - 0.2)) as Hr.
  split; [lra |]. split; intros H.
  - lra.
  - apply Q.min_glb; [apply Q.le_max_l | lra].
Qed.

Section DragInvariant.

Variables (ed : Editor) (canvas : Canvas) (target : string).
Variables (xs : list Q) (clientX : Q).

Let st := stateRef ed.
Let ed' := moves (xs ++ [clientX]) ed.

Hypothesis Hdragging : isDragging st = true.
Hypothesis Hvideo : videoRef ed <> None.
Hypothesis Hcanvas : canvasRef ed = Some canvas.
Hypothesis Htarget : dragTargetId st = Some target.
Hypothesis Htruthy : truthy target = true.

Variables (i : nat) (sub : Subtitle).
Hypothesis Hnth : nth_error (subtitles st) i = Some sub.
Hypothesis Hid : id sub = target.

(** After the pointer-moves of a move drag the target starts at a
    non-negative time and lasts at least 0.1 s. *)
Lemma drag_move_invariant :
  dragMode st = MoveSub ->
  exists sub',
    nth_error (subtitles (stateRef ed')) i = Some sub'
    /\ 0 <= start sub' /\ 0.1 <= end_ sub' - start sub'.
Proof.
  intros Hmode. eexists. split.
  - apply (drag_move ed canvas target xs clientX Hdragging Hvideo Hcanvas
             Htarget Htruthy i sub Hnth Hid Hmode).
  - cbn [start end_]. split; [apply Q.le_max_l |].
    match goal with
    | |- _ <= Qmax ?a ?b - _ => pose proof (Q.le_max_l a b)
    end. lra.
Qed.

(** After the pointer-moves of a resize-right drag whose snapshot start is
    the caption's, the start is what it was and the target lasts at least
    0.2 s. *)
Lemma drag_resize_right_invariant :
  dragMode st = ResizeRight ->
  dragOriginalStart st = start sub ->
  exists sub',
    nth_error (subtitles (stateRef ed')) i = Some sub'
    /\ start sub' = start sub /\ 0.2 <= end_ sub' - start sub'.
Proof.
  intros Hmode Hsnap. eexists. split.
  - apply (drag_resize_right ed canvas target xs clientX Hdragging Hvideo
             Hcanvas Htarget Htruthy i sub Hnth Hid Hmode).
  - cbn [start end_]. split; [reflexivity |]. fold st. rewrite Hsnap.
    match goal with
    | |- _ <= Qmax ?a ?b - _ => pose proof (Q.le_max_l a b)
    end. lra.
Qed.

(** After the pointer-moves of a resize-left drag whose snapshot end is the
    caption's, the target lasts at least 0.2 s; its start is non-negative
    exactly when the caption ends at 0.2 s or later. *)
Lemma drag_resize_left_invariant :
  dragMode st = ResizeLeft ->
  dragOriginalEnd st = end_ sub ->
  exists sub',
    nth_error (subtitles (stateRef ed')) i = Some sub'
    /\ 0.2 <= end_ sub' - start sub'
    /\ (0 <= start sub' <-> 0.2 <= end_ sub).
Proof.
  intros Hmode Hsnap. eexists. split.
  - apply (drag_resize_left ed canvas target xs clientX Hdragging Hvideo
             Hcanvas Htarget Htruthy i sub Hnth Hid Hmode).
  - cbn [start end_]. fold st. rewrite Hsnap.
    match goal with
    | |- context [Qmin ?a ?b] =>
        pose proof (Q.le_min_r a b) as Hr;
        pose proof (Q.min_glb a b 0) as Hglb;
        pose proof (Q.le_max_l 0 (dragOriginalStart st
                                  + (clientX - rectLeft canvas - dragStartX st)
                                    / zoomLevel st)) as Hl
    end.
    split; [lra |]. split; intros H; [lra |].
    apply Hglb; [exact Hl | lra].
Qed.

End DragInvariant.

(** C3 (the code departs from it). A caption {start:5, end:7} moved 10 s to
    the left is clamped to {start:0, end:0.1}; grabbing its left handle and
    moving the pointer then sets start = min(max(0, 0 + dt), 0.1 - 0.2)
    = -0.1: the caption starts before time 0. *)
Theorem C3_resize_left_negative_start :
  let moved := run [PointerDown 550; PointerMove 50; PointerUp] clampEditor in
  let grabbed := handlePointerDown 250 moved in
  let resized := handlePointerMove 260 grabbed in
  normalized (subtitles (stateRef moved)) = [mkSubtitle "a" 0 0.1 "hi"]
  /\ dragMode (stateRef grabbed) = ResizeLeft
  /\ normalized (subtitles (stateRef resized))
     = [mkSubtitle "a" (-0.1) 0.1 "hi"]
  /\ exists sub,
       nth_error (subtitles (stateRef resized)) 0 = Some sub
       /\ start sub < 0
       /\ 0.2 <= end_ sub - start sub.
Proof.
  cbv zeta. split; [reflexivity |]. split; [reflexivity |].
  split; [reflexivity |].
  eexists. split; [reflexivity |]. split; [reflexivity |]. discriminate.
Qed.

(** ** The waveform rasterizer *)

(** One pass of each loop. *)
Lemma peakLoop_S fuel data safeEnd stride j acc :
  peakLoop (S fuel) data safeEnd stride j acc
  = if (j <? safeEnd)%Z
    then peakLoop fuel data safeEnd stride (j + stride)%Z
                  (peakStep data j acc)
    else acc.
Proof. reflexivity. Qed.

Lemma bucketLoop_S fuel body i last :
  bucketLoop (S fuel) body i last
  = if (i <=? last)%Z then
      match body i with
      | Break => []
      | Continue => bucketLoop fuel body (i + 1)%Z last
      | Fill bar => bar :: bucketLoop fuel body (i + 1)%Z last
      end
    else [].
Proof. reflexivity. Qed.

(** The fuel of the two loops is enough: more of it changes nothing. *)
Lemma peakLoop_fuel data safeEnd stride :
  (1 <= stride)%Z ->
  forall fuel j acc,
    (Z.to_nat (safeEnd - j) <= fuel)%nat ->
    peakLoop (S fuel) data safeEnd stride j acc
    = peakLoop fuel data safeEnd stride j acc.
Proof.
  intros Hstride. induction fuel as [| fuel IH]; intros j acc Hfuel.
  - cbn [peakLoop]. destruct (Z.ltb_spec j safeEnd); [lia | reflexivity].
  - rewrite (peakLoop_S (S fuel) data safeEnd stride j acc),
            (peakLoop_S fuel data safeEnd stride j acc).
    destruct (Z.ltb_spec j safeEnd); [| reflexivity].
    apply IH. lia.
Qed.

Lemma bucketLoop_fuel body last :
  forall fuel i,
    (Z.to_nat (last - i + 1) <= fuel)%nat ->
    bucketLoop (S fuel) body i last = bucketLoop fuel body i last.
Proof.
  induction fuel as [| fuel IH]; intros i Hfuel.
  - cbn [bucketLoop]. destruct (Z.leb_spec i last); [lia | reflexivity].
  - rewrite (bucketLoop_S (S fuel) body i last),
            (bucketLoop_S fuel body i last).
    destruct (Z.leb_spec i last); [| reflexivity].
    destruct (body i); [| reflexivity |]; rewrite IH by lia; reflexivity.
Qed.

(** Every bar the loop collects was filled by its body. *)
Lemma bucketLoop_In body last bar :
  forall fuel i,
    In bar (bucketLoop fuel body i last) -> exists k, body k = Fill bar.
Proof.
  induction fuel as [| fuel IH]; intros i Hin; [contradiction |].
  cbn [bucketLoop] in Hin.
  destruct (i <=? last)%Z; [| contradiction].
  destruct (body i) as [| | b] eqn:Hbody.
  - now apply IH in Hin.
  - contradiction.
  - destruct Hin as [-> | Hin]; [now exists i | now apply IH in Hin].
Qed.

(** A filled bar carries its bucket's index and peaks; its vertical extent
    is fixed by them and the canvas height. *)
Lemma bucketStep_Fill audio width height zoom currentTime i bar :
  bucketStep audio width height zoom currentTime (bucketSamples audio zoom) i
  = Fill bar ->
  bucket bar = i
  /\ bucketPeaks audio zoom i = (barMin bar, barMax bar, true)
  /\ (rectY bar, rectH bar)
     = (if Qltb (barMax bar - barMin bar) 0.005
        then (Qfloor (height / 2), 1%Z)
        else
          let yMin := Qfloor (height / 2 + barMin bar * (height / 2) * 0.9) in
          let yMax :=
            Qceiling (height / 2 + barMax bar * (height / 2) * 0.9) in
          (yMin, Z.max 1 (yMax - yMin))).
Proof.
  unfold bucketStep, bucketPeaks. cbv zeta.
  destruct (_ || _)%bool; [discriminate |].
  destruct (Qltb width _); [discriminate |].
  destruct (_ <? 0)%Z; [discriminate |].
  destruct (peakSample _ _ _) as [[min max] hasData].
  destruct hasData; cbn [andb]; [| discriminate].
  destruct (Qle_bool min max); [| discriminate].
  destruct (Qltb (max - min) 0.005) eqn:Hflat;
    intros [= <-]; cbn [bucket barMin barMax rectY rectH];
    rewrite Hflat; auto.
Qed.

Lemma drawWaveform_In audio width height zoom currentTime bar :
  In bar (drawWaveform audio width height zoom currentTime) ->
  exists i,
    bucketStep audio width height zoom currentTime (bucketSamples audio zoom)
               i = Fill bar.
Proof.
  unfold drawWaveform. cbv zeta. apply bucketLoop_In.
Qed.

(** C4. The min/max pair drawn for a waveform bucket is a function of the
    bucket index, the zoom and the sample buffer alone: two renderings at
    the same zoom, whatever their centre times (and canvas sizes), fill a
    bucket index they both draw from identical min/max values, and on
    canvases of one height with identical vertical extents. *)
Theorem C4_bucket_peaks_independent_of_center
  (audio : AudioBuffer) (zoom : Q)
  (width1 height1 center1 width2 height2 center2 : Q) (bar1 bar2 : Bar) :
  0 < zoom ->
  0 < sampleRate audio ->
  In bar1 (drawWaveform audio width1 height1 zoom center1) ->
  In bar2 (drawWaveform audio width2 height2 zoom center2) ->
  bucket bar1 = bucket bar2 ->
  (barMin bar1, barMax bar1, true) = bucketPeaks audio zoom (bucket bar1)
  /\ barMin bar1 = barMin bar2
  /\ barMax bar1 = barMax bar2
  /\ (height1 = height2 ->
      rectY bar1 = rectY bar2 /\ rectH bar1 = rectH bar2).
Proof.
  intros _ _ Hin1 Hin2 Hbucket.
  apply drawWaveform_In in Hin1 as [i1 H1].
  apply drawWaveform_In in Hin2 as [i2 H2].
  apply bucketStep_Fill in H1 as (Hb1 & Hp1 & Hr1).
  apply bucketStep_Fill in H2 as (Hb2 & Hp2 & Hr2).
  rewrite Hb1. assert (i1 = i2) as <- by congruence.
  rewrite Hp1 in Hp2. injection Hp2 as Hmin Hmax.
  split; [now rewrite Hp1 |]. split; [exact Hmin |]. split; [exact Hmax |].
  intros <-. rewrite <- Hmin, <- Hmax in Hr2.
  rewrite <- Hr1 in Hr2. now injection Hr2.
Qed.

Lemma C4_bucket_peaks_independent_of_center_witness :
  let bar1 := mkBar 1 0 0.75 3 50 1 34 in
  let bar2 := mkBar 1 0 0.75 2 50 2 34 in
  In bar1 (drawWaveform sampleAudio 8 100 2 1)
  /\ In bar2 (drawWaveform sampleAudio 8 100 2 1.25)
  /\ rectX bar1 <> rectX bar2
  /\ (barMin bar1, barMax bar1, true) = bucketPeaks sampleAudio 2 1
  /\ barMin bar1 = barMin bar2
  /\ barMax bar1 = barMax bar2
  /\ (100 = 100 -> rectY bar1 = rectY bar2 /\ rectH bar1 = rectH bar2).
Proof.
  cbv zeta.
  assert (H1 : In (mkBar 1 0 0.75 3 50 1 34)
                  (drawWaveform sampleAudio 8 100 2 1))
    by (vm_compute; right; left; reflexivity).
  assert (H2 : In (mkBar 1 0 0.75 2 50 2 34)
                  (drawWaveform sampleAudio 8 100 2 1.25))
    by (vm_compute; right; left; reflexivity).
  split; [exact H1 |]. split; [exact H2 |]. split; [discriminate |].
  exact (C4_bucket_peaks_independent_of_center sampleAudio 2
           8 100 1 8 100 1.25 _ _ eq_refl eq_refl H1 H2 eq_refl).
Defined.

(** ** The export compositor *)

Lemma activeAt_iff t s : activeAt t s = true <-> start s <= t /\ t <= end_ s.
Proof.
  unfold activeAt. now rewrite andb_true_iff, !Qle_bool_iff.
Qed.

(** [find] returns the first element that satisfies the predicate. *)
Lemma find_first {A : Type} (f : A -> bool) (l : list A) (a : A) :
  find f l = Some a ->
  exists before after,
    l = before ++ a :: after
    /\ f a = true
    /\ forall b, In b before -> f b = false.
Proof.
  induction l as [| x l IH]; [discriminate |].
  cbn [find]. destruct (f x) eqn:Hx.
  - intros [= ->]. exists [], l. repeat split; [exact Hx | contradiction].
  - intros H. destruct (IH H) as (before & after & -> & Ha & Hb).
    exists (x :: before), after. repeat split; [exact Ha |].
    intros b [<- | Hin]; [exact Hx | now apply Hb].
Qed.

Lemma filledTexts_compositeFrame video canvas subs style :
  filledTexts (fst (compositeFrame video canvas subs style))
  = match find (activeAt (currentTime video)) subs with
    | Some s => [text s]
    | None => []
    end.
Proof.
  unfold compositeFrame.
  destruct (find (activeAt (currentTime video)) subs) as [s |];
    [| reflexivity].
  cbv zeta. destruct (Qltb 0 _); reflexivity.
Qed.

(** C7. A frame rendered before the end of the video fills caption text if
    and only if some caption's closed interval [start, end] contains the
    playback time, and the text is that of the first such caption in list
    order; with the single caption {start:2, end:4} text is drawn exactly
    on the frames with 2 <= t <= 4. *)
Theorem C7_compositor_active_caption
  (app : Export) (video : Video) (canvas : RenderCanvas) (recorder : Recorder) :
  exportVideo app = Some video ->
  renderCanvas app = Some canvas ->
  mediaRecorder app = Some recorder ->
  ended video = false ->
  let t := currentTime video in
  let subs := subtitlesRef app in
  exists cmds lineWidth,
    renderCanvas (renderFrame app)
    = Some (mkRenderCanvas (canvasWidth canvas) (canvasHeight canvas)
                           lineWidth (drawn canvas ++ cmds))
    /\ (filledTexts cmds <> []
        <-> exists s, In s subs /\ start s <= t /\ t <= end_ s)
    /\ (forall s, find (activeAt t) subs = Some s ->
          filledTexts cmds = [text s]
          /\ exists before after,
               subs = before ++ s :: after
               /\ (start s <= t /\ t <= end_ s)
               /\ forall b, In b before -> ~ (start b <= t /\ t <= end_ b))
    /\ (forall i txt, subs = [mkSubtitle i 2 4 txt] ->
          (filledTexts cmds = [txt] <-> 2 <= t /\ t <= 4)
          /\ (filledTexts cmds = [] <-> ~ (2 <= t /\ t <= 4))).
Proof.
  intros Hv Hc Hr Hended t subs.
  pose proof (filledTexts_compositeFrame video canvas subs (styleRef app))
    as Htexts.
  unfold renderFrame. rewrite Hv, Hc, Hr, Hended. fold subs.
  destruct (compositeFrame video canvas subs (styleRef app))
    as [cmds lineWidth].
  cbn [fst] in Htexts. fold t in Htexts.
  exists cmds, lineWidth. split; [reflexivity |]. split; [| split].
  - rewrite Htexts. split.
    + destruct (find (activeAt t) subs) as [s |] eqn:Hfind;
        [| intros H; now contradiction H].
      intros _. apply find_some in Hfind as [Hin Hact].
      exists s. split; [exact Hin | now apply activeAt_iff].
    + intros (s & Hin & Hact). apply activeAt_iff in Hact.
      destruct (find (activeAt t) subs) as [s' |] eqn:Hfind; [discriminate |].
      apply (find_none _ _ Hfind) in Hin. congruence.
  - intros s Hfind. rewrite Htexts, Hfind. split; [reflexivity |].
    apply find_first in Hfind as (before & after & Hsplit & Hact & Hbefore).
    exists before, after. split; [exact Hsplit |].
    split; [now apply activeAt_iff |].
    intros b Hin Hb. apply activeAt_iff in Hb.
    rewrite (Hbefore b Hin) in Hb. discriminate.
  - intros i txt Hsubs. rewrite Htexts, Hsubs. cbn [find].
    destruct (activeAt t (mkSubtitle i 2 4 txt)) eqn:Hact.
    + apply activeAt_iff in Hact. cbn [start end_ text] in *.
      split; split; auto; try discriminate. intros H. now contradiction H.
    + assert (Hnot : ~ (2 <= t /\ t <= 4)).
      { intros H. apply (activeAt_iff t (mkSubtitle i 2 4 txt)) in H.
        congruence. }
      split; split; auto; try discriminate. intros H. contradiction.
Qed.

Lemma C7_compositor_active_caption_witness :
  let app := exportAt 3 overlappingCaptions in
  exists cmds lineWidth,
    renderCanvas (renderFrame app)
    = Some (mkRenderCanvas 1920 1080 lineWidth ([] ++ cmds))
    /\ filledTexts cmds = ["Hello"%string].
Proof.
  cbv zeta.
  destruct (C7_compositor_active_caption
              (exportAt 3 overlappingCaptions)
              (mkVideo 3 false false 10 0 1920 1080)
              (mkRenderCanvas 1920 1080 1 [])
              (mkRecorder "video/webm" "webm" true)
              eq_refl eq_refl eq_refl eq_refl)
    as (cmds & lineWidth & Hcanvas & _ & Hfirst & _).
  exists cmds, lineWidth. split; [exact Hcanvas |].
  exact (proj1 (Hfirst (mkSubtitle "a" 2 4 "Hello") eq_refl)).
Defined.

(** ** Codec negotiation *)

(** The selection loop returns the first supported entry, or the empty
    string when there is none. *)
Lemma selectMimeType_find types supported :
  selectMimeType types supported
  = match find supported types with
    | Some type => type
    | None => EmptyString
    end.
Proof.
  induction types as [| type rest IH]; [reflexivity |].
  cbn [selectMimeType find]. now destruct (supported type).
Qed.

(** C8. For every preference list (of non-empty MIME types, as the list of
    the source is) and every support predicate, starting a render selects
    the first entry of the list that the predicate accepts and records with
    it; when no entry is accepted the user is alerted, no recorder is
    created, playback is not started and the status is idle. *)
Theorem C8_codec_negotiation
  (types : list string) (browser : Browser) (app : Export)
  (video : Video) (canvas : RenderCanvas) (src : string) :
  Forall (fun type => truthy type = true) types ->
  exportVideo app = Some video ->
  renderCanvas app = Some canvas ->
  videoSrc app = Some src ->
  truthy src = true ->
  hasContext2d browser = true ->
  let app' := startRenderingWith types browser app in
  match find (isTypeSupported browser) types with
  | Some type =>
      (exists before after,
          types = before ++ type :: after
          /\ isTypeSupported browser type = true
          /\ forall b, In b before -> isTypeSupported browser b = false)
      /\ (exists extension,
             mediaRecorder app' = Some (mkRecorder type extension true))
      /\ alerts app' = alerts app
      /\ (playResolves browser = true -> renderStatus app' = Rendering)
  | None =>
      renderStatus app' = Idle
      /\ alerts app' = unsupportedMessage :: alerts app
      /\ mediaRecorder app' = mediaRecorder app
      /\ option_map paused (exportVideo app') = Some (paused video)
  end.
Proof.
  intros Htypes Hv Hc Hs Hsrc Hctx app'. subst app'.
  unfold startRenderingWith.
  rewrite Hv, Hc, Hs, Hsrc, Hctx, selectMimeType_find. cbn [negb].
  destruct (find (isTypeSupported browser) types) as [type |] eqn:Hfind.
  - assert (Htruthy : truthy type = true).
    { apply find_some in Hfind as [Hin _].
      rewrite Forall_forall in Htypes. now apply Htypes. }
    rewrite Htruthy. cbn [negb mediaRecorder alerts renderStatus].
    split; [now apply find_first |].
    split; [eexists; reflexivity |]. split; [reflexivity |].
    now intros ->.
  - cbn. auto.
Qed.

Lemma C8_codec_negotiation_witness :
  Forall (fun type => truthy type = true) mimeTypes
  /\ find (isTypeSupported webmBrowser) mimeTypes
     = Some "video/webm;codecs=h264"%string
  /\ mediaRecorder (startRendering webmBrowser exportIdle)
     = Some (mkRecorder "video/webm;codecs=h264" "webm" true)
  /\ renderStatus (startRendering webmBrowser exportIdle) = Rendering
  /\ renderStatus (startRendering noCodecBrowser exportIdle) = Idle
  /\ alerts (startRendering noCodecBrowser exportIdle) = [unsupportedMessage]
  /\ mediaRecorder (startRendering noCodecBrowser exportIdle) = None.
Proof.
  assert (Hne : Forall (fun type => truthy type = true) mimeTypes)
    by (repeat constructor).
  split; [exact Hne |]. split; [reflexivity |].
  pose proof (C8_codec_negotiation mimeTypes webmBrowser exportIdle
                (mkVideo 3 true false 10 1 1920 1080)
                (mkRenderCanvas 300 150 1 []) "blob:video"%string
                Hne eq_refl eq_refl eq_refl eq_refl eq_refl) as Hwebm.
  pose proof (C8_codec_negotiation mimeTypes noCodecBrowser exportIdle
                (mkVideo 3 true false 10 1 1920 1080)
                (mkRenderCanvas 300 150 1 []) "blob:video"%string
                Hne eq_refl eq_refl eq_refl eq_refl eq_refl) as Hnone.
  cbv zeta in Hwebm, Hnone.
  change (find (isTypeSupported webmBrowser) mimeTypes)
    with (Some "video/webm;codecs=h264"%string) in Hwebm.
  change (find (isTypeSupported noCodecBrowser) mimeTypes)
    with (@None string) in Hnone.
  destruct Hwebm as (_ & _ & _ & Hstatus).
  destruct Hnone as (Hidle & Halerts & Hrec & _).
  split; [reflexivity |]. split; [exact (Hstatus eq_refl) |].
  split; [exact Hidle |]. split; [exact Halerts |]. exact Hrec.
Defined.

(** ** The SRT writer *)

(** *** The sort *)

Lemma insertSorted_perm a sorted :
  Permutation (insertSorted a sorted) (a :: sorted).
Proof.
  induction sorted as [| b rest IH]; cbn [insertSorted]; [reflexivity |].
  destruct (Qle_bool (byStart a b) 0); [reflexivity |].
  rewrite IH. apply perm_swap.
Qed.

Lemma sortByStart_perm subs : Permutation (sortByStart subs) subs.
Proof.
  induction subs as [| a rest IH]; cbn [sortByStart]; [reflexivity |].
  rewrite insertSorted_perm. now apply perm_skip.
Qed.

Lemma insertSorted_sorted a sorted :
  StronglySorted startsBefore sorted ->
  StronglySorted startsBefore (insertSorted a sorted).
Proof.
  induction sorted as [| b rest IH]; cbn [insertSorted]; intros Hsorted.
  - repeat constructor.
  - inversion Hsorted as [| ? ? Hrest Hall]; subst.
    destruct (Qle_bool (byStart a b) 0) eqn:Hcmp.
    + apply Qle_bool_iff in Hcmp. unfold byStart in Hcmp.
      assert (Hab : startsBefore a b) by (unfold startsBefore; lra).
      constructor; [exact Hsorted |]. constructor; [exact Hab |].
      eapply Forall_impl; [| exact Hall].
      unfold startsBefore in *. intros c Hc. lra.
    + apply Qle_bool_gt in Hcmp. unfold byStart in Hcmp.
      constructor; [now apply IH |].
      rewrite (insertSorted_perm a rest).
      constructor; [unfold startsBefore; lra | exact Hall].
Qed.

(** The sort returns the captions in ascending order of start. *)
Lemma sortByStart_sorted subs : StronglySorted startsBefore (sortByStart subs).
Proof.
  induction subs as [| a rest IH]; cbn [sortByStart]; [constructor |].
  now apply insertSorted_sorted.
Qed.

(** *** The timestamp *)

Lemma digit_not_dot n : Ascii.eqb (digit n) "." = false.
Proof.
  unfold digit.
  pose proof (Z.mod_pos_bound n 10 ltac:(lia)) as Hmod.
  assert (Hk : (Z.to_nat (n mod 10) < 10)%nat) by lia.
  set (k := Z.to_nat (n mod 10)) in *. clearbody k.
  do 10 (destruct k as [| k]; [reflexivity |]). lia.
Qed.

(** The ISO year of every day from 0000-01-01 to 9999-12-31 has four
    digits. *)
Lemma civilFromDays_year day :
  (-719528 <= day <= 2932896)%Z ->
  (0 <= fst (fst (civilFromDays day)) <= 9999)%Z.
Proof.
  intros Hday. unfold civilFromDays. cbv zeta. cbn [fst].
  set (z := (day + 719468)%Z).
  set (era := (z / 146097)%Z).
  set (doe := (z - era * 146097)%Z).
  set (yoe := ((doe - doe / 1460 + doe / 36524 - doe / 146096) / 365)%Z).
  set (doy := (doe - (365 * yoe + yoe / 4 - yoe / 100))%Z).
  set (mp := ((5 * doy + 2) / 153)%Z).
  assert (Hera : (-1 <= era < 25)%Z).
  { subst era z.
    split; [apply Z.div_le_lower_bound | apply Z.div_lt_upper_bound]; lia. }
  assert (Hdoe : (0 <= doe < 146097)%Z).
  { subst doe era. pose proof (Z.mod_pos_bound z 146097 ltac:(lia)) as Hmod.
    rewrite Z.mod_eq in Hmod by lia. lia. }
  assert (Hyoe : (0 <= yoe < 400)%Z).
  { subst yoe.
    split; [apply Z.div_le_lower_bound | apply Z.div_lt_upper_bound];
      try lia; Z.div_mod_to_equations; lia. }
  assert (Hlow : era = (-1)%Z -> yoe = 399%Z /\ (10 <= mp < 12)%Z).
  { intros E. assert (Hd : (146037 <= doe)%Z) by (subst doe z; lia).
    assert (Ey : yoe = 399%Z).
    { subst yoe. clearbody doe. clear - Hd Hdoe.
      Z.div_mod_to_equations. lia. }
    split; [exact Ey |]. subst mp doy. rewrite Ey.
    change (365 * 399 + 399 / 4 - 399 / 100)%Z with 145731%Z.
    split; [apply Z.div_le_lower_bound | apply Z.div_lt_upper_bound]; lia. }
  assert (Hhigh : era = 24%Z -> yoe = 399%Z -> (0 <= mp < 10)%Z).
  { intros E Ey. assert (Hd : (doe <= 146036)%Z) by (subst doe z; lia).
    subst mp doy. rewrite Ey. unfold yoe in Ey.
    change (365 * 399 + 399 / 4 - 399 / 100)%Z with 145731%Z.
    clearbody doe. clear - Hd Hdoe Ey. Z.div_mod_to_equations. lia. }
  destruct (Z.ltb_spec mp 10) as [Hmp | Hmp];
    match goal with
    | |- context [(?m <=? 2)%Z] => destruct (Z.leb_spec m 2)
    end; lia.
Qed.

(** Within the four-digit years [formatTime] returns the zero-padded
    [HH:MM:SS,mmm] of the time truncated to milliseconds. *)
Lemma toInteger_fourDigitYear seconds :
  fourDigitYear seconds ->
  (-62167219200000 <= toInteger (seconds * 1000) <= 253402300799999)%Z.
Proof.
  unfold fourDigitYear, toInteger. intros [Hlow Hhigh].
  set (x := seconds * 1000).
  assert (Hx : -62167219200000 <= x /\ x < 253402300800000)
    by (subst x; split; lra).
  destruct Hx as [Hxl Hxh].
  destruct (Qle_bool 0 x) eqn:Hsign.
  - apply Qle_bool_iff in Hsign.
    pose proof (Qfloor_le x) as Hfl. pose proof (Qlt_floor x) as Hlt.
    split.
    + apply Z.le_trans with 0%Z; [lia |].
      apply (Qfloor_resp_le 0 x) in Hsign. exact Hsign.
    + apply Z.lt_succ_r. rewrite Zlt_Qlt.
      eapply Qle_lt_trans; [exact Hfl | exact Hxh].
  - apply Qle_bool_gt in Hsign.
    pose proof (Qle_ceiling x) as Hce.
    split.
    + apply (Qceiling_resp_le (-62167219200000) x) in Hxl. exact Hxl.
    + apply Z.le_trans with 0%Z; [| lia].
      apply Qlt_le_weak in Hsign.
      apply (Qceiling_resp_le x 0) in Hsign. exact Hsign.
Qed.

(** Within the four-digit years [formatTime] returns the zero-padded
    [HH:MM:SS,mmm] of the time truncated to milliseconds. *)
Lemma formatTime_srtTimestamp seconds :
  fourDigitYear seconds ->
  formatTime seconds = Some (srtTimestamp (toInteger (seconds * 1000))).
Proof.
  intros Hms. apply toInteger_fourDigitYear in Hms. revert Hms.
  unfold formatTime, setMilliseconds. cbv zeta.
  set (ms := toInteger (seconds * 1000)). intros Hms.
  destruct (Z.leb_spec (Z.abs ms) maxTimeValue) as [_ | Habs];
    [| unfold maxTimeValue in Habs; lia].
  f_equal. unfold toISOString.
  assert (Hday : (-719528 <= ms / msPerDay <= 2932896)%Z).
  { unfold msPerDay. split; [apply Z.div_le_lower_bound; lia |].
    apply Z.lt_succ_r. apply Z.div_lt_upper_bound; lia. }
  apply civilFromDays_year in Hday.
  destruct (civilFromDays (ms / msPerDay)) as [[y m] d]. cbn [fst] in Hday.
  unfold isoYear.
  destruct (Z.leb_spec 0 y); [| lia]. destruct (Z.leb_spec y 9999); [| lia].
  cbn [andb]. unfold srtTimestamp, isoClock, digits4, digits3, digits2.
  cbn [append substring replaceChar].
  rewrite !digit_not_dot. reflexivity.
Qed.

(** *** The file *)

Lemma mapEntries_srtBlocks subs :
  Forall printable subs ->
  forall index, mapEntries index subs = Some (srtBlocks (S index) subs).
Proof.
  induction 1 as [| sub rest [Hstart Hend] _ IH]; intros index;
    [reflexivity |].
  cbn [mapEntries srtBlocks]. rewrite IH. unfold srtEntry, srtBlock.
  rewrite (formatTime_srtTimestamp _ Hstart),
          (formatTime_srtTimestamp _ Hend), Nat.add_1_r.
  reflexivity.
Qed.

(** C9. For captions with times in the four-digit years, [generateSRT]
    prints the captions (in ascending order of start) as blocks numbered
    from 1: the number, a line "start --> end" of zero-padded HH:MM:SS,mmm
    timestamps and the text, each ended by a line feed, the blocks joined by
    one more line feed (a blank line); and
    generateSRT([{start:1.5, end:3.25, text:"Hello"}]) is
    "1\n00:00:01,500 --> 00:00:03,250\nHello\n". *)
Theorem C9_generateSRT_format :
  (forall subs : list Subtitle,
      Forall printable subs ->
      generateSRT subs
      = Some (String.concat nl (srtBlocks 1 (sortByStart subs))))
  /\ generateSRT [mkSubtitle "a" 1.5 3.25 "Hello"]
     = Some ("1" ++ nl ++ "00:00:01,500 --> 00:00:03,250" ++ nl
             ++ "Hello" ++ nl)%string
  /\ generateSRT [mkSubtitle "b" 5 6 "World"; mkSubtitle "a" 1.5 3.25 "Hello"]
     = Some ("1" ++ nl ++ "00:00:01,500 --> 00:00:03,250" ++ nl
             ++ "Hello" ++ nl
             ++ nl
             ++ "2" ++ nl ++ "00:00:05,000 --> 00:00:06,000" ++ nl
             ++ "World" ++ nl)%string.
Proof.
  split; [| split; reflexivity].
  intros subs Hsubs. unfold generateSRT.
  rewrite mapEntries_srtBlocks; [reflexivity |].
  now rewrite sortByStart_perm.
Qed.

Lemma C9_generateSRT_format_witness :
  printable (mkSubtitle "a" 1.5 3.25 "Hello")
  /\ generateSRT [mkSubtitle "a" 1.5 3.25 "Hello"]
     = Some (String.concat nl
               (srtBlocks 1 (sortByStart [mkSubtitle "a" 1.5 3.25 "Hello"]))).
Proof.
  assert (Hp : printable (mkSubtitle "a" 1.5 3.25 "Hello"))
    by (repeat split; discriminate).
  split; [exact Hp |].
  apply (proj1 C9_generateSRT_format). constructor; [exact Hp | constructor].
Defined.

(** * Further properties of the code *)

(** ** More of the editor's state machine *)

(** ** Pointer-down and pointer-up leave the captions alone *)









(** ** Scrubbing *)

(** One pointer-move of a live scrub. *)
Lemma handlePointerMove_scrub clientX ed video canvas :
  let st := stateRef ed in
  isDragging st = true ->
  dragMode st = Scrub ->
  videoRef ed = Some video ->
  canvasRef ed = Some canvas ->
  handlePointerMove clientX ed
  = mkEditor st
      (Some (seekVideo
               (Qmax 0 (dragStartTime st
                        - (clientX - rectLeft canvas - dragStartX st)
                          / zoomLevel st))
               video))
      (Some canvas) (selectedSubId ed) (emitted ed).
Proof.
  intros st Hd Hm Hv Hc. unfold handlePointerMove. fold st.
  now rewrite Hd, Hv, Hc, Hm.
Qed.

(** The pointer-moves of a scrub touch nothing but the video's time. *)
Lemma moves_scrub xs : forall ed video canvas,
  isDragging (stateRef ed) = true ->
  dragMode (stateRef ed) = Scrub ->
  videoRef ed = Some video ->
  canvasRef ed = Some canvas ->
  stateRef (moves xs ed) = stateRef ed
  /\ canvasRef (moves xs ed) = Some canvas
  /\ selectedSubId (moves xs ed) = selectedSubId ed
  /\ emitted (moves xs ed) = emitted ed
  /\ exists video',
       videoRef (moves xs ed) = Some video'
       /\ paused video' = paused video.
Proof.
  induction xs as [| x xs IH]; intros ed video canvas Hd Hm Hv Hc.
  - cbn. repeat split; auto. now exists video.
  - cbn [moves fold_left]. fold (moves xs (handlePointerMove x ed)).
    rewrite (handlePointerMove_scrub x ed video canvas Hd Hm Hv Hc).
    match goal with
    | |- context [moves xs ?e] =>
        destruct (IH e (seekVideo
                          (Qmax 0 (dragStartTime (stateRef ed)
                                   - (x - rectLeft canvas
                                      - dragStartX (stateRef ed))
                                     / zoomLevel (stateRef ed)))
                          video)
                     canvas Hd Hm eq_refl eq_refl)
          as (H1 & H2 & H3 & H4 & video' & H5 & H6)
    end.
    repeat split; auto. now exists video'.
Qed.

(** A pointer-down that hits no caption opens a scrub. *)
Lemma handlePointerDown_miss ed canvas video clientX :
  let st := stateRef ed in
  let x := clientX - rectLeft canvas in
  let t := xToTime x (currentTime video) (width canvas) (zoomLevel st) in
  canvasRef ed = Some canvas ->
  videoRef ed = Some video ->
  hitTest (selectedSubId ed) t (handleHitWidth / zoomLevel st) (subtitles st)
  = None ->
  handlePointerDown clientX ed
  = mkEditor
      (mkStateRef (subtitles st) (zoomLevel st) true Scrub (dragTargetId st)
                  x (currentTime video) (dragOriginalStart st)
                  (dragOriginalEnd st) (negb (paused video)))
      (Some (pauseVideo video)) (Some canvas)
      (match selectedSubId ed with
       | Some s => if truthy s then None else Some s
       | None => None
       end)
      (emitted ed).
Proof.
  intros st x t Hc Hv Hhit. unfold handlePointerDown.
  rewrite Hc, Hv. cbv zeta. fold st. fold x. fold t. now rewrite Hhit.
Qed.



(** ** Releasing the pointer *)

Lemma run_app evs1 evs2 ed : run (evs1 ++ evs2) ed = run evs2 (run evs1 ed).
Proof. unfold run. apply fold_left_app. Qed.

Lemma run_moves xs ed : run (map PointerMove xs) ed = moves xs ed.
Proof.
  unfold run, moves. revert ed.
  induction xs as [| x xs IH]; intros ed; [reflexivity |].
  cbn [map fold_left handle]. apply IH.
Qed.

(** Outside a scrub a pointer-move leaves the video alone. *)
Lemma handlePointerMove_video clientX ed :
  dragMode (stateRef ed) <> Scrub ->
  videoRef (handlePointerMove clientX ed) = videoRef ed
  /\ isPlaying (stateRef (handlePointerMove clientX ed))
     = isPlaying (stateRef ed).
Proof.
  intros Hmode. unfold handlePointerMove. cbv zeta.
  destruct (isDragging (stateRef ed)); [| split; reflexivity].
  destruct (videoRef ed) as [video |] eqn:Hv; [| split; auto].
  destruct (canvasRef ed) as [canvas |]; [| split; auto].
  destruct (dragMode (stateRef ed)); try contradiction.
  all: destruct (dragTargetId (stateRef ed)) as [target |]; [| split; auto].
  all: destruct (truthy target); split; auto.
Qed.

Lemma moves_video xs : forall ed,
  dragMode (stateRef ed) <> Scrub ->
  videoRef (moves xs ed) = videoRef ed
  /\ isPlaying (stateRef (moves xs ed)) = isPlaying (stateRef ed).
Proof.
  induction xs as [| x xs IH]; intros ed Hmode; [auto |].
  cbn [moves fold_left]. fold (moves xs (handlePointerMove x ed)).
  destruct (handlePointerMove_video x ed Hmode) as [Hv Hp].
  destruct (IH (handlePointerMove x ed)) as [Hv' Hp'].
  { pose proof (f_equal sessionMode (handlePointerMove_session x ed)) as Hs.
    cbn in Hs. now rewrite Hs. }
  split; congruence.
Qed.

(** X4. A whole gesture, pointer-down, any pointer-moves, pointer-up, ends
    idle (not dragging, no mode, no target).  After a scrub the video plays
    again exactly if it was playing at pointer-down; after a gesture on a
    caption the video is left paused, also when it was playing. *)
Theorem gesture_ends_idle
  (ed : Editor) (canvas : Canvas) (video : Video) (x0 : Q) (xs : list Q) :
  let st := stateRef ed in
  let t := xToTime (x0 - rectLeft canvas) (currentTime video) (width canvas)
                   (zoomLevel st) in
  let hit := hitTest (selectedSubId ed) t (handleHitWidth / zoomLevel st)
                     (subtitles st) in
  let ed' := run (PointerDown x0 :: map PointerMove xs ++ [PointerUp]) ed in
  canvasRef ed = Some canvas ->
  videoRef ed = Some video ->
  0 < zoomLevel st ->
  isDragging (stateRef ed') = false
  /\ dragMode (stateRef ed') = ModeNone
  /\ dragTargetId (stateRef ed') = None
  /\ exists video',
       videoRef ed' = Some video'
       /\ (hit = None -> paused video' = paused video)
       /\ (forall hitSubId hitType,
              hit = Some (hitSubId, hitType) ->
              truthy hitSubId = true ->
              paused video' = true).
Proof.
  intros st t hit ed' Hc Hv _. subst ed'.
  change (PointerDown x0 :: map PointerMove xs ++ [PointerUp])
    with ((PointerDown x0 :: map PointerMove xs) ++ [PointerUp]).
  rewrite run_app, run_drag. cbn [run fold_left handle].
  split; [reflexivity |]. split; [reflexivity |]. split; [reflexivity |].
  destruct hit as [[hitSubId hitType] |] eqn:Hhit; subst hit.
  - destruct (truthy hitSubId) eqn:Hy.
    + destruct (handlePointerDown_hit ed canvas video x0 hitSubId hitType
                  Hc Hv Hhit Hy) as (sub & _ & _ & ->).
      destruct (hitTest_find _ _ _ _ _ _ Hhit) as [Hty _].
      match goal with
      | |- context [moves xs ?e] =>
          destruct (moves_video xs e) as [Hv1 Hp1];
          [destruct hitType; cbn; try discriminate; now contradiction Hty |];
          set (ed1 := e) in *
      end.
      assert (Hm1 : dragMode (stateRef (moves xs ed1)) <> Scrub).
      { pose proof (f_equal sessionMode (moves_session xs ed1)) as Hs.
        cbn in Hs. rewrite Hs.
        destruct hitType; cbn; try discriminate; now contradiction Hty. }
      exists (pauseVideo video). unfold handlePointerUp. cbn [videoRef].
      rewrite Hv1. cbn [videoRef ed1].
      split; [| split; [discriminate | reflexivity]].
      destruct (dragMode (stateRef (moves xs ed1))); try reflexivity.
      now contradiction Hm1.
    + (* an empty id is falsy: the gesture is a scrub *)
      unfold handlePointerDown. rewrite Hc, Hv. cbv zeta.
      fold st. fold t. rewrite Hhit, Hy. cbn [andb].
      match goal with
      | |- context [moves xs ?e] =>
          destruct (moves_scrub xs e (pauseVideo video) canvas
                      eq_refl eq_refl eq_refl eq_refl)
            as (Hst & _ & _ & _ & video1 & Hv1 & Hp1)
      end.
      unfold handlePointerUp. cbn [videoRef]. rewrite Hst, Hv1.
      cbn [dragMode isPlaying].
      destruct (paused video) eqn:Hp; cbn [negb].
      * exists video1. split; [reflexivity |].
        split; [discriminate |]. intros ? ? [= <- <-]. congruence.
      * eexists. split; [reflexivity |].
        split; [discriminate |]. intros ? ? [= <- <-]. congruence.
  - rewrite (handlePointerDown_miss ed canvas video x0 Hc Hv Hhit).
    match goal with
    | |- context [moves xs ?e] =>
        destruct (moves_scrub xs e (pauseVideo video) canvas
                    eq_refl eq_refl eq_refl eq_refl)
          as (Hst & _ & _ & _ & video1 & Hv1 & Hp1)
    end.
    unfold handlePointerUp. cbn [videoRef]. rewrite Hst, Hv1.
    cbn [dragMode isPlaying].
    destruct (paused video) eqn:Hp; cbn [negb].
    + exists video1. split; [reflexivity |].
      split; [intros _; exact Hp1 | discriminate].
    + eexists. split; [reflexivity |].
      split; [reflexivity | discriminate].
Qed.

Lemma gesture_ends_idle_witness :
  let ed' :=
    run (PointerDown 500 :: map PointerMove [550] ++ [PointerUp])
        (scenarioEditor None) in
  isDragging (stateRef ed') = false
  /\ dragMode (stateRef ed') = ModeNone
  /\ dragTargetId (stateRef ed') = None.
Proof.
  cbv zeta.
  destruct (gesture_ends_idle (scenarioEditor None) (mkCanvas 1000 0)
              (mkVideo 11 true false 60 1 1920 1080) 500 [550]
              eq_refl eq_refl eq_refl)
    as (Hdragging & Hmode & Htarget & _).
  split; [exact Hdragging |]. split; [exact Hmode | exact Htarget].
Defined.

(** X5. Pointer-moves outside a gesture do nothing: while the editor is
    not dragging, and so after every pointer-up, any number of pointer-moves
    leaves the whole editor as it is. *)
Theorem moves_ignored_when_idle (xs : list Q) (ed : Editor) :
  (isDragging (stateRef ed) = false -> moves xs ed = ed)
  /\ moves xs (handlePointerUp ed) = handlePointerUp ed.
Proof.
  assert (Hidle : forall e, isDragging (stateRef e) = false -> moves xs e = e).
  { induction xs as [| x xs IH]; intros e He; [reflexivity |].
    cbn [moves fold_left]. fold (moves xs (handlePointerMove x e)).
    assert (Hx : handlePointerMove x e = e)
      by (unfold handlePointerMove; now rewrite He).
    rewrite Hx. now apply IH. }
  split; [apply Hidle |]. now apply Hidle.
Qed.

(** ** What a hit is *)

Lemma hitOne_sound selected t h sub hid ty :
  hitOne selected t h sub = Some (hid, ty) ->
  id sub = hid
  /\ inExpanded t h sub = true
  /\ match ty with
     | HitBody => inBody t sub = true
     | HitLeft =>
         isSelected sub selected = true
         /\ Qabs (t - start sub) < h
     | HitRight =>
         isSelected sub selected = true
         /\ h <= Qabs (t - start sub)
         /\ Qabs (t - end_ sub) < h
     | HitNone => False
     end.
Proof.
  unfold hitOne, handleHit.
  destruct (inExpanded t h sub); [| discriminate].
  destruct (isSelected sub selected).
  - destruct (Qltb (Qabs (t - start sub)) h) eqn:Hl.
    + intros [= <- <-]. apply Qltb_lt in Hl. repeat split; auto.
    + apply Qltb_ge in Hl.
      destruct (Qltb (Qabs (t - end_ sub)) h) eqn:Hr.
      * intros [= <- <-]. apply Qltb_lt in Hr. repeat split; auto.
      * destruct (inBody t sub) eqn:Hb; [| discriminate].
        intros [= <- <-]. repeat split; auto.
  - destruct (inBody t sub) eqn:Hb; [| discriminate].
    intros [= <- <-]. repeat split; auto.
Qed.

Lemma hitOne_none selected t h sub :
  hitOne selected t h sub = None ->
  (0 <= h -> inBody t sub = false)
  /\ (isSelected sub selected = true -> inExpanded t h sub = true ->
      handleHit t h sub = HitNone).
Proof.
  unfold hitOne, handleHit. destruct (inExpanded t h sub) eqn:Hexp.
  - destruct (isSelected sub selected).
    + destruct (Qltb (Qabs (t - start sub)) h); [discriminate |].
      destruct (Qltb (Qabs (t - end_ sub)) h); [discriminate |].
      destruct (inBody t sub); [discriminate | auto].
    + destruct (inBody t sub); [discriminate |].
      intros _. split; [auto | discriminate].
  - intros _. split; [| discriminate].
    intros Hh. destruct (inBody t sub) eqn:Hb; [| reflexivity].
    apply (inBody_inExpanded t h sub Hh) in Hb. congruence.
Qed.

Lemma isSelected_eq sub selected :
  isSelected sub selected = true -> selected = Some (id sub).
Proof.
  unfold isSelected. destruct selected as [s |]; [| discriminate].
  intros H. apply String.eqb_eq in H. now subst.
Qed.

Lemma hitLoop_sound selected t h visit hid ty :
  hitLoop selected t h visit = Some (hid, ty) ->
  exists sub, In sub visit /\ hitOne selected t h sub = Some (hid, ty).
Proof.
  induction visit as [| sub rest IH]; [discriminate |].
  cbn [hitLoop]. destruct (hitOne selected t h sub) as [hit |] eqn:Hone.
  - intros [= ->]. exists sub. split; [now left | exact Hone].
  - intros H. destruct (IH H) as (s & Hin & Hs).
    exists s. split; [now right | exact Hs].
Qed.

Lemma hitLoop_none selected t h visit :
  hitLoop selected t h visit = None <->
  forall sub, In sub visit -> hitOne selected t h sub = None.
Proof.
  induction visit as [| sub rest IH]; cbn [hitLoop].
  - split; [intros _ s [] | reflexivity].
  - destruct (hitOne selected t h sub) as [hit |] eqn:Hone.
    + split; [discriminate |]. intros H.
      rewrite (H sub (or_introl eq_refl)) in Hone. discriminate.
    + rewrite IH. split.
      * intros H s [<- | Hin]; [exact Hone | now apply H].
      * intros H s Hin. apply H. now right.
Qed.

(** X6. What pointer-down can hit.  A body hit names a caption whose
    [start, end] contains the pointer time; a handle hit names the selected
    caption, and no other, with the pointer time strictly within the margin
    of its start (left handle, which wins over the right one) or of its end.
    With a non-negative margin there is no hit exactly when no caption
    contains the pointer time and the pointer is on no handle of a selected
    caption. *)
Theorem hitTest_characterised
  (selected : option string) (t h : Q) (subs : list Subtitle) :
  (forall hid ty,
      hitTest selected t h subs = Some (hid, ty) ->
      exists sub,
        In sub subs /\ id sub = hid
        /\ match ty with
           | HitBody => start sub <= t /\ t <= end_ sub
           | HitLeft =>
               selected = Some hid /\ Qabs (t - start sub) < h
           | HitRight =>
               selected = Some hid
               /\ h <= Qabs (t - start sub) /\ Qabs (t - end_ sub) < h
           | HitNone => False
           end)
  /\ (0 <= h ->
      (hitTest selected t h subs = None <->
       (forall sub, In sub subs -> ~ (start sub <= t /\ t <= end_ sub))
       /\ noHandleHit selected t h subs)).
Proof.
  split.
  - intros hid ty Hhit. unfold hitTest in Hhit.
    apply hitLoop_sound in Hhit as (sub & Hin & Hone).
    apply in_rev in Hin. apply hitOne_sound in Hone as (Hid & _ & Hty).
    exists sub. split; [exact Hin |]. split; [exact Hid |].
    destruct ty.
    + exact Hty.
    + now apply inBody_iff.
    + destruct Hty as [Hsel Hl]. apply isSelected_eq in Hsel.
      split; [congruence | exact Hl].
    + destruct Hty as (Hsel & Hl & Hr). apply isSelected_eq in Hsel.
      split; [congruence | auto].
  - intros Hh. unfold hitTest. rewrite hitLoop_none. split.
    + intros Hnone. split.
      * intros sub Hin Hbody. apply inBody_iff in Hbody.
        apply in_rev in Hin.
        destruct (hitOne_none _ _ _ _ (Hnone sub Hin)) as [Hb _].
        rewrite (Hb Hh) in Hbody. discriminate.
      * intros sub Hin. apply in_rev in Hin.
        exact (proj2 (hitOne_none _ _ _ _ (Hnone sub Hin))).
    + intros [Hbody Hno] sub Hin. apply in_rev in Hin.
      rewrite hitOne_no_handle; [| exact Hh | now apply Hno].
      destruct (inBody t sub) eqn:Hb; [| reflexivity].
      apply inBody_iff in Hb. now contradiction (Hbody sub Hin).
Qed.

(** ** Drags of a caption with a unique id *)

Lemma find_unique_id (subs : list Subtitle) :
  NoDup (map id subs) ->
  forall i sub,
    nth_error subs i = Some sub ->
    find (fun s => String.eqb (id s) (id sub)) subs = Some sub.
Proof.
  induction subs as [| a rest IH]; intros Hnd i sub Hnth.
  - destruct i; discriminate.
  - cbn [map] in Hnd. inversion Hnd as [| ? ? Hnotin Hrest]; subst.
    destruct i as [| i]; cbn [nth_error] in Hnth.
    + injection Hnth as ->. cbn [find]. now rewrite String.eqb_refl.
    + cbn [find]. destruct (String.eqb (id a) (id sub)) eqn:E.
      * apply String.eqb_eq in E. exfalso. apply Hnotin. rewrite E.
        apply in_map. eapply nth_error_In. exact Hnth.
      * now apply (IH Hrest i).
Qed.

(** X7. What every caption drag keeps.  With unique ids, after a
    pointer-down that hits a caption and any pointer-moves: a move leaves
    the caption at a non-negative start and at least 0.1 s long; a
    resize-right leaves its start alone and the caption at least 0.2 s long;
    a resize-left leaves its end alone and the caption at least 0.2 s long,
    and its start is non-negative exactly when the caption ends at 0.2 s or
    later. *)
Theorem drag_keeps_caption_in_shape
  (ed : Editor) (canvas : Canvas) (video : Video) (hitType : HitType)
  (x0 : Q) (xs : list Q) (clientX : Q) (i : nat) (sub : Subtitle) :
  let st := stateRef ed in
  let t := xToTime (x0 - rectLeft canvas) (currentTime video) (width canvas)
                   (zoomLevel st) in
  let ed' := run (PointerDown x0 :: map PointerMove (xs ++ [clientX])) ed in
  canvasRef ed = Some canvas ->
  videoRef ed = Some video ->
  0 < zoomLevel st ->
  NoDup (map id (subtitles st)) ->
  nth_error (subtitles st) i = Some sub ->
  truthy (id sub) = true ->
  hitTest (selectedSubId ed) t (handleHitWidth / zoomLevel st) (subtitles st)
  = Some (id sub, hitType) ->
  exists sub',
    nth_error (subtitles (stateRef ed')) i = Some sub'
    /\ match hitType with
       | HitBody => 0 <= start sub' /\ 0.1 <= end_ sub' - start sub'
       | HitLeft =>
           end_ sub' = end_ sub
           /\ 0.2 <= end_ sub' - start sub'
           /\ (0 <= start sub' <-> 0.2 <= end_ sub)
       | HitRight =>
           start sub' = start sub /\ 0.2 <= end_ sub' - start sub'
       | HitNone => False
       end.
Proof.
  intros st t ed' Hc Hv _ Hnd Hnth Hy Hhit. subst ed'.
  destruct (handlePointerDown_hit ed canvas video x0 (id sub) hitType
              Hc Hv Hhit Hy) as (snapshot & Hfind & _ & Hdown).
  fold st in Hfind. rewrite (find_unique_id _ Hnd i sub Hnth) in Hfind.
  injection Hfind as <-.
  rewrite run_drag, Hdown.
  match goal with
  | |- context [moves _ ?e] => set (ed1 := e)
  end.
  assert (Hv1 : videoRef ed1 <> None) by discriminate.
  destruct (hitTest_find _ _ _ _ _ _ Hhit) as [Hty _].
  destruct hitType; [now contradiction Hty | | |].
  - exact (drag_move_invariant ed1 canvas (id sub) xs clientX eq_refl Hv1
             eq_refl eq_refl Hy i sub Hnth eq_refl eq_refl).
  - destruct (drag_resize_left_invariant ed1 canvas (id sub) xs clientX
                eq_refl Hv1 eq_refl eq_refl Hy i sub Hnth eq_refl eq_refl
                eq_refl) as (sub' & Hnth' & Hdur & Hstart).
    exists sub'. split; [exact Hnth' |].
    rewrite (drag_resize_left ed1 canvas (id sub) xs clientX eq_refl Hv1
               eq_refl eq_refl Hy i sub Hnth eq_refl eq_refl) in Hnth'.
    injection Hnth' as <-. cbn [end_] in *. auto.
  - destruct (drag_resize_right_invariant ed1 canvas (id sub) xs clientX
                eq_refl Hv1 eq_refl eq_refl Hy i sub Hnth eq_refl eq_refl
                eq_refl) as (sub' & Hnth' & Hstart & Hdur).
    exists sub'. auto.
Qed.

Lemma drag_keeps_caption_in_shape_witness :
  let ed := scenarioEditor (Some "a"%string) in
  hitTest (selectedSubId ed) (xToTime (550 - 0) 11 1000 50)
          (handleHitWidth / 50) (subtitles (stateRef ed))
  = Some ("a"%string, HitRight)
  /\ exists sub',
       nth_error
         (subtitles
            (stateRef (run (PointerDown 550 :: map PointerMove ([] ++ [300]))
                           ed))) 0
       = Some sub'
       /\ start sub' = 10 /\ 0.2 <= end_ sub' - start sub'.
Proof.
  cbv zeta. split; [reflexivity |].
  assert (Hids : NoDup (map id [mkSubtitle "a" 10 12 "hi"]))
    by (constructor; [intros [] | constructor]).
  exact (drag_keeps_caption_in_shape (scenarioEditor (Some "a"%string))
           (mkCanvas 1000 0) (mkVideo 11 true false 60 1 1920 1080)
           HitRight 550 [] 300 0%nat (mkSubtitle "a" 10 12 "hi")
           eq_refl eq_refl eq_refl Hids eq_refl eq_refl eq_refl).
Defined.

Lemma Qmax_eq_r (a b : Q) : a <= b -> Qmax a b == b.
Proof. intros H. destruct (Q.max_spec a b) as [[_ E] | [H' E]]; lra. Qed.

Lemma Qmax_eq_l (a b : Q) : b <= a -> Qmax a b == a.
Proof. intros H. destruct (Q.max_spec a b) as [[H' E] | [_ E]]; lra. Qed.

Lemma Qmin_eq_l (a b : Q) : a <= b -> Qmin a b == a.
Proof. intros H. destruct (Q.min_spec a b) as [[_ E] | [H' E]]; lra. Qed.

(** X8. No drift.  With unique ids, when the pointer comes back to where
    it went down, whatever pointer-moves came in between, a caption that
    starts at a non-negative time and is long enough (0.1 s for a move,
    0.2 s for a resize) is back at its original start and end. *)
Theorem drag_back_restores_caption
  (ed : Editor) (canvas : Canvas) (video : Video) (hitType : HitType)
  (x0 : Q) (xs : list Q) (i : nat) (sub : Subtitle) :
  let st := stateRef ed in
  let t := xToTime (x0 - rectLeft canvas) (currentTime video) (width canvas)
                   (zoomLevel st) in
  let ed' := run (PointerDown x0 :: map PointerMove (xs ++ [x0])) ed in
  canvasRef ed = Some canvas ->
  videoRef ed = Some video ->
  0 < zoomLevel st ->
  NoDup (map id (subtitles st)) ->
  nth_error (subtitles st) i = Some sub ->
  truthy (id sub) = true ->
  hitTest (selectedSubId ed) t (handleHitWidth / zoomLevel st) (subtitles st)
  = Some (id sub, hitType) ->
  0 <= start sub ->
  (if isHitBody hitType then 0.1 else 0.2) <= end_ sub - start sub ->
  exists sub',
    nth_error (subtitles (stateRef ed')) i = Some sub'
    /\ id sub' = id sub /\ text sub' = text sub
    /\ start sub' == start sub /\ end_ sub' == end_ sub.
Proof.
  intros st t ed' Hc Hv Hzoom Hnd Hnth Hy Hhit Hstart Hlong. subst ed'.
  destruct (handlePointerDown_hit ed canvas video x0 (id sub) hitType
              Hc Hv Hhit Hy) as (snapshot & Hfind & _ & Hdown).
  fold st in Hfind. rewrite (find_unique_id _ Hnd i sub Hnth) in Hfind.
  injection Hfind as <-.
  rewrite run_drag, Hdown.
  match goal with
  | |- context [moves _ ?e] => set (ed1 := e)
  end.
  assert (Hv1 : videoRef ed1 <> None) by discriminate.
  assert (Hdt : (x0 - rectLeft canvas - (x0 - rectLeft canvas))
                / zoomLevel st == 0).
  { field. intros E. rewrite E in Hzoom. lra. }
  destruct (hitTest_find _ _ _ _ _ _ Hhit) as [Hty _].
  destruct hitType; [now contradiction Hty | | |]; cbn [isHitBody] in Hlong.
  - rewrite (drag_move ed1 canvas (id sub) xs x0 eq_refl Hv1 eq_refl eq_refl
               Hy i sub Hnth eq_refl eq_refl).
    eexists. split; [reflexivity |]. cbn [id text start end_ ed1 stateRef
      dragOriginalStart dragOriginalEnd dragStartX zoomLevel].
    fold st. split; [reflexivity |]. split; [reflexivity |].
    set (dt := (x0 - rectLeft canvas - (x0 - rectLeft canvas))
               / zoomLevel st) in *.
    assert (E1 : Qmax 0 (start sub + dt) == start sub)
      by (rewrite Qmax_eq_r; lra).
    split; [exact E1 |].
    rewrite Qmax_eq_r; lra.
  - rewrite (drag_resize_left ed1 canvas (id sub) xs x0 eq_refl Hv1 eq_refl
               eq_refl Hy i sub Hnth eq_refl eq_refl).
    eexists. split; [reflexivity |]. cbn [id text start end_ ed1 stateRef
      dragOriginalStart dragOriginalEnd dragStartX zoomLevel].
    fold st. split; [reflexivity |]. split; [reflexivity |].
    set (dt := (x0 - rectLeft canvas - (x0 - rectLeft canvas))
               / zoomLevel st) in *.
    split; [| reflexivity].
    assert (E1 : Qmax 0 (start sub + dt) == start sub)
      by (rewrite Qmax_eq_r; lra).
    rewrite Qmin_eq_l; lra.
  - rewrite (drag_resize_right ed1 canvas (id sub) xs x0 eq_refl Hv1 eq_refl
               eq_refl Hy i sub Hnth eq_refl eq_refl).
    eexists. split; [reflexivity |]. cbn [id text start end_ ed1 stateRef
      dragOriginalStart dragOriginalEnd dragStartX zoomLevel].
    fold st. split; [reflexivity |]. split; [reflexivity |].
    set (dt := (x0 - rectLeft canvas - (x0 - rectLeft canvas))
               / zoomLevel st) in *.
    split; [reflexivity |].
    rewrite Qmax_eq_r; lra.
Qed.

Lemma drag_back_restores_caption_witness :
  let ed := scenarioEditor None in
  hitTest (selectedSubId ed) (xToTime (500 - 0) 11 1000 50)
          (handleHitWidth / 50) (subtitles (stateRef ed))
  = Some ("a"%string, HitBody)
  /\ exists sub',
       nth_error
         (subtitles
            (stateRef
               (run (PointerDown 500 :: map PointerMove ([550; 0] ++ [500]))
                    ed))) 0
       = Some sub'
       /\ start sub' == 10 /\ end_ sub' == 12.
Proof.
  cbv zeta. split; [reflexivity |].
  assert (Hids : NoDup (map id [mkSubtitle "a" 10 12 "hi"]))
    by (constructor; [intros [] | constructor]).
  assert (Hstart : 0 <= 10) by discriminate.
  assert (Hlong : 0.1 <= 12 - 10) by discriminate.
  destruct (drag_back_restores_caption (scenarioEditor None)
              (mkCanvas 1000 0) (mkVideo 11 true false 60 1 1920 1080)
              HitBody 500 [550; 0] 0%nat (mkSubtitle "a" 10 12 "hi")
              eq_refl eq_refl eq_refl Hids eq_refl eq_refl eq_refl
              Hstart Hlong)
    as (sub' & Hnth & _ & _ & Hs & He).
  exists sub'. split; [exact Hnth |]. split; [exact Hs | exact He].
Defined.

(** ** More of the waveform rasterizer *)

Lemma peakLoop_strideLoop data safeEnd stride :
  forall fuel j acc,
    peakLoop fuel data safeEnd stride j acc
    = strideLoop fuel (peakStep data) safeEnd stride j acc.
Proof.
  induction fuel as [| fuel IH]; intros j acc; [reflexivity |].
  cbn [peakLoop strideLoop]. now rewrite IH.
Qed.

(** The loop makes at most ceil((safeEnd - j) / stride) passes. *)
Lemma strideLoop_count safeEnd stride :
  (1 <= stride)%Z ->
  forall fuel j n,
    (strideLoop fuel (fun _ m => S m) safeEnd stride j n
     <= n + Z.to_nat ((safeEnd - j + stride - 1) / stride))%nat.
Proof.
  intros Hstride. induction fuel as [| fuel IH]; intros j n; [cbn; lia |].
  cbn [strideLoop]. destruct (Z.ltb_spec j safeEnd); [| lia].
  specialize (IH (j + stride)%Z (S n)).
  assert (Hdiv : ((safeEnd - j + stride - 1) / stride
                  = (safeEnd - (j + stride) + stride - 1) / stride + 1)%Z).
  { replace (safeEnd - j + stride - 1)%Z
      with ((safeEnd - (j + stride) + stride - 1) + 1 * stride)%Z by lia.
    rewrite Z.div_add by lia. reflexivity. }
  assert (0 <= (safeEnd - (j + stride) + stride - 1) / stride)%Z
    by (apply Z.div_pos; lia).
  lia.
Qed.

(** X9. The cost of a bar is bounded whatever the zoom: the peak-sampling
    loop reads at most 79 samples of a bucket, and never more than the
    bucket holds. *)
Theorem peak_sampling_reads_at_most_79 (safeStart safeEnd : Z) :
  (forall data,
      peakSample data safeStart safeEnd
      = strideLoop (Z.to_nat (safeEnd - safeStart)) (peakStep data) safeEnd
                   (Z.max 1 ((safeEnd - safeStart) / 40)) safeStart
                   (1, -(1), false))
  /\ (samplesRead safeStart safeEnd <= 79)%nat
  /\ (samplesRead safeStart safeEnd <= Z.to_nat (safeEnd - safeStart))%nat.
Proof.
  split; [intros data; apply peakLoop_strideLoop |].
  unfold samplesRead. cbv zeta.
  set (n := (safeEnd - safeStart)%Z).
  set (stride := Z.max 1 (n / 40)).
  assert (Hstride : (1 <= stride)%Z) by (subst stride; lia).
  pose proof (strideLoop_count safeEnd stride Hstride (Z.to_nat n) safeStart O)
    as Hcount.
  fold n in Hcount. cbn [Nat.add] in Hcount.
  destruct (Z.le_gt_cases n 0) as [Hn | Hn].
  - assert (E : Z.to_nat n = O) by lia. rewrite E. cbn. lia.
  - assert (Hq : ((n + stride - 1) / stride <= 79)%Z
                 /\ ((n + stride - 1) / stride <= n)%Z).
    { split.
      - apply Z.div_le_upper_bound; [lia |].
        subst stride. pose proof (Z.div_mod n 40 ltac:(lia)) as Hdm.
        pose proof (Z.mod_pos_bound n 40 ltac:(lia)). lia.
      - apply Z.div_le_upper_bound; [lia |]. nia. }
    lia.
Qed.

(** The peaks only widen, and cover every sample the loop reads. *)
Lemma peakStep_widens data j mn mx b :
  let '(mn', mx', _) := peakStep data j (mn, mx, b) in
  mn' <= mn /\ mx <= mx'
  /\ forall v, sampleAt data j = Some v -> mn' <= v /\ v <= mx'.
Proof.
  unfold peakStep. destruct (sampleAt data j) as [val |].
  - destruct (Qltb val mn) eqn:Hmin; destruct (Qltb mx val) eqn:Hmax;
      try apply Qltb_lt in Hmin; try apply Qltb_lt in Hmax;
      try apply Qltb_ge in Hmin; try apply Qltb_ge in Hmax;
      (split; [lra |]); (split; [lra |]);
      intros v [= <-]; split; lra.
  - split; [lra |]. split; [lra |]. discriminate.
Qed.

Lemma peakLoop_covers data safeEnd stride :
  (1 <= stride)%Z ->
  forall fuel j mn mx b,
    (Z.to_nat (safeEnd - j) <= fuel)%nat ->
    let '(mn', mx', _) := peakLoop fuel data safeEnd stride j (mn, mx, b) in
    mn' <= mn /\ mx <= mx'
    /\ forall k v,
         (0 <= k)%Z -> (j + k * stride < safeEnd)%Z ->
         sampleAt data (j + k * stride) = Some v ->
         mn' <= v /\ v <= mx'.
Proof.
  intros Hstride. induction fuel as [| fuel IH]; intros j mn mx b Hfuel.
  - cbn [peakLoop]. split; [lra |]. split; [lra |].
    intros k v Hk Hlt. nia.
  - cbn [peakLoop]. destruct (Z.ltb_spec j safeEnd) as [Hj | Hj].
    + pose proof (peakStep_widens data j mn mx b) as Hstep.
      destruct (peakStep data j (mn, mx, b)) as [[mn1 mx1] b1].
      destruct Hstep as (Hmn1 & Hmx1 & Hj1).
      specialize (IH (j + stride)%Z mn1 mx1 b1 ltac:(lia)).
      destruct (peakLoop fuel data safeEnd stride (j + stride) (mn1, mx1, b1))
        as [[mn' mx'] b'].
      destruct IH as (Hmn' & Hmx' & Hrest).
      split; [lra |]. split; [lra |].
      intros k v Hk Hlt Hv.
      destruct (Z.eq_dec k 0) as [-> | Hk0].
      * rewrite Z.mul_0_l, Z.add_0_r in Hv.
        destruct (Hj1 v Hv). split; lra.
      * apply (Hrest (k - 1)%Z v); [lia | nia |].
        replace (j + stride + (k - 1) * stride)%Z with (j + k * stride)%Z
          by ring. exact Hv.
    + split; [lra |]. split; [lra |]. intros k v Hk Hlt. nia.
Qed.

(** What a pass of the bucket loop that fills a bar has computed. *)
Lemma bucketStep_Fill_inv audio width height zoom currentTime step i bar :
  bucketStep audio width height zoom currentTime step i = Fill bar ->
  let len := Z.of_nat (List.length (channelData audio)) in
  let xStart :=
    timeToX (inject_Z (i * step) / sampleRate audio) currentTime width zoom in
  let xEnd :=
    timeToX (inject_Z (i * step + step) / sampleRate audio) currentTime width
            zoom in
  bucket bar = i
  /\ peakSample (channelData audio) (Z.max 0 (i * step))
                (Z.min len (i * step + step))
     = (barMin bar, barMax bar, true)
  /\ rectX bar = Qfloor xStart
  /\ rectW bar = Z.max 1 (Qceiling xEnd - Qfloor xStart)
  /\ inject_Z (rectX bar) <= width
  /\ (0 <= rectX bar + rectW bar)%Z
  /\ (1 <= rectH bar)%Z
  /\ barMin bar <= barMax bar
  /\ (0 <= i * step + step)%Z /\ (i * step < len)%Z.
Proof.
  unfold bucketStep. cbv zeta.
  destruct (Z.ltb_spec (i * step + step) 0) as [Hneg | Hneg];
    [discriminate |].
  destruct (Z.leb_spec (Z.of_nat (List.length (channelData audio)))
              (i * step)) as [Hout | Hout]; [discriminate |].
  cbn [orb].
  destruct (Qltb width _) eqn:Hright; [discriminate |].
  apply Qltb_ge in Hright.
  destruct (Z.ltb_spec (Qfloor (timeToX (inject_Z (i * step)
                                         / sampleRate audio)
                                        currentTime width zoom)
                        + Z.max 1 (Qceiling (timeToX
                                               (inject_Z (i * step + step)
                                                / sampleRate audio)
                                               currentTime width zoom)
                                   - Qfloor (timeToX (inject_Z (i * step)
                                                      / sampleRate audio)
                                                     currentTime width zoom)))
              0) as [Hleft | Hleft]; [discriminate |].
  destruct (peakSample _ _ _) as [[mn mx] hasData].
  destruct hasData; cbn [andb]; [| discriminate].
  destruct (Qle_bool mn mx) eqn:Hle; [| discriminate].
  apply Qle_bool_iff in Hle.
  destruct (Qltb (mx - mn) 0.005);
    intros [= <-]; cbn [bucket barMin barMax rectX rectY rectW rectH];
    repeat split; auto; lia.
Qed.

(** X10. Every bar the waveform draws is a proper rectangle on the canvas
    for a bucket inside the buffer: at least one pixel wide and one pixel
    high, its left edge not beyond the right edge of the canvas and its
    right edge not before the left edge, with min <= max; and its bucket
    overlaps the samples of the buffer. *)
Theorem waveform_bars_are_proper
  (audio : AudioBuffer) (width height zoom currentTime : Q) (bar : Bar) :
  In bar (drawWaveform audio width height zoom currentTime) ->
  let step := bucketSamples audio zoom in
  let len := Z.of_nat (List.length (channelData audio)) in
  (1 <= rectW bar)%Z
  /\ (1 <= rectH bar)%Z
  /\ inject_Z (rectX bar) <= width
  /\ (0 <= rectX bar + rectW bar)%Z
  /\ barMin bar <= barMax bar
  /\ (0 <= bucket bar * step + step)%Z
  /\ (bucket bar * step < len)%Z.
Proof.
  intros Hin step len. apply drawWaveform_In in Hin as [i Hfill].
  apply bucketStep_Fill_inv in Hfill.
  cbv zeta in Hfill.
  destruct Hfill as (-> & _ & _ & Hw & Hx & Hxw & Hh & Hmm & Hlo & Hhi).
  split; [rewrite Hw; lia |]. tauto.
Qed.

Lemma waveform_bars_are_proper_witness :
  let bar := mkBar 1 0 0.75 3 50 1 34 in
  In bar (drawWaveform sampleAudio 8 100 2 1)
  /\ (1 <= rectW bar)%Z
  /\ (1 <= rectH bar)%Z
  /\ inject_Z (rectX bar) <= 8
  /\ barMin bar <= barMax bar.
Proof.
  cbv zeta.
  assert (Hbar : In (mkBar 1 0 0.75 3 50 1 34)
                    (drawWaveform sampleAudio 8 100 2 1))
    by (vm_compute; right; left; reflexivity).
  split; [exact Hbar |].
  destruct (waveform_bars_are_proper sampleAudio 8 100 2 1 _ Hbar)
    as (Hw & Hh & Hx & _ & Hminmax & _).
  split; [exact Hw |]. split; [exact Hh |].
  split; [exact Hx | exact Hminmax].
Defined.

(** X11. A bar covers what was read for it: every sample the
    peak-sampling loop reads (the first sample of the bucket inside the
    buffer, then every stride-th one) lies between the bar's min and max;
    and for a bucket holding fewer than 80 samples the stride is 1, so every
    sample of the bucket does. *)
Theorem waveform_bar_covers_samples
  (audio : AudioBuffer) (width height zoom currentTime : Q) (bar : Bar) :
  In bar (drawWaveform audio width height zoom currentTime) ->
  let step := bucketSamples audio zoom in
  let len := Z.of_nat (List.length (channelData audio)) in
  let safeStart := Z.max 0 (bucket bar * step) in
  let safeEnd := Z.min len (bucket bar * step + step) in
  let stride := Z.max 1 ((safeEnd - safeStart) / 40) in
  (forall k v,
      (0 <= k)%Z -> (safeStart + k * stride < safeEnd)%Z ->
      sampleAt (channelData audio) (safeStart + k * stride) = Some v ->
      barMin bar <= v /\ v <= barMax bar)
  /\ ((safeEnd - safeStart < 80)%Z ->
      forall j v,
        (safeStart <= j < safeEnd)%Z ->
        sampleAt (channelData audio) j = Some v ->
        barMin bar <= v /\ v <= barMax bar).
Proof.
  intros Hin step len safeStart safeEnd stride.
  apply drawWaveform_In in Hin as [i Hfill].
  apply bucketStep_Fill_inv in Hfill. cbv zeta in Hfill.
  destruct Hfill as (Hb & Hpeaks & _). rewrite <- Hb in Hpeaks.
  fold step len in Hpeaks. fold safeStart safeEnd in Hpeaks.
  unfold peakSample in Hpeaks. cbv zeta in Hpeaks. fold stride in Hpeaks.
  assert (Hstride : (1 <= stride)%Z) by (subst stride; lia).
  pose proof (peakLoop_covers (channelData audio) safeEnd stride Hstride
                (Z.to_nat (safeEnd - safeStart)) safeStart 1 (-(1)) false
                (Nat.le_refl _)) as Hcov.
  rewrite Hpeaks in Hcov. destruct Hcov as (_ & _ & Hcov).
  split; [exact Hcov |].
  intros Hsmall j v Hj Hv.
  assert (E : stride = 1%Z).
  { subst stride. assert ((safeEnd - safeStart) / 40 <= 1)%Z; [| lia].
    apply Z.lt_succ_r. apply Z.div_lt_upper_bound; lia. }
  apply (Hcov (j - safeStart)%Z v); [lia | rewrite E; lia |].
  rewrite E. replace (safeStart + (j - safeStart) * 1)%Z with j by ring.
  exact Hv.
Qed.

Lemma waveform_bar_covers_samples_witness :
  let bar := mkBar 1 0 0.75 3 50 1 34 in
  In bar (drawWaveform sampleAudio 8 100 2 1)
  /\ bucketSamples sampleAudio 2 = 2%Z
  /\ forall j v,
       (2 <= j < 4)%Z ->
       sampleAt (channelData sampleAudio) j = Some v ->
       barMin bar <= v /\ v <= barMax bar.
Proof.
  cbv zeta.
  assert (Hbar : In (mkBar 1 0 0.75 3 50 1 34)
                    (drawWaveform sampleAudio 8 100 2 1))
    by (vm_compute; right; left; reflexivity).
  split; [exact Hbar |]. split; [reflexivity |].
  exact (proj2 (waveform_bar_covers_samples sampleAudio 8 100 2 1 _ Hbar)
               eq_refl).
Defined.

(** X12. Consecutive buckets tile the canvas: when buckets i and i + 1
    are both drawn, the bar of i + 1 starts no further right than where the
    bar of i ends (no gap), and, unless the bar of i was widened to the
    one-pixel minimum, at most one pixel before it. *)
Theorem consecutive_bars_leave_no_gap
  (audio : AudioBuffer) (width height zoom currentTime : Q)
  (bar1 bar2 : Bar) :
  In bar1 (drawWaveform audio width height zoom currentTime) ->
  In bar2 (drawWaveform audio width height zoom currentTime) ->
  bucket bar2 = (bucket bar1 + 1)%Z ->
  (rectX bar2 <= rectX bar1 + rectW bar1)%Z
  /\ ((1 < rectW bar1)%Z -> (rectX bar1 + rectW bar1 <= rectX bar2 + 1)%Z).
Proof.
  intros Hin1 Hin2 Hnext.
  apply drawWaveform_In in Hin1 as [i1 H1].
  apply drawWaveform_In in Hin2 as [i2 H2].
  apply bucketStep_Fill_inv in H1. apply bucketStep_Fill_inv in H2.
  cbv zeta in H1, H2.
  destruct H1 as (Hb1 & _ & Hx1 & Hw1 & _).
  destruct H2 as (Hb2 & _ & Hx2 & _).
  assert (E : (i2 * bucketSamples audio zoom
               = i1 * bucketSamples audio zoom + bucketSamples audio zoom)%Z).
  { rewrite <- Hb1, <- Hb2, Hnext. ring. }
  rewrite E in Hx2.
  set (xEnd := timeToX _ currentTime width zoom) in Hw1, Hx2.
  assert (Hfc : (Qfloor xEnd <= Qceiling xEnd <= Qfloor xEnd + 1)%Z).
  { pose proof (Qfloor_le xEnd). pose proof (Qle_ceiling xEnd).
    pose proof (Qlt_floor xEnd). pose proof (Qceiling_lt xEnd).
    split.
    - rewrite Zle_Qle. lra.
    - assert (Qceiling xEnd - 1 < Qfloor xEnd + 1)%Z; [| lia].
      rewrite Zlt_Qlt. lra. }
  rewrite Hx2, Hw1, Hx1. lia.
Qed.

Lemma consecutive_bars_leave_no_gap_witness :
  let bar1 := mkBar 1 0 0.75 3 50 1 34 in
  let bar2 := mkBar 2 (-(1)) 0.125 4 5 1 51 in
  In bar1 (drawWaveform sampleAudio 8 100 2 1)
  /\ In bar2 (drawWaveform sampleAudio 8 100 2 1)
  /\ (rectX bar2 <= rectX bar1 + rectW bar1)%Z.
Proof.
  cbv zeta.
  assert (Hbar1 : In (mkBar 1 0 0.75 3 50 1 34)
                     (drawWaveform sampleAudio 8 100 2 1))
    by (vm_compute; right; left; reflexivity).
  assert (Hbar2 : In (mkBar 2 (-(1)) 0.125 4 5 1 51)
                     (drawWaveform sampleAudio 8 100 2 1))
    by (vm_compute; right; right; left; reflexivity).
  split; [exact Hbar1 |]. split; [exact Hbar2 |].
  exact (proj1 (consecutive_bars_leave_no_gap sampleAudio 8 100 2 1 _ _
                  Hbar1 Hbar2 eq_refl)).
Defined.

(** ** More of the export *)

(** X13. Preview and export agree: for the same captions and playback
    time, the live overlay is displayed exactly when a rendered frame fills
    caption text, and then shows the text the frame fills. *)
Theorem overlay_shows_what_export_burns
  (app : Export) (video : Video) (canvas : RenderCanvas) (recorder : Recorder)
  (overlay : Overlay) :
  exportVideo app = Some video ->
  renderCanvas app = Some canvas ->
  mediaRecorder app = Some recorder ->
  ended video = false ->
  exists overlay' cmds lineWidth,
    updateOverlay (exportVideo app) (Some overlay) (subtitlesRef app)
    = Some overlay'
    /\ renderCanvas (renderFrame app)
       = Some (mkRenderCanvas (canvasWidth canvas) (canvasHeight canvas)
                              lineWidth (drawn canvas ++ cmds))
    /\ filledTexts cmds
       = (if displayed overlay' then [innerText overlay'] else [])
    /\ (displayed overlay' = false -> innerText overlay' = innerText overlay).
Proof.
  intros Hv Hc Hr Hended.
  pose proof (filledTexts_compositeFrame video canvas (subtitlesRef app)
                (styleRef app)) as Htexts.
  unfold renderFrame, updateOverlay. rewrite Hv, Hc, Hr, Hended. cbv zeta.
  destruct (compositeFrame video canvas (subtitlesRef app) (styleRef app))
    as [cmds lineWidth].
  cbn [fst] in Htexts.
  destruct (find (activeAt (currentTime video)) (subtitlesRef app)) as [s |];
    eexists; exists cmds, lineWidth;
    (split; [reflexivity |]); (split; [reflexivity |]);
    cbn [displayed innerText]; split; auto.
  discriminate.
Qed.

Lemma overlay_shows_what_export_burns_witness :
  let app := exportAt 3 overlappingCaptions in
  exists overlay' cmds lineWidth,
    updateOverlay (exportVideo app) (Some (mkOverlay "old" false))
                  (subtitlesRef app)
    = Some overlay'
    /\ renderCanvas (renderFrame app)
       = Some (mkRenderCanvas 1920 1080 lineWidth ([] ++ cmds))
    /\ filledTexts cmds
       = (if displayed overlay' then [innerText overlay'] else []).
Proof.
  cbv zeta.
  destruct (overlay_shows_what_export_burns
              (exportAt 3 overlappingCaptions)
              (mkVideo 3 false false 10 0 1920 1080)
              (mkRenderCanvas 1920 1080 1 [])
              (mkRecorder "video/webm" "webm" true)
              (mkOverlay "old" false)
              eq_refl eq_refl eq_refl eq_refl)
    as (overlay' & cmds & lineWidth & Hoverlay & Hcanvas & Htexts & _).
  exists overlay', cmds, lineWidth.
  split; [exact Hoverlay |]. split; [exact Hcanvas | exact Htexts].
Defined.

(** ** The export dialog *)

Lemma startRendering_keeps browser app :
  previousVolume (startRendering browser app) = previousVolume app
  /\ (exportVideo app = None
      <-> exportVideo (startRendering browser app) = None).
Proof.
  unfold startRendering, startRenderingWith.
  destruct (exportVideo app) as [video |] eqn:Hv; [| now rewrite Hv].
  destruct (renderCanvas app) as [canvas |]; [| now rewrite Hv].
  destruct (videoSrc app) as [src |]; [| now rewrite Hv].
  destruct (truthy src); cbn [negb]; [| now rewrite Hv].
  destruct (hasContext2d browser); cbn [negb];
    [| split; [reflexivity | split; discriminate]].
  destruct (truthy (selectMimeType _ _)); cbn [negb];
    (split; [reflexivity | split; discriminate]).
Qed.

Lemma renderFrame_keeps app :
  previousVolume (renderFrame app) = previousVolume app
  /\ (exportVideo app = None <-> exportVideo (renderFrame app) = None).
Proof.
  unfold renderFrame.
  destruct (exportVideo app) as [video |] eqn:Hv; [| now rewrite Hv].
  destruct (renderCanvas app) as [canvas |]; [| now rewrite Hv].
  destruct (mediaRecorder app) as [recorder |]; [| now rewrite Hv].
  destruct (ended video);
    [split; [reflexivity | split; discriminate] |].
  destruct (compositeFrame _ _ _ _).
  split; [reflexivity | split; discriminate].
Qed.

Lemma frames_keeps n : forall ui,
  previousVolume (exportState (frames n ui)) = previousVolume (exportState ui)
  /\ (exportVideo (exportState ui) = None
      <-> exportVideo (exportState (frames n ui)) = None)
  /\ isExportingVideo (frames n ui) = isExportingVideo ui
  /\ downloads (frames n ui) = downloads ui.
Proof.
  induction n as [| n IH]; intros ui; [cbn; tauto |].
  cbn [frames]. destruct (IH (dialogFrame ui)) as (Hp & Hv & Hd & Hl).
  destruct (renderFrame_keeps (exportState ui)) as [Hp1 Hv1].
  cbn [dialogFrame exportState isExportingVideo downloads] in *.
  rewrite Hp, Hp1, Hd, Hl. tauto.
Qed.

(** X14. An export session gives the volume back: opening the dialog on a
    loaded video, starting the render (muted or not, whatever the browser
    supports), rendering any number of frames and closing the dialog leaves
    the video paused at the volume it had when the dialog opened, the status
    idle, the dialog closed and no recorder recording. *)
Theorem export_session_restores_volume
  (browser : Browser) (n : nat) (ui : ExportDialog)
  (video : Video) (src : string) :
  exportVideo (exportState ui) = Some video ->
  videoSrc (exportState ui) = Some src ->
  truthy src = true ->
  let ui' := closeExport (frames n (dialogStart browser (handleExportVideo ui)))
  in
  isExportingVideo ui' = false
  /\ renderStatus (exportState ui') = Idle
  /\ (forall recorder,
         mediaRecorder (exportState ui') = Some recorder ->
         recording recorder = false)
  /\ exists video',
       exportVideo (exportState ui') = Some video'
       /\ volume video' = volume video
       /\ paused video' = true.
Proof.
  intros Hv Hs Hy ui'. subst ui'.
  set (opened := handleExportVideo ui).
  assert (Hopened : previousVolume (exportState opened) = volume video
                    /\ exportVideo (exportState opened) <> None).
  { subst opened. unfold handleExportVideo. rewrite Hs, Hy, Hv. cbn.
    split; [reflexivity | discriminate]. }
  destruct Hopened as [Hprev Hsome].
  set (started := dialogStart browser opened).
  destruct (startRendering_keeps browser (exportState opened)) as [Hp1 Hv1].
  destruct (frames_keeps n started) as (Hp2 & Hv2 & _ & _).
  cbn [started dialogStart exportState] in Hp2, Hv2.
  unfold closeExport. cbn [isExportingVideo exportState renderStatus
                           mediaRecorder exportVideo].
  split; [reflexivity |]. split; [reflexivity |]. split.
  - destruct (mediaRecorder _); [intros r' [= <-]; reflexivity | discriminate].
  - destruct (exportVideo (exportState (frames n started))) as [video' |]
      eqn:Hv'.
    + exists (restoreVideo (exportState (frames n started)) video').
      split; [reflexivity |]. cbn [restoreVideo volume paused].
      split; [| reflexivity]. subst started. cbn [dialogStart] in *. congruence.
    + exfalso. apply Hsome. apply Hv1. apply Hv2. reflexivity.
Qed.

Lemma export_session_restores_volume_witness :
  let ui := mkExportDialog false exportIdle [] in
  let ui' :=
    closeExport (frames 2 (dialogStart webmBrowser (handleExportVideo ui)))
  in
  isExportingVideo ui' = false
  /\ renderStatus (exportState ui') = Idle
  /\ exists video',
       exportVideo (exportState ui') = Some video'
       /\ volume video' = 1
       /\ paused video' = true.
Proof.
  cbv zeta.
  destruct (export_session_restores_volume webmBrowser 2
              (mkExportDialog false exportIdle [])
              (mkVideo 3 true false 10 1 1920 1080) "blob:video"%string
              eq_refl eq_refl eq_refl)
    as (Hclosed & Hidle & _ & Hvideo).
  split; [exact Hclosed |]. split; [exact Hidle | exact Hvideo].
Defined.

(** X15. Closing the dialog during a recording does not discard it:
    the stop event that follows downloads a file with the recorder's
    extension, and the status ends as completed, not idle, with the dialog
    closed.  Closing it when no recorder is recording downloads nothing and
    leaves the status idle. *)
Theorem cancel_still_downloads (ui : ExportDialog) :
  let ui' := closeExportAndStop ui in
  isExportingVideo ui' = false
  /\ (forall recorder,
         mediaRecorder (exportState ui) = Some recorder ->
         recording recorder = true ->
         downloads ui' = fileExtension recorder :: downloads ui
         /\ renderStatus (exportState ui') = Completed)
  /\ ((forall recorder,
          mediaRecorder (exportState ui) = Some recorder ->
          recording recorder = false) ->
      downloads ui' = downloads ui
      /\ renderStatus (exportState ui') = Idle).
Proof.
  intros ui'. subst ui'. unfold closeExportAndStop.
  destruct (mediaRecorder (exportState ui)) as [recorder |] eqn:Hr.
  - destruct (recording recorder) eqn:Hrec.
    + unfold recorderOnStop, closeExport.
      cbn [exportState mediaRecorder]. rewrite Hr.
      cbn [isExportingVideo downloads exportState renderStatus
           fileExtension].
      split; [reflexivity |]. split.
      * intros r' [= <-] _. split; reflexivity.
      * intros Hnone. specialize (Hnone recorder eq_refl). congruence.
    + cbn [closeExport isExportingVideo downloads exportState renderStatus].
      split; [reflexivity |]. split.
      * intros r' [= <-] Hrec'. congruence.
      * intros _. split; reflexivity.
  - cbn [closeExport isExportingVideo downloads exportState renderStatus].
    split; [reflexivity |]. split; [discriminate |].
    intros _. split; reflexivity.
Qed.

(** ** Starting a render *)

(** X16. The downloaded file is named after its container: whatever the
    browser supports, the recorder that [startRendering] creates has a MIME
    type of the preference list that the browser supports, and the file
    extension is mp4 when that type is an MP4 type and webm when it is a
    WebM type. *)
Theorem recorder_extension_matches_container
  (browser : Browser) (app : Export)
  (video : Video) (canvas : RenderCanvas) (src : string) (type : string) :
  exportVideo app = Some video ->
  renderCanvas app = Some canvas ->
  videoSrc app = Some src ->
  truthy src = true ->
  hasContext2d browser = true ->
  find (isTypeSupported browser) mimeTypes = Some type ->
  exists extension,
    mediaRecorder (startRendering browser app)
    = Some (mkRecorder type extension true)
    /\ In type mimeTypes
    /\ isTypeSupported browser type = true
    /\ ((String.prefix "video/mp4" type = true /\ extension = "mp4"%string)
        \/ (String.prefix "video/webm" type = true
            /\ extension = "webm"%string)).
Proof.
  intros Hv Hc Hs Hy Hctx Hfind.
  unfold startRendering, startRenderingWith.
  rewrite Hv, Hc, Hs, Hy, Hctx, selectMimeType_find, Hfind. cbn [negb].
  apply find_some in Hfind as [Hin Hsup].
  assert (Hcases : In type mimeTypes) by exact Hin.
  unfold mimeTypes in Hcases. cbn [In] in Hcases.
  destruct Hcases as [<- | [<- | [<- | [<- | [<- | [<- | []]]]]]];
    cbn; eexists; (split; [reflexivity |]); (split; [exact Hin |]);
    (split; [exact Hsup |]); (left + right); split; reflexivity.
Qed.

Lemma recorder_extension_matches_container_witness :
  find (isTypeSupported webmBrowser) mimeTypes
  = Some "video/webm;codecs=h264"%string
  /\ exists extension,
       mediaRecorder (startRendering webmBrowser exportIdle)
       = Some (mkRecorder "video/webm;codecs=h264" extension true)
       /\ ((String.prefix "video/mp4" "video/webm;codecs=h264" = true
            /\ extension = "mp4"%string)
           \/ (String.prefix "video/webm" "video/webm;codecs=h264" = true
               /\ extension = "webm"%string)).
Proof.
  split; [reflexivity |].
  destruct (recorder_extension_matches_container webmBrowser exportIdle
              (mkVideo 3 true false 10 1 1920 1080)
              (mkRenderCanvas 300 150 1 []) "blob:video"%string
              "video/webm;codecs=h264"%string
              eq_refl eq_refl eq_refl eq_refl eq_refl eq_refl)
    as (extension & Hrecorder & _ & _ & Hext).
  exists extension. split; [exact Hrecorder | exact Hext].
Defined.

(** X17. How [startRendering] fails.  Without a video, a render canvas or
    a source it does nothing.  With them it first rewinds the video and sets
    the preview volume, and none of its failures undoes that: without a 2D
    context the status stays at rendering with no recorder created; with no
    supported type the status is idle and the volume stays at the preview
    volume; when playback is refused the status is idle although a recorder
    has been started. *)
Theorem startRendering_failures
  (browser : Browser) (app : Export) :
  ((exportVideo app = None \/ renderCanvas app = None \/ videoSrc app = None)
   -> startRendering browser app = app)
  /\ (forall video canvas src,
         exportVideo app = Some video ->
         renderCanvas app = Some canvas ->
         videoSrc app = Some src ->
         truthy src = true ->
         let app' := startRendering browser app in
         let preview := if mutePreview app then 0 else previousVolume app in
         (exists video',
             exportVideo app' = Some video'
             /\ volume video' = preview
             /\ (currentTime video' = 0))
         /\ (hasContext2d browser = false ->
             renderStatus app' = Rendering
             /\ mediaRecorder app' = mediaRecorder app)
         /\ (hasContext2d browser = true ->
             find (isTypeSupported browser) mimeTypes = None ->
             renderStatus app' = Idle
             /\ mediaRecorder app' = mediaRecorder app)
         /\ (hasContext2d browser = true ->
             find (isTypeSupported browser) mimeTypes <> None ->
             playResolves browser = false ->
             renderStatus app' = Idle
             /\ exists recorder,
                  mediaRecorder app' = Some recorder
                  /\ recording recorder = true)).
Proof.
  split.
  - unfold startRendering, startRenderingWith.
    intros [H | [H | H]]; rewrite H; [reflexivity | |];
      destruct (exportVideo app); try reflexivity.
    destruct (renderCanvas app); reflexivity.
  - intros video canvas src Hv Hc Hs Hy app' preview. subst app' preview.
    unfold startRendering, startRenderingWith.
    rewrite Hv, Hc, Hs, Hy, selectMimeType_find. cbn [negb].
    destruct (hasContext2d browser); cbn [negb].
    + destruct (find (isTypeSupported browser) mimeTypes) as [type |]
        eqn:Hfind.
      * assert (Htype : truthy type = true).
        { apply find_some in Hfind as [Hin _].
          unfold mimeTypes in Hin. cbn [In] in Hin.
          destruct Hin as [<- | [<- | [<- | [<- | [<- | [<- | []]]]]]];
            reflexivity. }
        rewrite Htype. cbn [negb].
        split; [| split; [discriminate | split; [discriminate |]]].
        -- destruct (playResolves browser); eexists;
             (split; [reflexivity |]); split; reflexivity.
        -- intros _ _ ->. cbn. split; [reflexivity |].
           eexists. split; reflexivity.
      * cbn.
        split; [| split; [discriminate | split; [auto |]]].
        -- eexists. split; [reflexivity |]. split; reflexivity.
        -- intros _ H. now contradiction H.
    + split; [| split; [auto | split; discriminate]].
      eexists. split; [reflexivity |]. split; reflexivity.
Qed.

(** ** Frames *)

(** X18. What a frame with a caption looks like.  On a context whose line
    width is positive, a frame rendered before the end of the video at a
    time some caption contains is the video frame, then the caption's text
    stroked, then the same text filled at the same place: centred
    horizontally and one and a half font sizes above the bottom, the font
    size being floor(height * fontSize / 100).  The stroke is never left
    out: a stroke width that is not positive leaves the context's line
    width as it was, and the line width stays positive. *)
Theorem caption_is_stroked_then_filled
  (app : Export) (video : Video) (canvas : RenderCanvas) (recorder : Recorder)
  (s : Subtitle) :
  exportVideo app = Some video ->
  renderCanvas app = Some canvas ->
  mediaRecorder app = Some recorder ->
  ended video = false ->
  0 < ctxLineWidth canvas ->
  find (activeAt (currentTime video)) (subtitlesRef app) = Some s ->
  let style := styleRef app in
  let px := Qfloor (canvasHeight canvas * (fontSize style / 100)) in
  let x := canvasWidth canvas / 2 in
  let y := canvasHeight canvas - inject_Z px * 1.5 in
  let requested := inject_Z px * (strokeWidth style / 100) in
  let lineWidth := if Qltb 0 requested then requested
                   else ctxLineWidth canvas in
  0 < lineWidth
  /\ renderCanvas (renderFrame app)
     = Some (mkRenderCanvas (canvasWidth canvas) (canvasHeight canvas)
               lineWidth
               (drawn canvas
                ++ [DrawImage (canvasWidth canvas) (canvasHeight canvas);
                    StrokeText (text s) x y px lineWidth;
                    FillText (text s) x y px (color style)])).
Proof.
  intros Hv Hc Hr Hended Hlw Hfind style px x y requested lineWidth.
  assert (Hpos : 0 < lineWidth).
  { subst lineWidth. destruct (Qltb 0 requested) eqn:E; [| exact Hlw].
    now apply Qltb_lt. }
  split; [exact Hpos |].
  unfold renderFrame. rewrite Hv, Hc, Hr, Hended.
  unfold compositeFrame. rewrite Hfind. cbv zeta.
  unfold setLineWidth. fold style. fold px. fold requested. fold lineWidth.
  apply Qltb_lt in Hpos. rewrite Hpos. reflexivity.
Qed.

Lemma caption_is_stroked_then_filled_witness :
  let app := exportAt 3 overlappingCaptions in
  let px := Qfloor (1080 * (5 / 100)) in
  let lineWidth := inject_Z px * (15 / 100) in
  px = 54%Z
  /\ renderCanvas (renderFrame app)
     = Some (mkRenderCanvas 1920 1080 lineWidth
               ([]
                ++ [DrawImage 1920 1080;
                    StrokeText "Hello" (1920 / 2)
                               (1080 - inject_Z px * 1.5) px lineWidth;
                    FillText "Hello" (1920 / 2)
                             (1080 - inject_Z px * 1.5) px "#FFFFFF"])).
Proof.
  cbv zeta. split; [reflexivity |].
  assert (Hwidth : 0 < 1) by reflexivity.
  exact (proj2 (caption_is_stroked_then_filled
                  (exportAt 3 overlappingCaptions)
                  (mkVideo 3 false false 10 0 1920 1080)
                  (mkRenderCanvas 1920 1080 1 [])
                  (mkRecorder "video/webm" "webm" true)
                  (mkSubtitle "a" 2 4 "Hello")
                  eq_refl eq_refl eq_refl eq_refl Hwidth eq_refl)).
Defined.

(** X19. An export that runs to the end gives the volume back as well:
    after opening the dialog on a loaded video, starting the render and
    rendering any number of frames, the frame callback that finds the video
    ended draws nothing, stops the recorder and leaves the video paused at
    the volume it had when the dialog opened, with the status completed. *)
Theorem export_completion_restores_volume
  (browser : Browser) (n : nat) (ui : ExportDialog)
  (video : Video) (src : string)
  (canvas : RenderCanvas) (recorder : Recorder) :
  exportVideo (exportState ui) = Some video ->
  videoSrc (exportState ui) = Some src ->
  truthy src = true ->
  let rendered :=
    exportState (frames n (dialogStart browser (handleExportVideo ui))) in
  renderCanvas rendered = Some canvas ->
  mediaRecorder rendered = Some recorder ->
  let app' := renderFrame (videoEnds rendered) in
  renderStatus app' = Completed
  /\ renderCanvas app' = Some canvas
  /\ mediaRecorder app'
     = Some (mkRecorder (mimeType recorder) (fileExtension recorder) false)
  /\ exists video',
       exportVideo app' = Some video'
       /\ volume video' = volume video
       /\ paused video' = true
       /\ ended video' = true.
Proof.
  intros Hv Hs Hy rendered Hc Hr app'. subst app'.
  set (opened := handleExportVideo ui).
  assert (Hopened : previousVolume (exportState opened) = volume video
                    /\ exportVideo (exportState opened) <> None).
  { subst opened. unfold handleExportVideo. rewrite Hs, Hy, Hv. cbn.
    split; [reflexivity | discriminate]. }
  destruct Hopened as [Hprev Hsome].
  destruct (startRendering_keeps browser (exportState opened)) as [Hp1 Hv1].
  destruct (frames_keeps n (dialogStart browser opened)) as (Hp2 & Hv2 & _).
  cbn [dialogStart exportState] in Hp2, Hv2.
  fold opened in rendered. fold rendered in Hp2, Hv2.
  destruct (exportVideo rendered) as [video1 |] eqn:Hv';
    [| exfalso; apply Hsome; apply Hv1; apply Hv2; reflexivity].
  unfold renderFrame, videoEnds.
  cbn [exportVideo renderCanvas mediaRecorder previousVolume videoSrc
       mutePreview subtitlesRef styleRef alerts exportProgress].
  rewrite Hv', Hc, Hr. cbn [option_map ended].
  cbn [renderStatus renderCanvas mediaRecorder exportVideo].
  split; [reflexivity |]. split; [reflexivity |]. split; [reflexivity |].
  eexists. split; [reflexivity |]. cbn [volume paused ended].
  split; [congruence |]. split; reflexivity.
Qed.

Lemma export_completion_restores_volume_witness :
  let ui := mkExportDialog false exportIdle [] in
  let rendered :=
    exportState (frames 2 (dialogStart webmBrowser (handleExportVideo ui)))
  in
  let app' := renderFrame (videoEnds rendered) in
  renderStatus app' = Completed
  /\ exists video',
       exportVideo app' = Some video'
       /\ volume video' = 1
       /\ paused video' = true
       /\ ended video' = true.
Proof.
  cbv zeta.
  destruct (export_completion_restores_volume webmBrowser 2
              (mkExportDialog false exportIdle [])
              (mkVideo 3 true false 10 1 1920 1080) "blob:video"%string
              _ _ eq_refl eq_refl eq_refl eq_refl eq_refl)
    as (Hstatus & _ & _ & Hvideo).
  split; [exact Hstatus | exact Hvideo].
Defined.

(** X20. Progress is a percentage: on a frame rendered before the end of a
    video of positive duration, at a time between 0 and the duration, the
    progress is 100 * currentTime / duration and lies between 0 and 100;
    the status and the recorder are what they were. *)
Theorem frame_progress_is_a_percentage
  (app : Export) (video : Video) (canvas : RenderCanvas) (recorder : Recorder) :
  exportVideo app = Some video ->
  renderCanvas app = Some canvas ->
  mediaRecorder app = Some recorder ->
  ended video = false ->
  0 < duration video ->
  0 <= currentTime video ->
  currentTime video <= duration video ->
  let app' := renderFrame app in
  exportProgress app' == 100 * currentTime video / duration video
  /\ 0 <= exportProgress app' /\ exportProgress app' <= 100
  /\ renderStatus app' = renderStatus app
  /\ mediaRecorder app' = mediaRecorder app
  /\ exportVideo app' = exportVideo app.
Proof.
  intros Hv Hc Hr Hended Hd H0 H1 app'. subst app'.
  unfold renderFrame. rewrite Hv, Hc, Hr, Hended.
  destruct (compositeFrame video canvas (subtitlesRef app) (styleRef app))
    as [cmds lineWidth].
  cbn [exportProgress renderStatus mediaRecorder exportVideo].
  assert (Hnz : ~ duration video == 0) by lra.
  assert (E : currentTime video / duration video * 100
              == 100 * currentTime video / duration video)
    by (field; exact Hnz).
  split; [exact E |].
  assert (Hq : 0 <= currentTime video / duration video
               /\ currentTime video / duration video <= 1).
  { split.
    - apply Qle_shift_div_l; [exact Hd | lra].
    - apply Qle_shift_div_r; [exact Hd | lra]. }
  repeat split; auto; lra.
Qed.

Lemma frame_progress_is_a_percentage_witness :
  let app' := renderFrame (exportAt 3 overlappingCaptions) in
  exportProgress app' == 30
  /\ 0 <= exportProgress app' /\ exportProgress app' <= 100.
Proof.
  cbv zeta.
  assert (Hduration : 0 < 10) by reflexivity.
  assert (Hfrom : 0 <= 3) by discriminate.
  assert (Hto : 3 <= 10) by discriminate.
  destruct (frame_progress_is_a_percentage
              (exportAt 3 overlappingCaptions)
              (mkVideo 3 false false 10 0 1920 1080)
              (mkRenderCanvas 1920 1080 1 [])
              (mkRecorder "video/webm" "webm" true)
              eq_refl eq_refl eq_refl eq_refl Hduration Hfrom Hto)
    as (Hprogress & Hlow & Hhigh & _).
  split; [rewrite Hprogress; reflexivity |].
  split; [exact Hlow | exact Hhigh].
Defined.

(** ** The SRT writer: order, wrap-around and failure *)

Lemma insertSorted_startsAt q a sorted :
  filter (startsAt q) (insertSorted a sorted)
  = filter (startsAt q) (a :: sorted).
Proof.
  induction sorted as [| b rest IH]; cbn [insertSorted]; [reflexivity |].
  destruct (Qle_bool (byStart a b) 0) eqn:Hcmp; [reflexivity |].
  apply Qle_bool_gt in Hcmp. unfold byStart in Hcmp.
  cbn [filter] in *. rewrite IH.
  destruct (startsAt q a) eqn:Ha; [| reflexivity].
  destruct (startsAt q b) eqn:Hb; [| reflexivity].
  unfold startsAt in Ha, Hb.
  apply Qeq_bool_iff in Ha. apply Qeq_bool_iff in Hb. lra.
Qed.

(** X21.  [generateSRT] orders the captions with a stable sort: the sorted
    list holds the same captions, in ascending order of start, and the
    captions that start at the same time keep the order they had. *)
Theorem sortByStart_is_a_stable_sort (subs : list Subtitle) :
  Permutation (sortByStart subs) subs
  /\ StronglySorted startsBefore (sortByStart subs)
  /\ forall q, filter (startsAt q) (sortByStart subs)
               = filter (startsAt q) subs.
Proof.
  split; [apply sortByStart_perm |].
  split; [apply sortByStart_sorted |].
  intros q. induction subs as [| a rest IH]; [reflexivity |].
  cbn [sortByStart]. rewrite insertSorted_startsAt.
  cbn [filter]. now rewrite IH.
Qed.









(** ** The caption list of [App] *)




Lemma find_filter_other (selected id_ : string) (subs : list Subtitle) :
  String.eqb selected id_ = false ->
  find (fun s => isSelected s (Some selected))
       (filter (fun s => negb (String.eqb (id s) id_)) subs)
  = find (fun s => isSelected s (Some selected)) subs.
Proof.
  intros Hne. induction subs as [| s rest IH]; [reflexivity |].
  cbn [filter find isSelected] in *.
  destruct (String.eqb (id s) id_) eqn:Hid; cbn [negb].
  - destruct (String.eqb (id s) selected) eqn:Hsel; [| exact IH].
    apply String.eqb_eq in Hid, Hsel. apply String.eqb_neq in Hne.
    congruence.
  - cbn [find isSelected]. destruct (String.eqb (id s) selected);
      [reflexivity | exact IH].
Qed.

Lemma find_selected_app_fresh (uuid : string) (subs : list Subtitle)
  (new : Subtitle) :
  Forall (fun s => id s <> uuid) subs -> id new = uuid ->
  find (fun s => isSelected s (Some uuid)) (subs ++ [new]) = Some new.
Proof.
  intros Hfresh Hnew.
  induction Hfresh as [| s rest Hs _ IH]; cbn [app find isSelected].
  - rewrite Hnew, String.eqb_refl. reflexivity.
  - apply String.eqb_neq in Hs. rewrite Hs. exact IH.
Qed.

Lemma find_nothing_selected (subs : list Subtitle) :
  find (fun s => isSelected s None) subs = None.
Proof. induction subs as [| s rest IH]; [reflexivity | exact IH]. Qed.

Lemma find_selected_retexted (selected : option string) (txt : string)
  (subs : list Subtitle) :
  find (fun s => isSelected s selected)
       (map (fun s => if isSelected s selected
                      then mkSubtitle (id s) (start s) (end_ s) txt
                      else s) subs)
  = option_map (fun s => mkSubtitle (id s) (start s) (end_ s) txt)
               (find (fun s => isSelected s selected) subs).
Proof.
  induction subs as [| s rest IH]; [reflexivity |].
  cbn [map find]. destruct (isSelected s selected) eqn:Hsel.
  - assert (Hsel' : isSelected (mkSubtitle (id s) (start s) (end_ s) txt)
                               selected = true) by exact Hsel.
    rewrite Hsel'. reflexivity.
  - rewrite Hsel. exact IH.
Qed.

(** X25.  The text box and the selected caption stay in step: adding a
    caption (under a new identifier), deleting one and typing a text each
    keep the text box equal to the text of the selected caption, and the
    effect that follows a new selection makes it so again. *)
Theorem text_box_shows_selected_caption (app : Captions) :
  (forall uuid video,
      Forall (fun s => id s <> uuid) (appSubtitles app) ->
      textInSync (addSubtitle uuid (Some video) app))
  /\ (forall id_, textInSync app -> textInSync (deleteSubtitle id_ app))
  /\ (forall txt, textInSync (handleTextChange txt app))
  /\ (forall selected,
         textInSync (syncTextEdit (setSelectedSubId selected app))).
Proof.
  split; [| split; [| split]].
  - intros uuid video Hfresh.
    unfold textInSync, selectedSub.
    cbn [addSubtitle appSubtitles appSelectedSubId textEditText id].
    rewrite find_selected_app_fresh by (assumption || reflexivity).
    reflexivity.
  - intros id_. unfold textInSync, selectedSub.
    cbn [deleteSubtitle appSubtitles appSelectedSubId textEditText].
    destruct (appSelectedSubId app) as [selected |];
      [| intros _; now rewrite find_nothing_selected].
    destruct (String.eqb selected id_) eqn:Hsel.
    + intros _. now rewrite find_nothing_selected.
    + now rewrite find_filter_other.
  - intros txt. unfold textInSync, selectedSub.
    cbn [handleTextChange appSubtitles appSelectedSubId textEditText].
    rewrite find_selected_retexted.
    destruct (find _ (appSubtitles app)); [reflexivity | exact I].
  - intros selected. unfold syncTextEdit.
    destruct (selectedSub (setSelectedSubId selected app)) as [sub |] eqn:H.
    + unfold textInSync, selectedSub in *.
      cbn [setSelectedSubId appSubtitles appSelectedSubId textEditText] in *.
      now rewrite H.
    + unfold textInSync. now rewrite H.
Qed.

Lemma retext_twice (selected : option string) (txt1 txt2 : string)
  (subs : list Subtitle) :
  map (fun s => if isSelected s selected
                then mkSubtitle (id s) (start s) (end_ s) txt2 else s)
      (map (fun s => if isSelected s selected
                     then mkSubtitle (id s) (start s) (end_ s) txt1 else s)
           subs)
  = map (fun s => if isSelected s selected
                  then mkSubtitle (id s) (start s) (end_ s) txt2 else s)
        subs.
Proof.
  rewrite map_map. apply map_ext. intros s.
  destruct (isSelected s selected) eqn:Hsel.
  - assert (Hsel' : isSelected (mkSubtitle (id s) (start s) (end_ s) txt1)
                               selected = true) by exact Hsel.
    rewrite Hsel'. reflexivity.
  - now rewrite Hsel.
Qed.

(** X26.  Typing in the text box changes texts only: identifiers, starts
    and ends of all captions stay, a caption that is not selected keeps
    its text, every caption that carries the selected identifier gets the
    text typed, and of two texts typed in turn the second one stands. *)
Theorem handleTextChange_edits_selected_text (txt1 txt2 : string)
  (app : Captions) :
  let typed := handleTextChange txt2 app in
  map id (appSubtitles typed) = map id (appSubtitles app)
  /\ map start (appSubtitles typed) = map start (appSubtitles app)
  /\ map end_ (appSubtitles typed) = map end_ (appSubtitles app)
  /\ (forall n s, nth_error (appSubtitles app) n = Some s ->
        exists s', nth_error (appSubtitles typed) n = Some s'
          /\ text s' = if isSelected s (appSelectedSubId app)
                       then txt2 else text s)
  /\ handleTextChange txt2 (handleTextChange txt1 app) = typed.
Proof.
  intros typed. subst typed.
  cbn [handleTextChange appSubtitles appSelectedSubId].
  rewrite !map_map.
  repeat split.
  - apply map_ext. intros s. now destruct (isSelected s _).
  - apply map_ext. intros s. now destruct (isSelected s _).
  - apply map_ext. intros s. now destruct (isSelected s _).
  - intros n s Hn. eexists. split.
    + rewrite nth_error_map, Hn. reflexivity.
    + now destruct (isSelected s _).
  - unfold handleTextChange at 1 2 3.
    cbn [appSubtitles appSelectedSubId]. now rewrite retext_twice.
Qed.



(** ** The zoom buttons *)

Lemma zoomIn_range z : 10 <= z <= 500 -> 10 <= zoomIn z <= 500.
Proof.
  intros [Hlo Hhi]. unfold zoomIn.
  destruct (Q.min_spec (z * 1.5) 500) as [[H1 H2] | [H1 H2]];
    rewrite H2; lra.
Qed.

Lemma zoomOut_range z : 10 <= z <= 500 -> 10 <= zoomOut z <= 500.
Proof.
  intros [Hlo Hhi]. unfold zoomOut.
  assert (Hdiv : z / 1.5 == z * (2 # 3)) by (field; discriminate).
  destruct (Q.max_spec (z / 1.5) 10) as [[H1 H2] | [H1 H2]];
    rewrite H2, ?Hdiv; lra.
Qed.

(** X28.  The zoom buttons keep the zoom level between 10 and 500 pixels
    per second, whatever is clicked, so that it stays positive; zooming out
    undoes zooming in as long as zooming in did not reach 500, and zooming
    in undoes zooming out from 15 on. *)
Theorem zoom_stays_between_10_and_500 (clicks : list ZoomClick) (z : Q) :
  10 <= z <= 500 ->
  10 <= zoomClicks clicks z <= 500
  /\ 0 < zoomClicks clicks z
  /\ (z * 1.5 <= 500 -> zoomOut (zoomIn z) == z)
  /\ (15 <= z -> zoomIn (zoomOut z) == z).
Proof.
  intros Hz.
  assert (Hrun : 10 <= zoomClicks clicks z <= 500).
  { unfold zoomClicks. revert z Hz.
    induction clicks as [| click rest IH]; intros z Hz; [exact Hz |].
    cbn [fold_left]. apply IH.
    destruct click; [now apply zoomIn_range | now apply zoomOut_range]. }
  split; [exact Hrun |]. split; [lra |].
  assert (Hdiv : forall q, q / 1.5 == q * (2 # 3))
    by (intros q; field; discriminate).
  split.
  - intros Hin. unfold zoomIn, zoomOut.
    set (m := Qmin (z * 1.5) 500).
    pose proof (Hdiv m) as Hm.
    destruct (Q.min_spec (z * 1.5) 500) as [[A B] | [A B]];
      destruct (Q.max_spec (m / 1.5) 10) as [[C D] | [C D]];
      fold m in B; rewrite D; lra.
  - intros Hout. unfold zoomIn, zoomOut.
    set (m := Qmax (z / 1.5) 10).
    pose proof (Hdiv z) as Hm.
    destruct (Q.max_spec (z / 1.5) 10) as [[A B] | [A B]];
      destruct (Q.min_spec (m * 1.5) 500) as [[C D] | [C D]];
      fold m in B; rewrite D; lra.
Qed.

Lemma zoom_stays_between_10_and_500_witness :
  let z := zoomClicks [ClickZoomIn; ClickZoomIn; ClickZoomOut] 50 in
  z == 75 /\ 10 <= z <= 500 /\ zoomOut (zoomIn 50) == 50.
Proof.
  cbv zeta. split; [reflexivity |].
  assert (Hz : 10 <= 50 <= 500) by (split; discriminate).
  destruct (zoom_stays_between_10_and_500
              [ClickZoomIn; ClickZoomIn; ClickZoomOut] 50 Hz)
    as (Hrange & _ & Hback & _).
  split; [exact Hrange |]. apply Hback. discriminate.
Defined.

(** ** The caption blocks of [draw] *)

(** The time between the pointer and a caption edge is the pixel distance
    over the zoom. *)
Lemma pixel_offset (x t centerTime width zoom : Q) :
  0 < zoom ->
  xToTime x centerTime width zoom - t
  == (x - timeToX t centerTime width zoom) / zoom.
Proof.
  intros Hzoom. unfold xToTime, timeToX.
  assert (Hnz : ~ zoom == 0) by (intros E; rewrite E in Hzoom; lra).
  field. exact Hnz.
Qed.

Lemma Qdiv_lt_compat (a b z : Q) : 0 < z -> a < b -> a / z < b / z.
Proof.
  intros Hz Hab. unfold Qdiv. apply Qmult_lt_compat_r; [| exact Hab].
  now apply Qinv_lt_0_compat.
Qed.

Lemma Qdiv_le_compat (a b z : Q) : 0 < z -> a <= b -> a / z <= b / z.
Proof.
  intros Hz Hab. unfold Qdiv. apply Qmult_le_compat_r; [exact Hab |].
  apply Qlt_le_weak. now apply Qinv_lt_0_compat.
Qed.

Lemma Qdiv_neg_zero (z : Q) : 0 < z -> 0 / z == 0.
Proof. intros Hz. unfold Qdiv. ring. Qed.

Lemma timeToX_mono (t1 t2 centerTime width zoom : Q) :
  0 < zoom -> t1 <= t2 ->
  timeToX t1 centerTime width zoom <= timeToX t2 centerTime width zoom.
Proof.
  intros Hz Ht. unfold timeToX. cbv zeta.
  assert ((t1 - centerTime) * zoom <= (t2 - centerTime) * zoom)
    by (apply Qmult_le_compat_r; lra).
  lra.
Qed.

Lemma timeToX_le_iff (x t centerTime width zoom : Q) :
  0 < zoom ->
  (xToTime x centerTime width zoom <= t
   <-> x <= timeToX t centerTime width zoom).
Proof.
  intros Hz. pose proof (pixel_offset x t centerTime width zoom Hz) as Hoff.
  set (X := timeToX t centerTime width zoom) in *.
  set (t' := xToTime x centerTime width zoom) in *.
  split; intros H.
  - destruct (Qlt_le_dec X x) as [Hlt | Hle]; [| exact Hle].
    assert (0 / zoom < (x - X) / zoom) by (apply Qdiv_lt_compat; lra).
    rewrite Qdiv_neg_zero in * by assumption. lra.
  - assert ((x - X) / zoom <= 0 / zoom) by (apply Qdiv_le_compat; lra).
    rewrite Qdiv_neg_zero in * by assumption. lra.
Qed.

Lemma timeToX_ge_iff (x t centerTime width zoom : Q) :
  0 < zoom ->
  (t <= xToTime x centerTime width zoom
   <-> timeToX t centerTime width zoom <= x).
Proof.
  intros Hz. pose proof (pixel_offset x t centerTime width zoom Hz) as Hoff.
  set (X := timeToX t centerTime width zoom) in *.
  set (t' := xToTime x centerTime width zoom) in *.
  split; intros H.
  - destruct (Qlt_le_dec x X) as [Hlt | Hle]; [| exact Hle].
    assert ((x - X) / zoom < 0 / zoom) by (apply Qdiv_lt_compat; lra).
    rewrite Qdiv_neg_zero in * by assumption. lra.
  - assert (0 / zoom <= (x - X) / zoom) by (apply Qdiv_le_compat; lra).
    rewrite Qdiv_neg_zero in * by assumption. lra.
Qed.

Lemma timeToX_lt_iff (x t centerTime width zoom : Q) :
  0 < zoom ->
  (t < xToTime x centerTime width zoom
   <-> timeToX t centerTime width zoom < x).
Proof.
  intros Hz. pose proof (timeToX_le_iff x t centerTime width zoom Hz) as H.
  split; intros Hlt.
  - apply Qnot_le_lt. intros Hle. apply H in Hle. lra.
  - apply Qnot_le_lt. intros Hle. apply H in Hle. lra.
Qed.

Lemma Qfloor_nonneg (x : Q) : 0 <= x <-> (0 <= Qfloor x)%Z.
Proof.
  split; intros H.
  - change 0%Z with (Qfloor 0). now apply Qfloor_resp_le.
  - pose proof (Qfloor_le x). rewrite Zle_Qle in H.
    change (inject_Z 0) with 0 in H. lra.
Qed.

Lemma drawBlock_Some selected width zoom currentTime sub block :
  drawBlock selected width zoom currentTime sub = Some block ->
  let xStart := Qfloor (timeToX (start sub) currentTime width zoom) in
  let xEnd := Qfloor (timeToX (end_ sub) currentTime width zoom) in
  (0 <= xEnd)%Z /\ inject_Z xStart <= width
  /\ block = mkBlock (id sub) xStart (Z.max 2 (xEnd - xStart)) (text sub)
                     (isSelected sub selected)
                     (if isSelected sub selected
                      then [xStart; (xEnd - handleWidth)%Z] else []).
Proof.
  unfold drawBlock. cbv zeta.
  destruct (Z.ltb_spec (Qfloor (timeToX (end_ sub) currentTime width zoom)) 0)
    as [| Hend]; [discriminate |].
  destruct (Qltb width _) eqn:Hstart; [discriminate |].
  apply Qltb_ge in Hstart. cbn [orb]. intros [= <-]. auto.
Qed.

Lemma drawBlock_visible selected width zoom currentTime sub :
  (0 <= Qfloor (timeToX (end_ sub) currentTime width zoom))%Z ->
  inject_Z (Qfloor (timeToX (start sub) currentTime width zoom)) <= width ->
  exists block, drawBlock selected width zoom currentTime sub = Some block.
Proof.
  intros Hend Hstart. unfold drawBlock. cbv zeta.
  destruct (Z.ltb_spec (Qfloor (timeToX (end_ sub) currentTime width zoom)) 0);
    [lia |].
  apply Qltb_ge in Hstart. rewrite Hstart. cbn [orb]. eauto.
Qed.

(** X29.  [draw] paints a block for every caption that overlaps the time
    window of the canvas, and for none that lies outside the window
    widened by one pixel on the right; a block is at least 2 pixels wide
    and carries handles exactly when its caption is selected; a caption
    under the playhead is always painted, under the playhead line. *)
Theorem caption_blocks_follow_the_window (selected : option string)
  (width zoom currentTime : Q) (subs : list Subtitle) :
  0 < zoom ->
  let blocks := drawSubtitles selected width zoom currentTime subs in
  let windowStart := xToTime 0 currentTime width zoom in
  let windowEnd := xToTime width currentTime width zoom in
  (forall sub, In sub subs ->
     windowStart <= end_ sub -> start sub <= windowEnd ->
     exists block, In block blocks /\ blockId block = id sub
                   /\ blockText block = text sub)
  /\ (forall block, In block blocks ->
        (2 <= blockW block)%Z
        /\ (handles block <> [] <-> blockSelected block = true)
        /\ exists sub, In sub subs /\ blockId block = id sub
             /\ blockSelected block = isSelected sub selected
             /\ windowStart <= end_ sub
             /\ start sub < xToTime (width + 1) currentTime width zoom)
  /\ (forall sub, In sub subs -> 0 <= width ->
        start sub <= currentTime <= end_ sub ->
        exists block, In block blocks /\ blockId block = id sub
          /\ (blockX block <= playheadX width
              <= blockX block + blockW block)%Z).
Proof.
  intros Hzoom blocks windowStart windowEnd.
  subst blocks windowStart windowEnd. unfold drawSubtitles.
  split; [| split].
  - intros sub Hin Hend Hstart.
    apply timeToX_le_iff in Hend; [| exact Hzoom].
    apply timeToX_ge_iff in Hstart; [| exact Hzoom].
    destruct (drawBlock_visible selected width zoom currentTime sub)
      as [block Hblock].
    + now apply Qfloor_nonneg.
    + pose proof (Qfloor_le (timeToX (start sub) currentTime width zoom)).
      lra.
    + exists block. split.
      * apply in_flat_map. exists sub. rewrite Hblock.
        split; [exact Hin | now left].
      * apply drawBlock_Some in Hblock. cbv zeta in Hblock.
        destruct Hblock as (_ & _ & ->). split; reflexivity.
  - intros block Hin. apply in_flat_map in Hin.
    destruct Hin as (sub & Hsub & Hin).
    destruct (drawBlock selected width zoom currentTime sub)
      as [block' |] eqn:Hblock; [| destruct Hin].
    destruct Hin as [<- | []].
    apply drawBlock_Some in Hblock. cbv zeta in Hblock.
    destruct Hblock as (Hend & Hstart & ->).
    cbn [blockW handles blockSelected blockId].
    split; [lia |]. split.
    { destruct (isSelected sub selected); split; congruence. }
    exists sub. split; [exact Hsub |]. split; [reflexivity |].
    split; [reflexivity |]. split.
    + apply timeToX_le_iff; [exact Hzoom |]. now apply Qfloor_nonneg.
    + apply timeToX_lt_iff; [exact Hzoom |].
      pose proof (Qlt_floor (timeToX (start sub) currentTime width zoom))
        as Hlt.
      rewrite inject_Z_plus in Hlt. change (inject_Z 1) with 1 in Hlt. lra.
  - intros sub Hin Hwidth [Hstart Hend].
    assert (Hcentre : timeToX currentTime currentTime width zoom
                      == width / 2)
      by (unfold timeToX; cbv zeta; ring).
    assert (HstartX : timeToX (start sub) currentTime width zoom
                      <= width / 2)
      by (rewrite <- Hcentre; now apply timeToX_mono).
    assert (HendX : width / 2
                    <= timeToX (end_ sub) currentTime width zoom)
      by (rewrite <- Hcentre; now apply timeToX_mono).
    assert (Hdiv : width / 2 == width * (1 # 2)) by field.
    assert (Hhalf : 0 <= width / 2 <= width) by (rewrite Hdiv; lra).
    pose proof (Qfloor_resp_le _ _ HstartX) as Hfs.
    pose proof (Qfloor_resp_le _ _ HendX) as Hfe.
    pose proof (proj1 (Qfloor_nonneg (width / 2)) (proj1 Hhalf)) as Hc.
    pose proof (Qfloor_le (timeToX (start sub) currentTime width zoom)).
    destruct (drawBlock_visible selected width zoom currentTime sub)
      as [block Hblock]; [lia | lra |].
    exists block. split.
    + apply in_flat_map. exists sub. rewrite Hblock.
      split; [exact Hin | now left].
    + apply drawBlock_Some in Hblock. cbv zeta in Hblock.
      destruct Hblock as (_ & _ & ->). cbn [blockId blockX blockW].
      unfold playheadX. split; [reflexivity | lia].
Qed.

Lemma caption_blocks_follow_the_window_witness :
  let sub := mkSubtitle "a" 10 12 "hi" in
  xToTime 0 11 1000 50 <= end_ sub
  /\ start sub <= xToTime 1000 11 1000 50
  /\ exists block,
       In block (drawSubtitles None 1000 50 11 [sub])
       /\ blockId block = "a"%string
       /\ blockText block = "hi"%string.
Proof.
  cbv zeta.
  assert (Hzoom : 0 < 50) by reflexivity.
  assert (Hend : xToTime 0 11 1000 50 <= 12) by discriminate.
  assert (Hstart : 10 <= xToTime 1000 11 1000 50) by discriminate.
  split; [exact Hend |]. split; [exact Hstart |].
  exact (proj1 (caption_blocks_follow_the_window None 1000 50 11
                  [mkSubtitle "a" 10 12 "hi"] Hzoom)
               (mkSubtitle "a" 10 12 "hi") (or_introl eq_refl)
               Hend Hstart).
Defined.

Lemma hitLoop_skip selected t h skipped visit :
  Forall (fun s => inExpanded t h s = false) skipped ->
  hitLoop selected t h (skipped ++ visit) = hitLoop selected t h visit.
Proof.
  induction 1 as [| s rest Hs _ IH]; [reflexivity |].
  cbn [app hitLoop]. unfold hitOne. rewrite Hs. exact IH.
Qed.

Lemma hitTest_topmost selected t h before sub after :
  Forall (fun s => inExpanded t h s = false) after ->
  hitTest selected t h (before ++ sub :: after)
  = match hitOne selected t h sub with
    | Some hit => Some hit
    | None => hitTest selected t h before
    end.
Proof.
  intros Hafter. unfold hitTest.
  rewrite rev_app_distr. cbn [rev]. rewrite <- app_assoc. cbn [app].
  rewrite hitLoop_skip by (apply Forall_rev; exact Hafter).
  reflexivity.
Qed.

(** X30.  The handles [draw] paints can be grabbed: a pointer-down on a
    pixel of the painted left handle of a caption whose end is not before
    its start hits that handle, and one on the painted right handle hits a
    handle of that caption, the right one unless the pointer is also within
    the hit margin of the start; as long as no caption later in the list
    lies within the margin of the pointer. *)
Theorem painted_handles_can_be_grabbed (selected : option string)
  (width zoom currentTime x : Q) (before after : list Subtitle)
  (sub : Subtitle) (block : Block) (leftX rightX : Z) :
  0 < zoom ->
  start sub <= end_ sub ->
  drawBlock selected width zoom currentTime sub = Some block ->
  handles block = [leftX; rightX] ->
  let t := xToTime x currentTime width zoom in
  let h := handleHitWidth / zoom in
  Forall (fun s => inExpanded t h s = false) after ->
  (inject_Z leftX <= x < inject_Z (leftX + handleWidth) ->
   hitTest selected t h (before ++ sub :: after) = Some (id sub, HitLeft))
  /\ (inject_Z rightX <= x < inject_Z (rightX + handleWidth) ->
      hitTest selected t h (before ++ sub :: after)
      = Some (id sub, if Qltb (Qabs (t - start sub)) h
                      then HitLeft else HitRight)).
Proof.
  intros Hzoom Horder Hblock Hhandles t h Hafter.
  apply drawBlock_Some in Hblock. cbv zeta in Hblock.
  destruct Hblock as (_ & _ & ->). cbn [handles] in Hhandles.
  destruct (isSelected sub selected) eqn:Hsel; [| discriminate].
  rewrite hitTest_topmost by exact Hafter.
  pose proof (pixel_offset x (start sub) currentTime width zoom Hzoom)
    as Hs.
  pose proof (pixel_offset x (end_ sub) currentTime width zoom Hzoom)
    as He.
  fold t in Hs, He.
  set (Xs := timeToX (start sub) currentTime width zoom) in *.
  set (Xe := timeToX (end_ sub) currentTime width zoom) in *.
  assert (Hl : leftX = Qfloor Xs) by congruence.
  assert (Hr : rightX = (Qfloor Xe - handleWidth)%Z) by congruence.
  clear Hhandles. subst leftX rightX.
  pose proof (Qfloor_le Xs) as Hs1. pose proof (Qlt_floor Xs) as Hs2.
  pose proof (Qfloor_le Xe) as He1. pose proof (Qlt_floor Xe) as He2.
  rewrite inject_Z_plus in Hs2, He2.
  change (inject_Z 1) with 1 in Hs2, He2.
  assert (Hh : h == 10 / zoom) by reflexivity.
  unfold hitOne, handleHit. rewrite Hsel.
  split; intros [Hlo Hhi].
  - rewrite inject_Z_plus in Hhi.
    change (inject_Z handleWidth) with 4 in Hhi.
    assert (Hup : (x - Xs) / zoom < 10 / zoom)
      by (apply Qdiv_lt_compat; lra).
    assert (Hdown : (-10) / zoom < (x - Xs) / zoom)
      by (apply Qdiv_lt_compat; lra).
    assert (Hneg : (-10) / zoom == - (10 / zoom))
      by (unfold Qdiv; ring).
    assert (Hexp : inExpanded t h sub = true)
      by (apply inExpanded_iff; lra).
    assert (Hleft : Qltb (Qabs (t - start sub)) h = true).
    { apply Qltb_lt. apply Qabs_Qlt_condition. lra. }
    rewrite Hexp, Hleft. reflexivity.
  - unfold Z.sub in Hlo, Hhi.
    rewrite <- Z.add_assoc, Z.add_opp_diag_l, Z.add_0_r in Hhi.
    rewrite inject_Z_plus in Hlo.
    change (inject_Z (- handleWidth)) with (-4) in Hlo.
    assert (Hup : (x - Xe) / zoom < 0 / zoom)
      by (apply Qdiv_lt_compat; lra).
    assert (Hdown : (-10) / zoom < (x - Xe) / zoom)
      by (apply Qdiv_lt_compat; lra).
    rewrite Qdiv_neg_zero in Hup by exact Hzoom.
    assert (Hneg : (-10) / zoom == - (10 / zoom))
      by (unfold Qdiv; ring).
    assert (Hexp : inExpanded t h sub = true)
      by (apply inExpanded_iff; lra).
    assert (Hright : Qltb (Qabs (t - end_ sub)) h = true).
    { apply Qltb_lt. apply Qabs_Qlt_condition. lra. }
    rewrite Hexp, Hright.
    destruct (Qltb (Qabs (t - start sub)) h); reflexivity.
Qed.

Lemma painted_handles_can_be_grabbed_witness :
  let sub := mkSubtitle "a" 10 12 "hi" in
  let selected := Some "a"%string in
  drawBlock selected 1000 50 11 sub
  = Some (mkBlock "a" 450 100 "hi" true [450; 546]%Z)
  /\ hitTest selected (xToTime 451 11 1000 50) (handleHitWidth / 50) [sub]
     = Some ("a"%string, HitLeft).
Proof.
  cbv zeta. split; [reflexivity |].
  assert (Hzoom : 0 < 50) by reflexivity.
  assert (Horder : 10 <= 12) by discriminate.
  assert (Hpixel : inject_Z 450 <= 451 < inject_Z (450 + handleWidth))
    by (split; [discriminate | reflexivity]).
  exact (proj1 (painted_handles_can_be_grabbed (Some "a"%string)
                  1000 50 11 451 [] [] (mkSubtitle "a" 10 12 "hi")
                  (mkBlock "a" 450 100 "hi" true [450; 546]%Z) 450 546
                  Hzoom Horder eq_refl eq_refl (Forall_nil _))
               Hpixel).
Defined.
